(** * yang-lint: structural scanner, rule engine and duplicate-deviation quick fix

    A shallow embedding of [src/server/yangParser.ts], [src/server/ruleEngine.ts]
    and [src/server/providers/quickfix.ts].

    JavaScript strings are sequences of UTF-16 code units; they are modelled
    as lists of [N].  JavaScript numbers used as indices are modelled as [Z]
    (an index may be [-1]).  A call that may throw returns a [result]. *)

From Stdlib Require Import List ZArith NArith Lia Bool String Ascii Arith Permutation.
From Stdlib Require Import DecimalString Sorted.
Import ListNotations.

Set Implicit Arguments.

(* ================================================================== *)
(** * JavaScript strings *)
(* ================================================================== *)

Definition jsstring := list N.

(** The code unit of an ASCII character. *)
Definition cu (a : ascii) : N := N_of_ascii a.

(** A string literal of the source. *)
Fixpoint lit (s : string) : jsstring :=
  match s with
  | EmptyString => []
  | String a s' => cu a :: lit s'
  end.

Definition len (text : jsstring) : Z := Z.of_nat (List.length text).

(** [text[i]]: [None] stands for [undefined]. *)
Definition js_index (text : jsstring) (i : Z) : option N :=
  if (i <? 0)%Z then None else nth_error text (Z.to_nat i).

(** [o === 'c'] for a value read with [text[i]]. *)
Definition is_ch (o : option N) (c : ascii) : bool :=
  match o with
  | Some n => N.eqb n (cu c)
  | None => false
  end.

Definition jsstring_eq_dec (a b : jsstring) : {a = b} + {a <> b} :=
  list_eq_dec N.eq_dec a b.

Definition jsstring_eqb (a b : jsstring) : bool :=
  if jsstring_eq_dec a b then true else false.

(** The backslash, the double quote and the line feed are written by code. *)
Definition BACKSLASH : ascii := ascii_of_nat 92.
Definition DQUOTE : ascii := ascii_of_nat 34.
Definition LF : ascii := ascii_of_nat 10.
Definition TAB : ascii := ascii_of_nat 9.
Definition CR : ascii := ascii_of_nat 13.

(* ================================================================== *)
(** * yangParser.ts: findMatchingBrace *)
(* ================================================================== *)

(** [enum S { CODE, LINE_COMMENT, BLOCK_COMMENT, DQ_STRING, SQ_STRING }] *)
Module S.
Inductive t := CODE | LINE_COMMENT | BLOCK_COMMENT | DQ_STRING | SQ_STRING.
End S.

(** The outcome of one run of the [for] body: either [return i], or the
    loop variables after the body (before the loop's own [i++]). *)
Inductive iteration :=
| Return (i : Z)
| Continue (state : S.t) (depth : Z) (i : Z).

Definition for_body (text : jsstring) (state : S.t) (depth : Z) (i : Z) : iteration :=
  let ch := js_index text i in
  let nxt := js_index text (i + 1) in
  match state with
  | S.CODE =>
      if is_ch ch "{" then Continue S.CODE (depth + 1) i
      else if is_ch ch "}" then
        if (depth - 1 =? 0)%Z then Return i else Continue S.CODE (depth - 1) i
      else if is_ch ch "/" && is_ch nxt "/" then Continue S.LINE_COMMENT depth (i + 1)
      else if is_ch ch "/" && is_ch nxt "*" then Continue S.BLOCK_COMMENT depth (i + 1)
      else if is_ch ch DQUOTE then Continue S.DQ_STRING depth i
      else if is_ch ch "'" then Continue S.SQ_STRING depth i
      else Continue S.CODE depth i
  | S.LINE_COMMENT =>
      if is_ch ch LF then Continue S.CODE depth i else Continue S.LINE_COMMENT depth i
  | S.BLOCK_COMMENT =>
      if is_ch ch "*" && is_ch nxt "/" then Continue S.CODE depth (i + 1)
      else Continue S.BLOCK_COMMENT depth i
  | S.DQ_STRING =>
      if is_ch ch DQUOTE && negb (is_ch (js_index text (i - 1)) BACKSLASH)
      then Continue S.CODE depth i else Continue S.DQ_STRING depth i
  | S.SQ_STRING =>
      if is_ch ch "'" && negb (is_ch (js_index text (i - 1)) BACKSLASH)
      then Continue S.CODE depth i else Continue S.SQ_STRING depth i
  end.

(** The [for] loop.  [None] means that the fuel ran out before the loop
    ended; [findMatchingBrace_total] shows that this never happens. *)
Fixpoint for_loop (fuel : nat) (text : jsstring) (state : S.t) (depth : Z) (i : Z)
  : option Z :=
  if (i <? len text)%Z then
    match fuel with
    | O => None
    | S fuel' =>
        match for_body text state depth i with
        | Return r => Some r
        | Continue state' depth' i' => for_loop fuel' text state' depth' (i' + 1)
        end
    end
  else Some (len text - 1)%Z.

Definition findMatchingBrace (text : jsstring) (openIdx : Z) : option Z :=
  for_loop (Z.to_nat (len text - (openIdx + 1))) text S.CODE 1 (openIdx + 1).

(** The code unit [n] is the character [c]. *)
Definition eqc (n : N) (c : ascii) : bool := N.eqb n (cu c).

(* ================================================================== *)
(** * The brace matcher as the specification words it *)
(* ================================================================== *)

Module BraceSpec.

(** The five modes of the automaton. *)
Inductive mode := Code | LineComment | BlockComment | DqString | SqString.

(** [scan m d rest] reads the characters that follow the opening brace.
    [d] is the number of braces opened and not yet closed after the one
    being matched.  The result is the number of characters read before the
    matching closing brace, or [None] when the brace is never closed.
    Only characters read in [Code] mode change the depth or open a comment
    or a string.  Inside a string a backslash escapes the character that
    follows it, whatever that character is: the two are read together, so
    an escaped quote does not end the string, and a backslash that is
    itself escaped escapes nothing. *)
Fixpoint scan (m : mode) (d : nat) (rest : jsstring) {struct rest} : option nat :=
  match rest with
  | [] => None
  | c :: tl =>
      match m with
      | Code =>
          if eqc c "{" then option_map S (scan Code (S d) tl)
          else if eqc c "}" then
            match d with
            | O => Some O
            | S d' => option_map S (scan Code d' tl)
            end
          else if eqc c "/" then
            match tl with
            | c2 :: tl2 =>
                if eqc c2 "/" then option_map (fun n => 2 + n) (scan LineComment d tl2)
                else if eqc c2 "*" then option_map (fun n => 2 + n) (scan BlockComment d tl2)
                else option_map S (scan Code d tl)
            | [] => None
            end
          else if eqc c DQUOTE then option_map S (scan DqString d tl)
          else if eqc c "'" then option_map S (scan SqString d tl)
          else option_map S (scan Code d tl)
      | LineComment =>
          if eqc c LF then option_map S (scan Code d tl)
          else option_map S (scan LineComment d tl)
      | BlockComment =>
          match tl with
          | c2 :: tl2 =>
              if eqc c "*" && eqc c2 "/" then option_map (fun n => 2 + n) (scan Code d tl2)
              else option_map S (scan BlockComment d tl)
          | [] => None
          end
      | DqString =>
          if eqc c BACKSLASH then
            match tl with
            | _ :: tl2 => option_map (fun n => 2 + n) (scan DqString d tl2)
            | [] => None
            end
          else if eqc c DQUOTE then option_map S (scan Code d tl)
          else option_map S (scan DqString d tl)
      | SqString =>
          if eqc c BACKSLASH then
            match tl with
            | _ :: tl2 => option_map (fun n => 2 + n) (scan SqString d tl2)
            | [] => None
            end
          else if eqc c "'" then option_map S (scan Code d tl)
          else option_map S (scan SqString d tl)
      end
  end.

(** The index of the closing brace that matches the brace at [openIdx]. *)
Definition matching (text : jsstring) (openIdx : nat) : option nat :=
  option_map (fun n => openIdx + 1 + n) (scan Code 0 (skipn (openIdx + 1) text)).

(** The brace at [openIdx] is balanced when it has a matching brace. *)
Definition balanced (text : jsstring) (openIdx : nat) : Prop :=
  nth_error text openIdx = Some (cu "{") /\ exists j, matching text openIdx = Some j.

(** The brace at [openIdx] is never closed in the rest of the text. *)
Definition unterminated (text : jsstring) (openIdx : nat) : Prop :=
  nth_error text openIdx = Some (cu "{") /\ matching text openIdx = None.

End BraceSpec.

(* ================================================================== *)
(** * The loop of findMatchingBrace, read on the remaining characters *)
(* ================================================================== *)

(** The [for] loop again, with the index replaced by the characters that
    remain.  This is the code, not the specification: [loop_scan] proves
    that [for_loop] computes it.  As in the code, a quote inside a string
    is skipped when the character before it is a backslash, also when that
    backslash is itself escaped. *)
Module OnSuffix.

(** [scan st d rest]: the number of characters the loop reads before its
    [return i], or [None] when it runs to the end of the text.  [d] is
    [depth - 1]. *)
Fixpoint scan (st : S.t) (d : nat) (rest : jsstring) {struct rest} : option nat :=
  match rest with
  | [] => None
  | c :: tl =>
      match st with
      | S.CODE =>
          if eqc c "{" then option_map S (scan S.CODE (S d) tl)
          else if eqc c "}" then
            match d with
            | O => Some O
            | S d' => option_map S (scan S.CODE d' tl)
            end
          else if eqc c "/" then
            match tl with
            | c2 :: tl2 =>
                if eqc c2 "/" then option_map (fun n => 2 + n) (scan S.LINE_COMMENT d tl2)
                else if eqc c2 "*" then option_map (fun n => 2 + n) (scan S.BLOCK_COMMENT d tl2)
                else option_map S (scan S.CODE d tl)
            | [] => None
            end
          else if eqc c DQUOTE then option_map S (scan S.DQ_STRING d tl)
          else if eqc c "'" then option_map S (scan S.SQ_STRING d tl)
          else option_map S (scan S.CODE d tl)
      | S.LINE_COMMENT =>
          if eqc c LF then option_map S (scan S.CODE d tl)
          else option_map S (scan S.LINE_COMMENT d tl)
      | S.BLOCK_COMMENT =>
          match tl with
          | c2 :: tl2 =>
              if eqc c "*" && eqc c2 "/" then option_map (fun n => 2 + n) (scan S.CODE d tl2)
              else option_map S (scan S.BLOCK_COMMENT d tl)
          | [] => None
          end
      | S.DQ_STRING =>
          if eqc c DQUOTE then option_map S (scan S.CODE d tl)
          else if eqc c BACKSLASH then
            match tl with
            | c2 :: tl2 =>
                if eqc c2 DQUOTE then option_map (fun n => 2 + n) (scan S.DQ_STRING d tl2)
                else option_map S (scan S.DQ_STRING d tl)
            | [] => None
            end
          else option_map S (scan S.DQ_STRING d tl)
      | S.SQ_STRING =>
          if eqc c "'" then option_map S (scan S.CODE d tl)
          else if eqc c BACKSLASH then
            match tl with
            | c2 :: tl2 =>
                if eqc c2 "'" then option_map (fun n => 2 + n) (scan S.SQ_STRING d tl2)
                else option_map S (scan S.SQ_STRING d tl)
            | [] => None
            end
          else option_map S (scan S.SQ_STRING d tl)
      end
  end.

(** The index at which the loop returns from inside its body. *)
Definition matching (text : jsstring) (openIdx : nat) : option nat :=
  option_map (fun n => openIdx + 1 + n) (scan S.CODE 0 (skipn (openIdx + 1) text)).

End OnSuffix.



Arguments cu : simpl never.
Arguments eqc : simpl never.

(* ================================================================== *)
(** * String methods used by the sources *)
(* ================================================================== *)

(** A relative index of [slice]: negative values count from the end. *)
Definition clamp (n : Z) (i : Z) : Z :=
  if (i <? 0)%Z then Z.max (n + i) 0 else Z.min i n.

(** [text.slice(a, b)] *)
Definition js_slice (text : jsstring) (a b : Z) : jsstring :=
  let from := clamp (len text) a in
  let to := clamp (len text) b in
  firstn (Z.to_nat (to - from)) (skipn (Z.to_nat from) text).

(** [text.slice(a)] *)
Definition js_slice_from (text : jsstring) (a : Z) : jsstring :=
  js_slice text a (len text).

(** [text.split('\n')]: the result always has at least one element. *)
Fixpoint split_lf_acc (cur : jsstring) (text : jsstring) : list jsstring :=
  match text with
  | [] => [rev cur]
  | c :: tl =>
      if N.eqb c (cu LF) then rev cur :: split_lf_acc [] tl
      else split_lf_acc (c :: cur) tl
  end.

Definition split_lf (text : jsstring) : list jsstring := split_lf_acc [] text.

(** [parts.join(sep)] *)
Fixpoint join (sep : jsstring) (parts : list jsstring) : jsstring :=
  match parts with
  | [] => []
  | [p] => p
  | p :: ps => p ++ sep ++ join sep ps
  end.

(** [text.indexOf(c, from)] for a one-character string [c] and [0 <= from]:
    [-1] when there is none. *)
Fixpoint indexOf_from (c : N) (i : nat) (rest : jsstring) : Z :=
  match rest with
  | [] => (-1)%Z
  | x :: tl => if N.eqb x c then Z.of_nat i else indexOf_from c (S i) tl
  end.

Definition js_indexOf (text : jsstring) (c : ascii) (from : nat) : Z :=
  indexOf_from (cu c) from (skipn from text).

(** [text.lastIndexOf(c)] *)
Fixpoint lastIndexOf_from (c : N) (i : nat) (rest : jsstring) (found : Z) : Z :=
  match rest with
  | [] => found
  | x :: tl =>
      lastIndexOf_from c (S i) tl (if N.eqb x c then Z.of_nat i else found)
  end.

Definition js_lastIndexOf (text : jsstring) (c : ascii) : Z :=
  lastIndexOf_from (cu c) 0 text (-1)%Z.

(** White space and line terminators of ECMAScript: the characters of the
    class [\s], which are also those removed by [trim]. *)
Definition is_space (c : N) : bool :=
  existsb (N.eqb c)
    [9; 10; 11; 12; 13; 32; 160; 5760; 8232; 8233; 8239; 8287; 12288; 65279]%N
  || ((8192 <=? c) && (c <=? 8202))%N.

(** The line terminators, which bound a line for [^] and [$] under flag m. *)
Definition is_line_terminator (c : N) : bool :=
  existsb (N.eqb c) [10; 13; 8232; 8233]%N.

Fixpoint drop_while (p : N -> bool) (text : jsstring) : jsstring :=
  match text with
  | [] => []
  | c :: tl => if p c then drop_while p tl else text
  end.

(** [text.trim()] *)
Definition js_trim (text : jsstring) : jsstring :=
  rev (drop_while is_space (rev (drop_while is_space text))).

(* ================================================================== *)
(** * Regular expressions *)
(* ================================================================== *)

(** The patterns of the sources use literal characters, character classes,
    the greedy quantifiers [*] and [+] on a character class, sequence,
    alternation, capturing groups and the assertions [^] and [$].  The
    matcher follows the backtracking semantics of ECMAScript: a matcher
    takes a continuation, and an alternative or a shorter repetition is
    tried when the continuation fails. *)
Inductive regex :=
| Eps
| Chr (c : ascii)
| Cls (p : N -> bool)
| Star (p : N -> bool)
| Seq (a b : regex)
| Alt (a b : regex)
| Group (n : nat) (a : regex)
| Bol (multiline : bool)
| Eol (multiline : bool).

(** [p+] *)
Definition Plus (p : N -> bool) : regex := Seq (Cls p) (Star p).

(** A literal word. *)
Fixpoint Lit (s : string) : regex :=
  match s with
  | EmptyString => Eps
  | String a s' => Seq (Chr a) (Lit s')
  end.

(** The state of a match: the current index, the text from that index on,
    and the captures made so far (group number, start, end). *)
Record mstate := { pos : nat; rest : jsstring; caps : list (nat * (nat * nat)) }.

Definition cont := mstate -> option mstate.

Fixpoint star (p : N -> bool) (k : cont) (i : nat) (rest : jsstring)
  (caps : list (nat * (nat * nat))) : option mstate :=
  match rest with
  | c :: tl =>
      if p c then
        match star p k (S i) tl caps with
        | Some r => Some r
        | None => k {| pos := i; rest := rest; caps := caps |}
        end
      else k {| pos := i; rest := rest; caps := caps |}
  | [] => k {| pos := i; rest := []; caps := caps |}
  end.

Definition at_line_start (multiline : bool) (text : jsstring) (i : nat) : bool :=
  match i with
  | O => true
  | S j => multiline &&
           match nth_error text j with
           | Some c => is_line_terminator c
           | None => false
           end
  end.

Definition at_line_end (multiline : bool) (rest : jsstring) : bool :=
  match rest with
  | [] => true
  | c :: _ => multiline && is_line_terminator c
  end.

Fixpoint rmatch (text : jsstring) (r : regex) (k : cont) (s : mstate) : option mstate :=
  match r with
  | Eps => k s
  | Chr c =>
      match rest s with
      | x :: tl => if N.eqb x (cu c)
                   then k {| pos := S (pos s); rest := tl; caps := caps s |}
                   else None
      | [] => None
      end
  | Cls p =>
      match rest s with
      | x :: tl => if p x
                   then k {| pos := S (pos s); rest := tl; caps := caps s |}
                   else None
      | [] => None
      end
  | Star p => star p k (pos s) (rest s) (caps s)
  | Seq a b => rmatch text a (rmatch text b k) s
  | Alt a b =>
      match rmatch text a k s with
      | Some r => Some r
      | None => rmatch text b k s
      end
  | Group n a =>
      rmatch text a
        (fun s' => k {| pos := pos s'; rest := rest s';
                        caps := (n, (pos s, pos s')) :: caps s' |}) s
  | Bol multiline => if at_line_start multiline text (pos s) then k s else None
  | Eol multiline => if at_line_end multiline (rest s) then k s else None
  end.

(** The result of a successful [exec]: [index], the end of the match and
    the captures. *)
Record rmatch_result := { index : nat; end_index : nat; groups : list (nat * (nat * nat)) }.

(** The pattern tried at index [i], where the text continues with [rest]. *)
Definition match_at (text : jsstring) (r : regex) (i : nat) (rest : jsstring)
  : option rmatch_result :=
  match rmatch text r (fun s => Some s) {| pos := i; rest := rest; caps := [] |} with
  | Some s => Some {| index := i; end_index := pos s; groups := caps s |}
  | None => None
  end.

(** The first index from [i] on at which the pattern matches. *)
Fixpoint search (text : jsstring) (r : regex) (i : nat) (rest : jsstring)
  : option rmatch_result :=
  match match_at text r i rest with
  | Some m => Some m
  | None =>
      match rest with
      | [] => None
      | _ :: tl => search text r (S i) tl
      end
  end.

(** [re.exec(text)] with the search starting at [lastIndex]; for a pattern
    with flag g the next [lastIndex] is the [end_index] of the result, and
    0 after a failure. *)
Definition exec (text : jsstring) (r : regex) (lastIndex : nat) : option rmatch_result :=
  if (List.length text <? lastIndex)%nat then None
  else search text r lastIndex (skipn lastIndex text).

(** [m[0]] *)
Definition matched (text : jsstring) (m : rmatch_result) : jsstring :=
  firstn (end_index m - index m) (skipn (index m) text).

(** [m[n]], [None] for [undefined]. *)
Definition group (text : jsstring) (m : rmatch_result) (n : nat) : option jsstring :=
  match find (fun g => Nat.eqb (fst g) n) (groups m) with
  | Some (_, (b, e)) => Some (firstn (e - b) (skipn b text))
  | None => None
  end.

(** [m[n]] where the group always takes part in a match. *)
Definition group1 (text : jsstring) (m : rmatch_result) (n : nat) : jsstring :=
  match group text m n with
  | Some g => g
  | None => []
  end.

(** The loop [while ((m = re.exec(text))) { ... }] for a pattern with flag
    g, as the list of the matches in the order found.  The loop ends at the
    first failure, which resets [lastIndex] to 0.  [None]: the fuel ran out
    (a pattern that matches the empty string never advances). *)
Fixpoint exec_loop (fuel : nat) (text : jsstring) (r : regex) (lastIndex : nat)
  : option (list rmatch_result) :=
  match fuel with
  | O => None
  | S fuel' =>
      match exec text r lastIndex with
      | None => Some []
      | Some m =>
          match exec_loop fuel' text r (end_index m) with
          | Some ms => Some (m :: ms)
          | None => None
          end
      end
  end.

Definition exec_all (text : jsstring) (r : regex) : option (list rmatch_result) :=
  exec_loop (S (List.length text)) text r 0.

(** [text.matchAll(re)], and the matches replaced by [text.replace(re, ..)]
    for a pattern with flag g: as [exec_loop], but [lastIndex] moves one
    further after an empty match. *)
Fixpoint matchAll_loop (fuel : nat) (text : jsstring) (r : regex) (lastIndex : nat)
  : list rmatch_result :=
  match fuel with
  | O => []
  | S fuel' =>
      match exec text r lastIndex with
      | None => []
      | Some m =>
          m :: matchAll_loop fuel' text r
                 (if (end_index m =? index m)%nat then S (end_index m) else end_index m)
      end
  end.

Definition matchAll (text : jsstring) (r : regex) : list rmatch_result :=
  matchAll_loop (S (S (List.length text))) text r 0.

(** [re.test(text)] for a pattern without flag g. *)
Definition test (text : jsstring) (r : regex) : bool :=
  match exec text r 0 with Some _ => true | None => false end.

(** [text.replace(re, '')] for a pattern with flag g. *)
Fixpoint remove_matches (text : jsstring) (i : nat) (ms : list rmatch_result) : jsstring :=
  match ms with
  | [] => skipn i text
  | m :: ms' =>
      firstn (index m - i) (skipn i text) ++ remove_matches text (end_index m) ms'
  end.

Definition replace_all_empty (text : jsstring) (r : regex) : jsstring :=
  remove_matches text 0 (matchAll text r).

(* ================================================================== *)
(** * yangParser.ts: positions, nodes and the Ast *)
(* ================================================================== *)

Record Position := { line : Z; character : Z }.
Record Range := { start : Position; end_ : Position }.

(** [idxToPos]: [lines.at(-1)] is the last line of the prefix. *)
Definition idxToPos (text : jsstring) (idx : Z) : Position :=
  let lines := split_lf (js_slice text 0 idx) in
  {| line := Z.of_nat (List.length lines) - 1;
     character := len (last lines []) |}.

Module ModuleHeader.
Record t := { moduleName : option jsstring; namespace : option jsstring;
              range : Range; rawLine : jsstring }.
End ModuleHeader.

Module ImportNode.
Record t := { name : jsstring; range : Range; rawLine : jsstring }.
End ImportNode.

Module TypedefNode.
Record t := { name : jsstring; range : Range; rawLine : jsstring;
              afterLines : jsstring }.
End TypedefNode.

Module StatusNode.
Record t := { value : jsstring; range : Range; rawLine : jsstring;
              afterLines : jsstring }.
End StatusNode.

Module ListNode.
Record t := { line : Z; range : Range; key : list jsstring;
              children : list jsstring; afterLines : jsstring }.
End ListNode.

Module BlockNode.
Record t := { keyword : jsstring; name : jsstring; range : Range;
              rawLine : jsstring; afterLines : jsstring }.
End BlockNode.

Module DeviationNode.
Record t := { target : jsstring; range : Range; duplicate : bool }.
End DeviationNode.

Module ConstraintNode.
Record t := { keyword : jsstring; name : jsstring; range : Range;
              hasMust : bool; hasWhen : bool; hasDesc : bool }.
End ConstraintNode.

(** An absent field is [undefined]. *)
Record Ast := {
  moduleHeader : option ModuleHeader.t;
  imports : option (list ImportNode.t);
  typedefs : option (list TypedefNode.t);
  statuses : option (list StatusNode.t);
  lists : option (list ListNode.t);
  blocks : option (list BlockNode.t);
  deviations : option (list DeviationNode.t);
  constraintNodes : option (list ConstraintNode.t)
}.

(* ------------------------------------------------------------------ *)
(** ** The patterns *)

Definition in_range (lo hi : ascii) (c : N) : bool :=
  ((cu lo <=? c) && (c <=? cu hi))%N.

Definition one_of (s : string) (c : N) : bool := existsb (N.eqb c) (lit s).

(** [[ \t]] *)
Definition blank (c : N) : bool := N.eqb c (cu " ") || N.eqb c (cu TAB).
(** [[A-Za-z0-9._-]] *)
Definition ident_char (c : N) : bool :=
  in_range "A" "Z" c || in_range "a" "z" c || in_range "0" "9" c || one_of "._-" c.
(** [\w] *)
Definition word_char (c : N) : bool :=
  in_range "A" "Z" c || in_range "a" "z" c || in_range "0" "9" c || N.eqb c (cu "_").
(** [[^\n]] *)
Definition not_lf (c : N) : bool := negb (N.eqb c (cu LF)).
(** The class of every character but the double quote. *)
Definition not_dquote (c : N) : bool := negb (N.eqb c (cu DQUOTE)).
(** [[^ \t{]] *)
Definition not_blank_brace (c : N) : bool := negb (blank c || N.eqb c (cu "{")).
(** [[\s\n]] *)
Definition space_or_lf (c : N) : bool := is_space c || N.eqb c (cu LF).

(** The sequence of the patterns of a list. *)
Definition cat (rs : list regex) : regex := fold_right Seq Eps rs.

(** The alternatives of a list of words, in order. *)
Fixpoint words (ws : list string) : regex :=
  match ws with
  | [] => Cls (fun _ => false)
  | [w] => Lit w
  | w :: ws' => Alt (Lit w) (words ws')
  end.

(** [/^[ \t]*module[ \t]+([A-Za-z0-9._-]+)[^\n]*$/m] *)
Definition MODULE_RE : regex :=
  cat [Bol true; Star blank; Lit "module"; Plus blank; Group 1 (Plus ident_char);
       Star not_lf; Eol true].
(** [/^[ \t]*namespace[ \t]+Q([^Q]+)Q[^\n]*$/m], where Q is the double quote *)
Definition NS_RE : regex :=
  cat [Bol true; Star blank; Lit "namespace"; Plus blank; Chr DQUOTE;
       Group 1 (Plus not_dquote); Chr DQUOTE; Star not_lf; Eol true].
(** [/^[ \t]*import[ \t]+([0-9A-Za-z._-]+)[^\n]*$/gm] *)
Definition IMPORT_RE : regex :=
  cat [Bol true; Star blank; Lit "import"; Plus blank; Group 1 (Plus ident_char);
       Star not_lf; Eol true].
(** [/^[ \t]*status[ \t]+(current|deprecated|obsolete)[^\n]*$/gm] *)
Definition STATUS_RE : regex :=
  cat [Bol true; Star blank; Lit "status"; Plus blank;
       Group 1 (words ["current"; "deprecated"; "obsolete"]%string);
       Star not_lf; Eol true].
(** [/^[ \t]*typedef[ \t]+([A-Za-z0-9._-]+)[ \t]*{/gm] *)
Definition TYPEDEF_START_RE : regex :=
  cat [Bol true; Star blank; Lit "typedef"; Plus blank; Group 1 (Plus ident_char);
       Star blank; Chr "{"].
(** [/^[ \t]*list[ \t]+(\w+)[ \t]*{/gm] *)
Definition LIST_START_RE : regex :=
  cat [Bol true; Star blank; Lit "list"; Plus blank; Group 1 (Plus word_char);
       Star blank; Chr "{"].
(** [/^[ \t]*deviation[ \t]+([^ \t{]+)[ \t]*{/gm] *)
Definition DEVIATION_START_RE : regex :=
  cat [Bol true; Star blank; Lit "deviation"; Plus blank;
       Group 1 (Plus not_blank_brace); Star blank; Chr "{"].
(** [/key[ \t]+Q([^Q]+)Q/], where Q is the double quote *)
Definition KEY_RE : regex :=
  cat [Lit "key"; Plus blank; Chr DQUOTE; Group 1 (Plus not_dquote); Chr DQUOTE].
(** [/leaf[ \t]+(\w+)/g] *)
Definition LEAF_RE : regex :=
  cat [Lit "leaf"; Plus blank; Group 1 (Plus word_char)].
(** [/^[ \t]*(anyxml|augment|choice|container|extension|feature|notification|rpc)[ \t]+(\w+)[^\n]*{/gm] *)
Definition DESC_BLOCK_RE : regex :=
  cat [Bol true; Star blank;
       Group 1 (words ["anyxml"; "augment"; "choice"; "container"; "extension";
                       "feature"; "notification"; "rpc"]%string);
       Plus blank; Group 2 (Plus word_char); Star not_lf; Chr "{"].
(** [/^[ \t]*(container|list|leaf-list|leaf|choice|case|anyxml|anydata|grouping|uses|typedef|augment)[ \t]+(\w+)[^\n]*{/gm] *)
Definition CONSTRAINT_START_RE : regex :=
  cat [Bol true; Star blank;
       Group 1 (words ["container"; "list"; "leaf-list"; "leaf"; "choice"; "case";
                       "anyxml"; "anydata"; "grouping"; "uses"; "typedef"; "augment"]%string);
       Plus blank; Group 2 (Plus word_char); Star not_lf; Chr "{"].
(** [/[\s\n]must[\s\n]/] and its two siblings *)
Definition keyword_re (w : string) : regex :=
  cat [Cls space_or_lf; Lit w; Cls space_or_lf].

(* ------------------------------------------------------------------ *)
(** ** parseYang *)

Definition obind {A B : Type} (o : option A) (f : A -> option B) : option B :=
  match o with
  | Some a => f a
  | None => None
  end.

Notation "x <- e ;; k" := (obind e (fun x => k))
  (at level 61, e at next level, right associativity).

Fixpoint omap {A B : Type} (f : A -> option B) (l : list A) : option (list B) :=
  match l with
  | [] => Some []
  | a :: l' =>
      b <- f a ;;
      bs <- omap f l' ;;
      Some (b :: bs)
  end.

(** [body.split('\n').slice(0,10).join('\n')] *)
Definition first10 (body : jsstring) : jsstring :=
  join [cu LF] (firstn 10 (split_lf body)).

(** The range of a one-line statement: from the match to its end. *)
Definition line_range (text : jsstring) (m : rmatch_result) : Range :=
  {| start := idxToPos text (Z.of_nat (index m));
     end_ := idxToPos text (Z.of_nat (index m) + len (matched text m)) |}.

(** [open] and [close] of a statement with a body in braces. *)
Definition braces (text : jsstring) (m : rmatch_result) : option (Z * Z) :=
  let open := js_indexOf text "{" (index m) in
  close <- findMatchingBrace text open ;;
  Some (open, close).

Definition block_range (text : jsstring) (m : rmatch_result) (close : Z) : Range :=
  {| start := idxToPos text (Z.of_nat (index m));
     end_ := idxToPos text (close + 1) |}.

Definition parse_moduleHeader (text : jsstring) : option ModuleHeader.t :=
  let mh := exec text MODULE_RE 0 in
  let ns := exec text NS_RE 0 in
  match mh with
  | Some mh =>
      Some {| ModuleHeader.moduleName := group text mh 1;
              ModuleHeader.namespace :=
                match ns with Some ns => group text ns 1 | None => None end;
              ModuleHeader.rawLine := matched text mh;
              ModuleHeader.range := line_range text mh |}
  | None => None
  end.

Definition parse_imports (text : jsstring) : list ImportNode.t :=
  map (fun m => {| ImportNode.name := group1 text m 1;
                   ImportNode.rawLine := matched text m;
                   ImportNode.range := line_range text m |})
      (matchAll text IMPORT_RE).

Definition parse_typedefs (text : jsstring) : option (list TypedefNode.t) :=
  ms <- exec_all text TYPEDEF_START_RE ;;
  omap (fun tm =>
          oc <- braces text tm ;;
          let '(open, close) := oc in
          let body := js_slice text (open + 1) close in
          Some {| TypedefNode.name := group1 text tm 1;
                  TypedefNode.rawLine := matched text tm;
                  TypedefNode.afterLines := first10 body;
                  TypedefNode.range := block_range text tm close |}) ms.

Definition parse_statuses (text : jsstring) : list StatusNode.t :=
  map (fun m => {| StatusNode.value := group1 text m 1;
                   StatusNode.rawLine := matched text m;
                   StatusNode.afterLines :=
                     first10 (js_slice_from text (Z.of_nat (index m) + len (matched text m)));
                   StatusNode.range := line_range text m |})
      (matchAll text STATUS_RE).

(** [s.split(/\s+/)]: a run of white space separates two parts. *)
Fixpoint split_space (in_run : bool) (cur : jsstring) (s : jsstring) : list jsstring :=
  match s with
  | [] => [rev cur]
  | c :: tl =>
      if is_space c then
        if in_run then split_space true cur tl
        else rev cur :: split_space true [] tl
      else split_space false (c :: cur) tl
  end.

Definition parse_lists (text : jsstring) : option (list ListNode.t) :=
  ms <- exec_all text LIST_START_RE ;;
  omap (fun lm =>
          oc <- braces text lm ;;
          let '(open, close) := oc in
          let body := js_slice text (open + 1) close in
          let keys :=
            match exec body KEY_RE 0 with
            | Some km => split_space false [] (js_trim (group1 body km 1))
            | None => []
            end in
          let children := map (fun m => group1 body m 1) (matchAll body LEAF_RE) in
          Some {| ListNode.line := line (idxToPos text (Z.of_nat (index lm)));
                  ListNode.range := block_range text lm close;
                  ListNode.key := keys;
                  ListNode.children := children;
                  ListNode.afterLines := first10 body |}) ms.

(** A JavaScript [Map] keeps its keys in the order of their first
    insertion: it is modelled as an association list. *)
Section JsMap.
Context {V : Type}.

Fixpoint map_get (m : list (jsstring * V)) (k : jsstring) : option V :=
  match m with
  | [] => None
  | (k', v) :: m' => if jsstring_eqb k' k then Some v else map_get m' k
  end.

Fixpoint map_set (m : list (jsstring * V)) (k : jsstring) (v : V) : list (jsstring * V) :=
  match m with
  | [] => [(k, v)]
  | (k', v') :: m' =>
      if jsstring_eqb k' k then (k', v) :: m' else (k', v') :: map_set m' k v
  end.

Definition map_values (m : list (jsstring * V)) : list V := map snd m.
End JsMap.

(** The body of the deviation loop: [arr] is the array already in the map,
    or a new one; the node is pushed on it and the array is set again. *)
Definition add_deviation (deviationMap : list (jsstring * list DeviationNode.t))
  (node : DeviationNode.t) : list (jsstring * list DeviationNode.t) :=
  let arr := match map_get deviationMap (DeviationNode.target node) with
             | Some arr => arr
             | None => []
             end in
  map_set deviationMap (DeviationNode.target node) (arr ++ [node]).

Definition set_duplicate (n : DeviationNode.t) : DeviationNode.t :=
  {| DeviationNode.target := DeviationNode.target n;
     DeviationNode.range := DeviationNode.range n;
     DeviationNode.duplicate := true |}.

(** [if (arr.length > 1) arr.slice(1).forEach(n => n.duplicate = true)]:
    the nodes are objects shared with [arr], so the assignment shows in
    the array of the map. *)
Definition mark_duplicates (arr : list DeviationNode.t) : list DeviationNode.t :=
  if (1 <? List.length arr)%nat
  then firstn 1 arr ++ map set_duplicate (skipn 1 arr)
  else arr.

(** The nodes of the deviation loop, in the order of the matches. *)
Definition deviation_nodes (text : jsstring) : option (list DeviationNode.t) :=
  ms <- exec_all text DEVIATION_START_RE ;;
  omap (fun dm =>
          oc <- braces text dm ;;
          let '(_, close) := oc in
          Some {| DeviationNode.target := group1 text dm 1;
                  DeviationNode.range := block_range text dm close;
                  DeviationNode.duplicate := false |}) ms.

Definition group_deviations (nodes : list DeviationNode.t) : list DeviationNode.t :=
  let deviationMap := fold_left add_deviation nodes [] in
  List.concat (map mark_duplicates (map_values deviationMap)).

Definition parse_deviations (text : jsstring) : option (list DeviationNode.t) :=
  nodes <- deviation_nodes text ;;
  Some (group_deviations nodes).

Definition parse_blocks (text : jsstring) : option (list BlockNode.t) :=
  ms <- exec_all text DESC_BLOCK_RE ;;
  omap (fun bm =>
          oc <- braces text bm ;;
          let '(open, close) := oc in
          let body := js_slice text (open + 1) close in
          Some {| BlockNode.keyword := group1 text bm 1;
                  BlockNode.name := group1 text bm 2;
                  BlockNode.rawLine := matched text bm;
                  BlockNode.afterLines := first10 body;
                  BlockNode.range := block_range text bm close |}) ms.

Definition parse_constraintNodes (text : jsstring) : option (list ConstraintNode.t) :=
  ms <- exec_all text CONSTRAINT_START_RE ;;
  omap (fun cm =>
          oc <- braces text cm ;;
          let '(open, close) := oc in
          let body := js_slice text (open + 1) close in
          Some {| ConstraintNode.keyword := group1 text cm 1;
                  ConstraintNode.name := group1 text cm 2;
                  ConstraintNode.range := block_range text cm close;
                  ConstraintNode.hasMust := test body (keyword_re "must");
                  ConstraintNode.hasWhen := test body (keyword_re "when");
                  ConstraintNode.hasDesc := test body (keyword_re "description") |}) ms.

(** [xs.length ? xs : undefined] *)
Definition nonempty {A : Type} (xs : list A) : option (list A) :=
  match xs with
  | [] => None
  | _ => Some xs
  end.

(** [parseYang].  [None] only when a loop of the model ran out of its
    fuel, which [parseYang_total] excludes. *)
Definition parseYang (text : jsstring) : option Ast :=
  let moduleHeader := parse_moduleHeader text in
  let imports := parse_imports text in
  typedefs <- parse_typedefs text ;;
  let statuses := parse_statuses text in
  lists <- parse_lists text ;;
  deviations <- parse_deviations text ;;
  blocks <- parse_blocks text ;;
  constraintNodes <- parse_constraintNodes text ;;
  Some {| moduleHeader := moduleHeader;
          imports := nonempty imports;
          typedefs := nonempty typedefs;
          statuses := nonempty statuses;
          lists := nonempty lists;
          blocks := nonempty blocks;
          deviations := nonempty deviations;
          constraintNodes := nonempty constraintNodes |}.

(* ================================================================== *)
(** * ruleEngine.ts *)
(* ================================================================== *)

(** The result of a call that may throw; an exception is kept as the text
    it converts to. *)
Inductive result (A : Type) :=
| Ok (a : A)
| Throw (e : jsstring).
Arguments Ok {A} a.
Arguments Throw {A} e.

Definition rbind {A B : Type} (r : result A) (f : A -> result B) : result B :=
  match r with
  | Ok a => f a
  | Throw e => Throw e
  end.

Notation "x <~ e ;; k" := (rbind e (fun x => k))
  (at level 61, e at next level, right associativity).

(** [xs.map(f)] where [f] may throw: the first exception ends the call. *)
Fixpoint rmap {A B : Type} (f : A -> result B) (l : list A) : result (list B) :=
  match l with
  | [] => Ok []
  | a :: l' =>
      b <~ f a ;;
      bs <~ rmap f l' ;;
      Ok (b :: bs)
  end.

(** ** The predicate library *)

(** [keyOrderInvalid]: [lst.key.some((k,i) => lst.children[i] !== k)].
    [children[i]] is [undefined] past the end of [children], and
    [undefined] differs from every string. *)
Fixpoint some_indexed {A : Type} (f : A -> nat -> bool) (i : nat) (l : list A) : bool :=
  match l with
  | [] => false
  | a :: l' => f a i || some_indexed f (S i) l'
  end.

Definition strict_neq (o : option jsstring) (k : jsstring) : bool :=
  match o with
  | Some c => negb (jsstring_eqb c k)
  | None => true
  end.

Definition keyOrderInvalid (lst : ListNode.t) : bool :=
  some_indexed (fun k i => strict_neq (nth_error (ListNode.children lst) i) k) 0
               (ListNode.key lst).

(** ** Rules *)

Record RuleYaml := {
  id : jsstring;
  description : jsstring;
  severity : jsstring;
  scope : jsstring;
  when_ : jsstring
}.

(** The binding added to the context for the node under evaluation, under
    the key [import], [typedef], [status], [list], [node], [deviation] or
    [block]; the module-header scope adds none. *)
Inductive Binding :=
| no_binding
| import_ (n : ImportNode.t)
| typedef_ (n : TypedefNode.t)
| status_ (n : StatusNode.t)
| list_ (n : ListNode.t)
| node_ (n : ConstraintNode.t)
| deviation_ (n : DeviationNode.t)
| block_ (n : BlockNode.t).

(** The context given to [evalSync]: [{...ctx, key: n}] with [ctx = {...ast}]. *)
Record Env := { ctx : Ast; binding : Binding }.

(** A compiled expression is opaque: [evalSync] either throws or returns a
    value, of which [validate] only looks at the truthiness. *)
Definition Expression := Env -> result bool.

Record Compiled := { rule : RuleYaml; expr : Expression }.

Inductive DiagnosticSeverity := Error | Warning | Information | Hint.

Record Payload := { groupId : jsstring }.

Record Diagnostic := {
  range : Range;
  message : jsstring;
  diag_severity : DiagnosticSeverity;
  source : jsstring;
  data : option Payload
}.

Definition GENERIC_SCOPES : list jsstring :=
  map lit ["anyxml"; "augment"; "choice"; "container"; "extension"; "feature";
           "notification"; "rpc"]%string.

(** [deviationMap], the module-level map from a target to its ranges. *)
Definition DeviationIndex := list (jsstring * list Range).

(** The helper [push] of [validate]. *)
Definition push (rule : RuleYaml) (range : Range) (extra : option Payload)
  (out : list Diagnostic) : list Diagnostic :=
  out ++ [{| range := range;
             message := description rule;
             diag_severity :=
               if jsstring_eqb (severity rule) (lit "error") then Error
               else if jsstring_eqb (severity rule) (lit "warning") then Warning
               else Information;
             source := lit "yang-lint:" ++ id rule;
             data := extra |}].

(** The loop that fills [deviationMap] from [ast.deviations]. *)
Definition index_deviation (m : DeviationIndex) (d : DeviationNode.t) : DeviationIndex :=
  let arr := match map_get m (DeviationNode.target d) with
             | Some arr => arr
             | None => []
             end in
  map_set m (DeviationNode.target d) (arr ++ [DeviationNode.range d]).

(** [xs?.forEach(f)], where [f] may throw and appends to [out]. *)
Fixpoint forEach {A : Type} (f : A -> list Diagnostic -> result (list Diagnostic))
  (xs : list A) (out : list Diagnostic) : result (list Diagnostic) :=
  match xs with
  | [] => Ok out
  | x :: xs' =>
      out' <~ f x out ;;
      forEach f xs' out'
  end.

Definition optional {A : Type} (xs : option (list A)) : list A :=
  match xs with
  | Some l => l
  | None => []
  end.

(** [expr.evalSync(env) && push(rule, range, extra)] *)
Definition eval_push (c : Compiled) (env : Env) (range : Range) (extra : option Payload)
  (out : list Diagnostic) : result (list Diagnostic) :=
  v <~ expr c env ;;
  Ok (if v then push (rule c) range extra out else out).

Definition is_scope (c : Compiled) (s : string) : bool :=
  jsstring_eqb (scope (rule c)) (lit s).

(** The [switch] on [rule.scope] for one compiled rule. *)
Definition run_rule (ast : Ast) (c : Compiled) (out : list Diagnostic)
  : result (list Diagnostic) :=
  let env b := {| ctx := ast; binding := b |} in
  if is_scope c "module-header" then
    match moduleHeader ast with
    | Some mh => eval_push c (env no_binding) (ModuleHeader.range mh) None out
    | None => Ok out
    end
  else if is_scope c "import" then
    forEach (fun n => eval_push c (env (import_ n)) (ImportNode.range n) None)
            (optional (imports ast)) out
  else if is_scope c "typedef" then
    forEach (fun n => eval_push c (env (typedef_ n)) (TypedefNode.range n) None)
            (optional (typedefs ast)) out
  else if is_scope c "status" then
    forEach (fun n => eval_push c (env (status_ n)) (StatusNode.range n) None)
            (optional (statuses ast)) out
  else if is_scope c "list" then
    forEach (fun n => eval_push c (env (list_ n)) (ListNode.range n) None)
            (optional (lists ast)) out
  else if is_scope c "constraint-node" then
    forEach (fun n => eval_push c (env (node_ n)) (ConstraintNode.range n) None)
            (optional (constraintNodes ast)) out
  else if is_scope c "deviation" then
    forEach (fun n => eval_push c (env (deviation_ n)) (DeviationNode.range n)
                        (Some {| groupId := DeviationNode.target n |}))
            (optional (deviations ast)) out
  else if existsb (jsstring_eqb (scope (rule c))) GENERIC_SCOPES then
    forEach (fun b => eval_push c (env (block_ b)) (BlockNode.range b) None)
            (filter (fun b => jsstring_eqb (BlockNode.keyword b) (scope (rule c)))
                    (optional (blocks ast))) out
  else Ok out.

(** The loop over [this.compiled]. *)
Fixpoint run_rules (ast : Ast) (cs : list Compiled) (out : list Diagnostic)
  : result (list Diagnostic) :=
  match cs with
  | [] => Ok out
  | c :: cs' =>
      out' <~ run_rule ast c out ;;
      run_rules ast cs' out'
  end.

(** [validate]: the new content of [deviationMap], and the diagnostics
    returned or the exception thrown.  [uri] is not used by the method. *)
Definition validate (compiled : list Compiled) (ast : Ast)
  : DeviationIndex * result (list Diagnostic) :=
  let deviationMap := fold_left index_deviation (optional (deviations ast)) [] in
  (deviationMap, run_rules ast compiled []).

(** ** reload *)

Inductive Message :=
| ErrorMessage (text : jsstring)
| InformationMessage (text : jsstring).

(** The state of a [RuleEngine]: its fields, and the messages shown so far
    on the connection's window, the latest last. *)
Record Engine := {
  workspace : jsstring;
  compiled : list Compiled;
  shown : list Message
}.

Definition set_compiled (e : Engine) (cs : list Compiled) (m : Message) : Engine :=
  {| workspace := workspace e; compiled := cs; shown := shown e ++ [m] |}.

(** What the schema validator says of a rule document: [validate(ruleDoc)]
    with the messages of [validate.errors]. *)
Inductive Verdict :=
| Valid
| Invalid (messages : list jsstring).

Section Reload.

(** The parsed JSON schema and the loaded YAML document. *)
Variables Json Yaml : Type.

(** The file system and the libraries [reload] calls. *)
Record World := {
  path_join : list jsstring -> jsstring;
  readFileSync : jsstring -> result jsstring;
  JSON_parse : jsstring -> result Json;
  ajv_compile : Json -> result (Yaml -> Verdict);
  yaml_load : jsstring -> result Yaml;
  (** [ruleDoc.rules], [None] when it is not an array *)
  rules_of : Yaml -> option (list RuleYaml);
  jexl_compile : jsstring -> result Expression
}.

Definition decimal (n : nat) : jsstring :=
  lit (NilEmpty.string_of_uint (Nat.to_uint n)).

(** The body of the [try] block: the engine it leaves, or the exception. *)
Definition reload_try (w : World) (e : Engine) : result Engine :=
  let ruleFile := path_join w [workspace e; lit "ruleSets"; lit "create.yaml"] in
  let schemaFile := path_join w [workspace e; lit "ruleSets"; lit "rule-Schema.json"] in
  schemaText <~ readFileSync w schemaFile ;;
  schema <~ JSON_parse w schemaText ;;
  validate <~ ajv_compile w schema ;;
  ruleText <~ readFileSync w ruleFile ;;
  ruleDoc <~ yaml_load w ruleText ;;
  match validate ruleDoc with
  | Invalid messages =>
      let msg := lit "Rule schema error: " ++ join (lit "; ") messages in
      Ok (set_compiled e [] (ErrorMessage msg))
  | Valid =>
      rules <~ match rules_of w ruleDoc with
               | Some rules => Ok rules
               | None => Throw (lit "TypeError")
               end ;;
      cs <~ rmap (fun r => x <~ jexl_compile w (when_ r) ;;
                           Ok {| rule := r; expr := x |}) rules ;;
      Ok (set_compiled e cs
            (InformationMessage
               (lit "Loaded " ++ decimal (List.length rules) ++ lit " rules from create.yaml")))
  end.

Definition reload (w : World) (e : Engine) : Engine :=
  match reload_try w e with
  | Ok e' => e'
  | Throw err => set_compiled e [] (ErrorMessage (lit "Rule reload error: " ++ err))
  end.

Definition schemaFile_of (w : World) (e : Engine) : jsstring :=
  path_join w [workspace e; lit "ruleSets"; lit "rule-Schema.json"].
Definition ruleFile_of (w : World) (e : Engine) : jsstring :=
  path_join w [workspace e; lit "ruleSets"; lit "create.yaml"].
Definition compile_rule (w : World) (r : RuleYaml) : result Compiled :=
  x <~ jexl_compile w (when_ r) ;; Ok {| rule := r; expr := x |}.

(** The ways a load attempt fails: a file cannot be read, a file cannot
    be parsed, the schema cannot be compiled, the rule document violates
    the schema or has no rule array, an expression cannot be compiled. *)
Inductive LoadFailure (w : World) (e : Engine) : Prop :=
| schema_read_error err :
    readFileSync w (schemaFile_of w e) = Throw err -> LoadFailure w e
| schema_parse_error schemaText err :
    readFileSync w (schemaFile_of w e) = Ok schemaText ->
    JSON_parse w schemaText = Throw err -> LoadFailure w e
| schema_compile_error schemaText schema err :
    readFileSync w (schemaFile_of w e) = Ok schemaText ->
    JSON_parse w schemaText = Ok schema ->
    ajv_compile w schema = Throw err -> LoadFailure w e
| rules_read_error schemaText schema validate err :
    readFileSync w (schemaFile_of w e) = Ok schemaText ->
    JSON_parse w schemaText = Ok schema ->
    ajv_compile w schema = Ok validate ->
    readFileSync w (ruleFile_of w e) = Throw err -> LoadFailure w e
| rules_parse_error schemaText schema validate ruleText err :
    readFileSync w (schemaFile_of w e) = Ok schemaText ->
    JSON_parse w schemaText = Ok schema ->
    ajv_compile w schema = Ok validate ->
    readFileSync w (ruleFile_of w e) = Ok ruleText ->
    yaml_load w ruleText = Throw err -> LoadFailure w e
| schema_violation schemaText schema validate ruleText ruleDoc messages :
    readFileSync w (schemaFile_of w e) = Ok schemaText ->
    JSON_parse w schemaText = Ok schema ->
    ajv_compile w schema = Ok validate ->
    readFileSync w (ruleFile_of w e) = Ok ruleText ->
    yaml_load w ruleText = Ok ruleDoc ->
    validate ruleDoc = Invalid messages -> LoadFailure w e
| rules_missing schemaText schema validate ruleText ruleDoc :
    readFileSync w (schemaFile_of w e) = Ok schemaText ->
    JSON_parse w schemaText = Ok schema ->
    ajv_compile w schema = Ok validate ->
    readFileSync w (ruleFile_of w e) = Ok ruleText ->
    yaml_load w ruleText = Ok ruleDoc ->
    validate ruleDoc = Valid ->
    rules_of w ruleDoc = None -> LoadFailure w e
| expression_error schemaText schema validate ruleText ruleDoc rules err :
    readFileSync w (schemaFile_of w e) = Ok schemaText ->
    JSON_parse w schemaText = Ok schema ->
    ajv_compile w schema = Ok validate ->
    readFileSync w (ruleFile_of w e) = Ok ruleText ->
    yaml_load w ruleText = Ok ruleDoc ->
    validate ruleDoc = Valid ->
    rules_of w ruleDoc = Some rules ->
    rmap (compile_rule w) rules = Throw err -> LoadFailure w e.

(** The load attempt succeeds when every step of the [try] block returns
    and the document obeys the schema. *)
Definition load_succeeds (w : World) (e : Engine) (cs : list Compiled) : Prop :=
  exists schemaText schema validate ruleText ruleDoc rules,
    readFileSync w (schemaFile_of w e) = Ok schemaText /\
    JSON_parse w schemaText = Ok schema /\
    ajv_compile w schema = Ok validate /\
    readFileSync w (ruleFile_of w e) = Ok ruleText /\
    yaml_load w ruleText = Ok ruleDoc /\
    validate ruleDoc = Valid /\
    rules_of w ruleDoc = Some rules /\
    rmap (compile_rule w) rules = Ok cs.

End Reload.

Arguments reload {Json Yaml} w e.
Arguments reload_try {Json Yaml} w e.
Arguments LoadFailure {Json Yaml} w e.
Arguments load_succeeds {Json Yaml} w e cs.

(* ================================================================== *)
(** * providers/quickfix.ts *)
(* ================================================================== *)

Record TextEdit := { edit_range : Range; newText : jsstring }.

Record CodeAction := {
  title : jsstring;
  kind : jsstring;
  diagnostics : list Diagnostic;
  (** [edit.changes]: the edits of each document *)
  changes : list (jsstring * list TextEdit)
}.

(** The loop of [offsetAt]: [lines[i].length] throws when [lines[i]] is
    [undefined]. *)
Fixpoint offsetAt_loop (lines : list jsstring) (count : nat) (i : nat) (off : Z)
  : result Z :=
  match count with
  | O => Ok off
  | S count' =>
      match nth_error lines i with
      | Some l => offsetAt_loop lines count' (S i) (off + (len l + 1))%Z
      | None => Throw (lit "TypeError")
      end
  end.

Definition offsetAt (text : jsstring) (pos : Position) : result Z :=
  off <~ offsetAt_loop (split_lf text) (Z.to_nat (line pos)) 0 0%Z ;;
  Ok (off + character pos)%Z.

Definition textSlice (text : jsstring) (r : Range) : result jsstring :=
  a <~ offsetAt text (start r) ;;
  b <~ offsetAt text (end_ r) ;;
  Ok (js_slice text a b).

(** The comparator given to [sort]. *)
Definition compare_ranges (a b : Range) : Z :=
  let dl := (line (start a) - line (start b))%Z in
  if (dl =? 0)%Z then (character (start a) - character (start b))%Z else dl.

(** [[...ranges].sort(cmp)]: the sort of an array is stable, and with a
    comparator that is a total preorder its result is the stable sorted
    arrangement, computed here by insertion. *)
Fixpoint sort_insert (cmp : Range -> Range -> Z) (x : Range) (l : list Range) : list Range :=
  match l with
  | [] => [x]
  | y :: l' => if (cmp x y <=? 0)%Z then x :: l else y :: sort_insert cmp x l'
  end.

Definition js_sort (cmp : Range -> Range -> Z) (l : list Range) : list Range :=
  fold_right (sort_insert cmp) [] l.

(** [/^[ \t]*/] *)
Definition INDENT_RE : regex := cat [Bol false; Star blank].

(** [l.match(/^[ \t]*/)?.[0]], [None] for [undefined] *)
Definition indent_of (l : jsstring) : option jsstring :=
  option_map (matched l) (exec l INDENT_RE 0).

(** [/^\n+|\s+$/g] *)
Definition TRIM_RE : regex :=
  Alt (cat [Bol false; Plus (fun c => N.eqb c (cu LF))])
      (cat [Plus is_space; Eol false]).

(** [Math.min(...xs)]: [None] stands for [Infinity], the minimum of no
    number. *)
Fixpoint math_min (xs : list nat) : option nat :=
  match xs with
  | [] => None
  | x :: xs' =>
      match math_min xs' with
      | Some m => Some (Nat.min x m)
      | None => Some x
      end
  end.

(** [l.slice(minIndent)] *)
Definition slice_indent (l : jsstring) (minIndent : option nat) : jsstring :=
  match minIndent with
  | Some n => js_slice_from l (Z.of_nat n)
  | None => []
  end.

(** The body of one occurrence, indented anew. *)
Definition body_of (text : jsstring) (innerIndent : jsstring) (r : Range)
  : result jsstring :=
  raw <~ textSlice text r ;;
  let open := js_indexOf raw "{" 0 in
  let close := js_lastIndexOf raw "}" in
  let body := js_slice raw (open + 1) close in
  let lines := split_lf (replace_all_empty body TRIM_RE) in
  let minIndent :=
    math_min (map (fun l => match indent_of l with
                            | Some ind => List.length ind
                            | None => O
                            end)
                  (filter (fun l => negb (jsstring_eqb (js_trim l) [])) lines)) in
  Ok (join [cu LF] (map (fun l => innerIndent ++ slice_indent l minIndent) lines)).

(** The text that replaces the first occurrence. *)
Definition merged_text (baseIndent target : jsstring) (bodies : list jsstring) : jsstring :=
  baseIndent ++ lit "deviation " ++ target ++ lit " {" ++ [cu LF]
  ++ join [cu LF; cu LF] bodies
  ++ [cu LF] ++ baseIndent ++ lit "}".

(** [buildDeviationFix]: [Ok None] stands for [null]. *)
Definition buildDeviationFix (deviationMap : DeviationIndex) (diag : Diagnostic)
  (uri : jsstring) (text : jsstring) : result (option CodeAction) :=
  match data diag with
  | None => Throw (lit "TypeError")
  | Some payload =>
      let target := groupId payload in
      match map_get deviationMap target with
      | None => Ok None
      | Some ranges =>
          if (List.length ranges <? 2)%nat then Ok None
          else
            let sorted := js_sort compare_ranges ranges in
            match sorted with
            | [] => Throw (lit "TypeError")
            | first :: others =>
                lineStartOff <~ offsetAt text {| line := line (start first); character := 0 |} ;;
                let lineEndOff :=
                  if (js_indexOf text LF (Z.to_nat lineStartOff) =? -1)%Z
                  then len text
                  else js_indexOf text LF (Z.to_nat lineStartOff) in
                let firstLine := js_slice text lineStartOff lineEndOff in
                let baseIndent := match indent_of firstLine with
                                  | Some ind => ind
                                  | None => []
                                  end in
                let innerIndent := baseIndent ++ lit "  " in
                bodies <~ rmap (body_of text innerIndent) sorted ;;
                let merged := merged_text baseIndent target bodies in
                let edits :=
                  {| edit_range := first; newText := merged |}
                  :: map (fun r => {| edit_range := r; newText := [] |}) others in
                Ok (Some {| title := lit "Merge duplicate deviations";
                            kind := lit "quickfix";
                            diagnostics := [diag];
                            changes := [(uri, edits)] |})
            end
      end
  end.

(* ================================================================== *)
(** * The order of the diagnostics, as the specification words it *)
(* ================================================================== *)

Module OrderSpec.

(** A candidate of a rule: the context its predicate is evaluated in, the
    range of the node, and the payload a diagnostic on it carries. *)
Definition Candidate : Type := Env * Range * option Payload.

(** The node collection of a rule's scope: the module header is a
    collection of at most one node, the eight generic keywords select the
    blocks with that keyword, every other scope is a field of the Ast, and
    an unknown scope has no node. *)
Definition scope_nodes (ast : Ast) (c : Compiled) : list Candidate :=
  let env b := {| ctx := ast; binding := b |} in
  let s := scope (rule c) in
  if jsstring_eqb s (lit "module-header") then
    match moduleHeader ast with
    | Some mh => [(env no_binding, ModuleHeader.range mh, None)]
    | None => []
    end
  else if jsstring_eqb s (lit "import") then
    map (fun n => (env (import_ n), ImportNode.range n, None)) (optional (imports ast))
  else if jsstring_eqb s (lit "typedef") then
    map (fun n => (env (typedef_ n), TypedefNode.range n, None)) (optional (typedefs ast))
  else if jsstring_eqb s (lit "status") then
    map (fun n => (env (status_ n), StatusNode.range n, None)) (optional (statuses ast))
  else if jsstring_eqb s (lit "list") then
    map (fun n => (env (list_ n), ListNode.range n, None)) (optional (lists ast))
  else if jsstring_eqb s (lit "constraint-node") then
    map (fun n => (env (node_ n), ConstraintNode.range n, None))
        (optional (constraintNodes ast))
  else if jsstring_eqb s (lit "deviation") then
    map (fun n => (env (deviation_ n), DeviationNode.range n,
                   Some {| groupId := DeviationNode.target n |}))
        (optional (deviations ast))
  else if existsb (jsstring_eqb s) GENERIC_SCOPES then
    map (fun b => (env (block_ b), BlockNode.range b, None))
        (filter (fun b => jsstring_eqb (BlockNode.keyword b) s) (optional (blocks ast)))
  else [].

(** The diagnostic of a rule on a candidate. *)
Definition diagnostic_of (c : Compiled) (cand : Candidate) : Diagnostic :=
  let '(_, range, extra) := cand in
  {| range := range;
     message := description (rule c);
     diag_severity :=
       if jsstring_eqb (severity (rule c)) (lit "error") then Error
       else if jsstring_eqb (severity (rule c)) (lit "warning") then Warning
       else Information;
     source := lit "yang-lint:" ++ id (rule c);
     data := extra |}.

(** The predicate of the rule is truthy on the candidate. *)
Definition truthy (c : Compiled) (cand : Candidate) : bool :=
  match expr c (fst (fst cand)) with
  | Ok true => true
  | _ => false
  end.

(** The predicate of the rule throws on the candidate. *)
Definition throws (c : Compiled) (cand : Candidate) : bool :=
  match expr c (fst (fst cand)) with
  | Throw _ => true
  | Ok _ => false
  end.

(** The diagnostics of one rule, in the order of its node collection. *)
Definition rule_diagnostics (ast : Ast) (c : Compiled) : list Diagnostic :=
  map (diagnostic_of c) (filter (truthy c) (scope_nodes ast c)).

(** Rule order first, node order second. *)
Definition expected_diagnostics (ast : Ast) (compiled : list Compiled) : list Diagnostic :=
  flat_map (rule_diagnostics ast) compiled.

End OrderSpec.

(* ================================================================== *)
(** * Definitions used by the statements and the proofs *)
(* ================================================================== *)

(** A lower bound of the number of characters a pattern consumes. *)
Fixpoint minlen (r : regex) : nat :=
  match r with
  | Eps => 0
  | Chr _ => 1
  | Cls _ => 1
  | Star _ => 0
  | Seq a b => minlen a + minlen b
  | Alt a b => Nat.min (minlen a) (minlen b)
  | Group _ a => minlen a
  | Bol _ => 0
  | Eol _ => 0
  end.

(** Lexicographic order of positions: document order. *)
Definition pos_lt (p q : Position) : Prop :=
  (line p < line q \/ (line p = line q /\ character p < character q))%Z.

(** The line and the column reached after reading [t] from column [c0]
    of line 0. *)
Fixpoint scan_pos (t : jsstring) (c0 : nat) : nat * nat :=
  match t with
  | [] => (O, c0)
  | x :: tl =>
      if N.eqb x (cu LF)
      then let '(l, c) := scan_pos tl 0 in (S l, c)
      else scan_pos tl (S c0)
  end.

Definition has_target (t : jsstring) (n : DeviationNode.t) : bool :=
  jsstring_eqb (DeviationNode.target n) t.

(** The targets of the nodes that are not in [seen], each once, in the
    order of their first occurrence. *)
Fixpoint first_targets (seen : list jsstring) (nodes : list DeviationNode.t)
  : list jsstring :=
  match nodes with
  | [] => []
  | n :: nodes' =>
      if existsb (jsstring_eqb (DeviationNode.target n)) seen
      then first_targets seen nodes'
      else DeviationNode.target n
           :: first_targets (seen ++ [DeviationNode.target n]) nodes'
  end.

(** The start of a deviation node. *)
Definition dev_start (n : DeviationNode.t) : Position := start (DeviationNode.range n).

Section BraceMatcherTerms.

(** The character before position [len pre]. *)
Definition prev (pre : jsstring) : option N := js_index pre (len pre - 1).

(** The state of the loop that stands for a mode of the specification. *)
Definition st_of (m : BraceSpec.mode) : S.t :=
  match m with
  | BraceSpec.Code => S.CODE
  | BraceSpec.LineComment => S.LINE_COMMENT
  | BraceSpec.BlockComment => S.BLOCK_COMMENT
  | BraceSpec.DqString => S.DQ_STRING
  | BraceSpec.SqString => S.SQ_STRING
  end.

(** Inside a string, a quote about to be read by [OnSuffix.scan] is never
    preceded by a backslash: the scan reads such a pair in one step. *)
Definition str_ok (st : S.t) (pre rest : jsstring) : Prop :=
  match st, rest with
  | S.DQ_STRING, c :: _ => eqc c DQUOTE = true -> is_ch (prev pre) BACKSLASH = false
  | S.SQ_STRING, c :: _ => eqc c "'" = true -> is_ch (prev pre) BACKSLASH = false
  | _, _ => True
  end.

(** What the loop returns, from what [OnSuffix.scan] finds. *)
Definition outcome (pre rest : jsstring) (r : option nat) : Z :=
  match r with
  | Some k => (len pre + Z.of_nat k)%Z
  | None => (len (pre ++ rest) - 1)%Z
  end.

(** No backslash of the text is followed by a backslash. *)
Fixpoint no_backslash_pair (text : jsstring) : bool :=
  match text with
  | [] => true
  | c :: tl =>
      match tl with
      | c2 :: _ => negb (eqc c BACKSLASH && eqc c2 BACKSLASH)
      | [] => true
      end && no_backslash_pair tl
  end.

(** The text [{ a "}" b }]. *)
Definition quoted_brace_text : jsstring :=
  lit "{ a " ++ [cu DQUOTE] ++ lit "}" ++ [cu DQUOTE] ++ lit " b }".

(** A string that holds one escaped backslash: Q, backslash, backslash, Q,
    where Q is the double quote. *)
Definition escaped_backslash_string : jsstring :=
  [cu DQUOTE; cu BACKSLASH; cu BACKSLASH; cu DQUOTE].

(** The string of [escaped_backslash_string], then a string that holds a
    closing brace, inside a pair of braces: twelve characters, the closing
    brace of the pair at index 11 and the quoted one at index 8. *)
Definition escaped_backslash_text : jsstring :=
  lit "{ " ++ escaped_backslash_string ++ lit " "
  ++ [cu DQUOTE] ++ lit "}" ++ [cu DQUOTE] ++ lit " }".

(** The same text without its last two characters: ten characters, the
    opening brace is never closed, the only closing brace is the quoted one
    at index 8. *)
Definition unclosed_escaped_backslash_text : jsstring :=
  lit "{ " ++ escaped_backslash_string ++ lit " "
  ++ [cu DQUOTE] ++ lit "}" ++ [cu DQUOTE].

End BraceMatcherTerms.

Section RuleEngineTerms.

Import OrderSpec.

(** The candidates of a rule evaluated in order, each truthy one pushing
    its diagnostic. *)
Fixpoint eval_candidates (c : Compiled) (cands : list Candidate) (out : list Diagnostic)
  : result (list Diagnostic) :=
  match cands with
  | [] => Ok out
  | (env, range, extra) :: cands' =>
      out' <~ eval_push c env range extra out ;;
      eval_candidates c cands' out'
  end.

(** An import node and a rule for the examples. *)
Definition import_at (name : string) (l : Z) : ImportNode.t :=
  {| ImportNode.name := lit name;
     ImportNode.rawLine := lit "import " ++ lit name ++ lit ";";
     ImportNode.range := {| start := {| line := l; character := 0 |};
                            end_ := {| line := l; character := 9 |} |} |}.

Definition ast_of_imports (ns : list ImportNode.t) : Ast :=
  {| moduleHeader := None; imports := nonempty ns; typedefs := None; statuses := None;
     lists := None; blocks := None; deviations := None; constraintNodes := None |}.

Definition import_rule (name : string) (x : Expression) : Compiled :=
  {| rule := {| id := lit name; description := lit name; severity := lit "warning";
                scope := lit "import"; when_ := lit "true" |};
     expr := x |}.

(** The diagnostic of rule [c] on the import [n]. *)
Definition import_diagnostic (ast : Ast) (c : Compiled) (n : ImportNode.t) : Diagnostic :=
  diagnostic_of c ({| ctx := ast; binding := import_ n |}, ImportNode.range n, None).

(** The rule and the Ast of the counterexample to C1: the predicate throws
    on the import a and is truthy on the import b. *)
Definition throwing_rule : Compiled :=
  import_rule "r"
    (fun env => match binding env with
                | import_ n => if jsstring_eqb (ImportNode.name n) (lit "a")
                               then Throw (lit "TypeError") else Ok true
                | _ => Ok false
                end).

Definition two_imports : Ast := ast_of_imports [import_at "a" 1; import_at "b" 2].

End RuleEngineTerms.

(** A world in which the rule file cannot be read, and an engine that
    still holds a rule of an earlier load. *)
Definition unreadable_world : World unit unit :=
  {| path_join := join (lit "/");
     readFileSync := fun p =>
       if jsstring_eqb p (lit "/ws/ruleSets/rule-Schema.json") then Ok (lit "{}")
       else Throw (lit "ENOENT");
     JSON_parse := fun _ => Ok tt;
     ajv_compile := fun _ => Ok (fun _ => Valid);
     yaml_load := fun _ => Ok tt;
     rules_of := fun _ => Some [];
     jexl_compile := fun _ => Ok (fun _ => Ok true) |}.

Definition stale_engine : Engine :=
  {| workspace := lit "/ws";
     compiled := [{| rule := {| id := lit "old"; description := lit "old";
                                severity := lit "error"; scope := lit "import";
                                when_ := lit "true" |};
                     expr := fun _ => Ok true |}];
     shown := [] |}.

(** The text [module foo { namespace "urn:x"; }], on one line. *)
Definition one_line_module : jsstring :=
  lit "module foo { namespace " ++ [cu DQUOTE] ++ lit "urn:x" ++ [cu DQUOTE] ++ lit "; }".

(** The same statements with the namespace statement on a line of its own. *)
Definition three_line_module : jsstring :=
  lit "module foo {" ++ [cu LF]
  ++ lit "  namespace " ++ [cu DQUOTE] ++ lit "urn:x" ++ [cu DQUOTE] ++ lit ";" ++ [cu LF]
  ++ lit "}".

(** The names of the header of the Ast of a text. *)
Definition header_names (text : jsstring)
  : option (option (option jsstring * option jsstring)) :=
  option_map (fun ast =>
                option_map (fun h => (ModuleHeader.moduleName h, ModuleHeader.namespace h))
                           (moduleHeader ast))
             (parseYang text).

(** Three deviation blocks of the same target. *)
Definition three_same_target : jsstring :=
  lit "deviation /a:x { deviate add { max-elements 10; } }" ++ [cu LF]
  ++ lit "deviation /a:x { deviate not-supported; }" ++ [cu LF]
  ++ lit "deviation /a:x { deviate add { min-elements 1; } }".

(** Two imports and three deviation blocks whose targets interleave. *)
Definition interleaved_targets : jsstring :=
  lit "import a;" ++ [cu LF]
  ++ lit "deviation /a { deviate not-supported; }" ++ [cu LF]
  ++ lit "import b;" ++ [cu LF]
  ++ lit "deviation /b { deviate not-supported; }" ++ [cu LF]
  ++ lit "deviation /a { deviate not-supported; }".

(** What a text gives for each deviation of its Ast, in the order of the
    collection. *)
Definition of_deviations {A : Type} (f : DeviationNode.t -> A) (text : jsstring)
  : option (list A) :=
  option_map (fun ast => map f (optional (deviations ast))) (parseYang text).

Definition of_imports {A : Type} (f : ImportNode.t -> A) (text : jsstring)
  : option (list A) :=
  option_map (fun ast => map f (optional (imports ast))) (parseYang text).

Section QuickFixTerms.

(** [a] is not after [b] in document order. *)
Definition doc_le (a b : Range) : Prop := (compare_ranges a b <= 0)%Z.

(** The lines of the positions of [r] are lines of the text, or the line
    after its last line: the loop of [offsetAt] reads no missing line. *)
Definition within_text (text : jsstring) (r : Range) : Prop :=
  (line (start r) <= Z.of_nat (List.length (split_lf text)))%Z
  /\ (line (end_ r) <= Z.of_nat (List.length (split_lf text)))%Z.


(** The rule that reports a duplicate deviation target. *)
Definition duplicate_rule : Compiled :=
  {| rule := {| id := lit "deviation-unique-target";
                description := lit "duplicate deviation target";
                severity := lit "warning"; scope := lit "deviation";
                when_ := lit "deviation.duplicate" |};
     expr := fun env => match binding env with
                        | deviation_ n => Ok (DeviationNode.duplicate n)
                        | _ => Ok false
                        end |}.



(** A document of two lines and a document of six lines, each with two
    deviations of the target /x. *)
Definition short_document : jsstring :=
  lit "deviation /x { deviate add { max-elements 10; } }" ++ [cu LF]
  ++ lit "deviation /x { deviate add { min-elements 1; } }".


Definition short_uri : jsstring := lit "file:///short.yang".

(** The diagnostic of the short document. *)
Definition short_diagnostic : Diagnostic :=
  {| range := {| start := {| line := 1; character := 0 |};
                 end_ := {| line := 1; character := 48 |} |};
     message := lit "duplicate deviation target";
     diag_severity := Warning;
     source := lit "yang-lint:deviation-unique-target";
     data := Some {| groupId := lit "/x" |} |}.


End QuickFixTerms.

Section MatcherTerms.

(** A continuation that succeeds was called on a state that lies at least
    [n] characters further and on the same text. *)
Definition reaches (k : cont) (s : mstate) (n : nat) (res : mstate) : Prop :=
  exists s', k s' = Some res
             /\ (List.length (rest s') + n <= List.length (rest s))%nat
             /\ (pos s' + List.length (rest s') = pos s + List.length (rest s))%nat.

(** The matches of a loop start at increasing indices of the text. *)
Definition increasing_from (text : jsstring) (lastIndex : nat) (ms : list rmatch_result) : Prop :=
  StronglySorted lt (map index ms)
  /\ Forall (fun m => lastIndex <= index m < List.length text)%nat ms.

End MatcherTerms.

Section PositionsTerms.

(** Lexicographic order on a line and a column. *)
Definition lex_lt (p q : nat * nat) : Prop :=
  (fst p < fst q \/ (fst p = fst q /\ snd p < snd q))%nat.

End PositionsTerms.

Section DeviationsTerms.

(** The entry of the target [t] with the node [n] pushed on its array. *)
Definition push_on (t : jsstring) (n : DeviationNode.t) (kv : jsstring * list DeviationNode.t)
  : jsstring * list DeviationNode.t :=
  if jsstring_eqb (fst kv) t then (fst kv, snd kv ++ [n]) else kv.

(** Document order of the nodes: the order of their start positions. *)
Definition starts_before (n n' : DeviationNode.t) : Prop := pos_lt (dev_start n) (dev_start n').

(** The start of an import node. *)
Definition import_start (n : ImportNode.t) : Position := start (ImportNode.range n).

End DeviationsTerms.

(* ================================================================== *)
(** * Further definitions: the server's handlers *)
(* ================================================================== *)

(** [index.ts], [validate(doc)]: the document is parsed, the engine
    validates the Ast, and the diagnostics are sent.  The result is the
    content of [deviationMap] after the call and what [engine.validate]
    returned or threw. *)
Definition validateDocument (compiled : list Compiled) (text : jsstring)
  : option (DeviationIndex * result (list Diagnostic)) :=
  ast <- parseYang text ;;
  Some (validate compiled ast).

(** The document-order comparison of two positions, not strict. *)
Definition pos_le (p q : Position) : Prop :=
  (line p < line q \/ (line p = line q /\ character p <= character q))%Z.

(** What identifies an occurrence: its target and its range. *)
Definition occurrence (n : DeviationNode.t) : jsstring * Range :=
  (DeviationNode.target n, DeviationNode.range n).

(** An entry of the parser's map, as the entry of [deviationMap] that
    [validate] builds for it: the ranges of its nodes. *)
Definition ranges_of (kv : jsstring * list DeviationNode.t) : jsstring * list Range :=
  (fst kv, map DeviationNode.range (snd kv)).

(** Every character a pattern can consume satisfies [P]. *)
Fixpoint chars_in (P : N -> Prop) (r : regex) : Prop :=
  match r with
  | Eps => True
  | Chr c => P (cu c)
  | Cls p => forall x, p x = true -> P x
  | Star p => forall x, p x = true -> P x
  | Seq a b => chars_in P a /\ chars_in P b
  | Alt a b => chars_in P a /\ chars_in P b
  | Group _ a => chars_in P a
  | Bol _ => True
  | Eol _ => True
  end.

(** A range whose end lies after its start. *)
Definition proper (r : Range) : Prop := pos_lt (start r) (end_ r).

(** A range that covers [raw] on one line. *)
Definition on_one_line (r : Range) (raw : jsstring) : Prop :=
  line (end_ r) = line (start r)
  /\ character (end_ r) = (character (start r) + len raw)%Z.

(** A character other than the line feed. *)
Definition no_lf (x : N) : Prop := x <> cu LF.

(* ------------------------------------------------------------------ *)
(** ** providers/quickfix.ts: the code-action handler *)

(** The source of the diagnostics the handler offers a fix for. *)
Definition DUPLICATE_SOURCE : jsstring := lit "yang-lint:deviation-unique-target".

(** [diag.data?.groupId] is truthy: there is a payload and its groupId is
    not the empty string. *)
Definition has_groupId (diag : Diagnostic) : bool :=
  match data diag with
  | Some p => negb (jsstring_eqb (groupId p) [])
  | None => false
  end.

(** The loop over [params.context.diagnostics]. *)
Fixpoint codeAction_loop (deviationMap : DeviationIndex) (uri text : jsstring)
  (diags : list Diagnostic) (fixes : list CodeAction) : result (list CodeAction) :=
  match diags with
  | [] => Ok fixes
  | diag :: diags' =>
      if jsstring_eqb (source diag) DUPLICATE_SOURCE && has_groupId diag then
        fixed <~ buildDeviationFix deviationMap diag uri text ;;
        codeAction_loop deviationMap uri text diags'
          (match fixed with
           | Some a => fixes ++ [a]
           | None => fixes
           end)
      else codeAction_loop deviationMap uri text diags' fixes
  end.

(** The handler registered by [register]: [documents] maps a uri to the
    text of its open document; an unknown uri gives no action. *)
Definition onCodeAction (documents : list (jsstring * jsstring))
  (deviationMap : DeviationIndex) (uri : jsstring) (diags : list Diagnostic)
  : result (list CodeAction) :=
  match map_get documents uri with
  | None => Ok []
  | Some text => codeAction_loop deviationMap uri text diags []
  end.

(** A deviation of the Ast with the target [t] is flagged as duplicate. *)
Definition flagged_target (ast : Ast) (t : jsstring) : bool :=
  existsb (fun n => jsstring_eqb (DeviationNode.target n) t && DeviationNode.duplicate n)
          (optional (deviations ast)).

(** The diagnostics the handler returns an action for, on the document
    of [ast]. *)
Definition fixable (ast : Ast) (diag : Diagnostic) : bool :=
  jsstring_eqb (source diag) DUPLICATE_SOURCE && has_groupId diag
  && match data diag with
     | Some p => flagged_target ast (groupId p)
     | None => false
     end.

(** The scopes [validate] knows. *)
Definition KNOWN_SCOPES : list jsstring :=
  map lit ["module-header"; "import"; "typedef"; "status"; "list";
           "constraint-node"; "deviation"]%string ++ GENERIC_SCOPES.

(** A world in which the load succeeds with one rule. *)
Definition one_rule : RuleYaml :=
  {| id := lit "r1"; description := lit "first rule"; severity := lit "error";
     scope := lit "import"; when_ := lit "true" |}.

Definition loading_world : World unit unit :=
  {| path_join := join (lit "/");
     readFileSync := fun _ => Ok (lit "{}");
     JSON_parse := fun _ => Ok tt;
     ajv_compile := fun _ => Ok (fun _ => Valid);
     yaml_load := fun _ => Ok tt;
     rules_of := fun _ => Some [one_rule];
     jexl_compile := fun _ => Ok (fun _ => Ok true) |}.

Definition one_compiled : Compiled :=
  {| rule := one_rule; expr := fun _ => Ok true |}.

(** A continuation that succeeds was called after the characters
    [consumed], all of which satisfy [P]. *)
Definition consumes (P : N -> Prop) (k : cont) (s : mstate) (res : mstate) : Prop :=
  exists consumed s', k s' = Some res
    /\ rest s = consumed ++ rest s'
    /\ pos s' = (pos s + List.length consumed)%nat
    /\ Forall P consumed.

(** The text of a match: its characters are those between [index] and
    [end_index]. *)
Definition match_of (text : jsstring) (P : N -> Prop) (m : rmatch_result) : Prop :=
  (index m <= end_index m <= List.length text)%nat
  /\ Forall P (matched text m).

(** A match of a statement with a body: it is not empty, it lies in the
    text, and its last character is the opening brace. *)
Definition opens_block (text : jsstring) (m : rmatch_result) : Prop :=
  (index m < end_index m <= List.length text)%nat
  /\ nth_error text (end_index m - 1) = Some (cu "{").

(** A match of a one-line statement: it is not empty and lies in the text. *)
Definition in_text (text : jsstring) (m : rmatch_result) : Prop :=
  (index m < end_index m <= List.length text)%nat.


(** A string with an escaped quote and a brace, inside a pair of braces:
    [{ Q a backslash Q } Q }], where Q is the double quote. *)
Definition escaped_quote_text : jsstring :=
  lit "{ " ++ [cu DQUOTE] ++ lit "a" ++ [cu BACKSLASH; cu DQUOTE] ++ lit "}"
  ++ [cu DQUOTE] ++ lit " }".

(* ================================================================== *)
(** * Properties of the brace matcher *)
(* ================================================================== *)

Section BraceMatcher.

Import OnSuffix.

Lemma len_app (pre rest : jsstring) : len (pre ++ rest) = (len pre + len rest)%Z.
Proof. unfold len. rewrite length_app. lia. Qed.

Lemma len_cons (c : N) (tl : jsstring) : len (c :: tl) = (1 + len tl)%Z.
Proof. unfold len. simpl List.length. lia. Qed.

Lemma len_nonneg (t : jsstring) : (0 <= len t)%Z.
Proof. unfold len. lia. Qed.

Lemma js_index_nat (text : jsstring) (i : nat) :
  js_index text (Z.of_nat i) = nth_error text i.
Proof.
  unfold js_index. destruct (Z.ltb_spec (Z.of_nat i) 0); [lia|].
  now rewrite Nat2Z.id.
Qed.

Lemma js_index_app_r (pre rest : jsstring) (k : nat) :
  js_index (pre ++ rest) (len pre + Z.of_nat k) = nth_error rest k.
Proof.
  unfold len. rewrite <- Nat2Z.inj_add, js_index_nat.
  rewrite nth_error_app2 by lia. f_equal. lia.
Qed.

Lemma js_index_here (pre : jsstring) (c : N) (tl : jsstring) :
  js_index (pre ++ c :: tl) (len pre) = Some c.
Proof.
  replace (len pre) with (len pre + Z.of_nat 0)%Z by lia.
  now rewrite js_index_app_r.
Qed.

Lemma js_index_next (pre : jsstring) (c : N) (tl : jsstring) :
  js_index (pre ++ c :: tl) (len pre + 1) = nth_error tl 0.
Proof.
  replace (len pre + 1)%Z with (len pre + Z.of_nat 1)%Z by lia.
  now rewrite js_index_app_r.
Qed.

Lemma js_index_prev (pre rest : jsstring) :
  js_index (pre ++ rest) (len pre - 1) = prev pre.
Proof.
  unfold prev, js_index. destruct (Z.ltb_spec (len pre - 1) 0); [easy|].
  apply nth_error_app1. unfold len in *. lia.
Qed.

Lemma prev_snoc (pre : jsstring) (c : N) : prev (pre ++ [c]) = Some c.
Proof.
  unfold prev. rewrite len_app, len_cons.
  replace (len pre + (1 + len []) - 1)%Z with (len pre) by (unfold len; simpl; lia).
  apply js_index_here.
Qed.

Lemma is_ch_some (c : N) (a : ascii) : is_ch (Some c) a = eqc c a.
Proof. reflexivity. Qed.

Lemma for_loop_step (fuel : nat) (text : jsstring) (st : S.t) (depth i : Z) :
  (i < len text)%Z ->
  for_loop (S fuel) text st depth i =
  match for_body text st depth i with
  | Return r => Some r
  | Continue st' depth' i' => for_loop fuel text st' depth' (i' + 1)
  end.
Proof.
  intros H. simpl. destruct (Z.ltb_spec i (len text)); [reflexivity | lia].
Qed.

Lemma for_loop_end (fuel : nat) (text : jsstring) (st : S.t) (depth i : Z) :
  (len text <= i)%Z -> for_loop fuel text st depth i = Some (len text - 1)%Z.
Proof.
  intros H. destruct fuel; simpl; destruct (Z.ltb_spec i (len text)); (reflexivity || lia).
Qed.

Lemma outcome_S (pre : jsstring) (c : N) (tl : jsstring) (r : option nat) :
  outcome (pre ++ [c]) tl r = outcome pre (c :: tl) (option_map S r).
Proof.
  destruct r; simpl.
  - rewrite len_app, len_cons. unfold len. simpl. lia.
  - now rewrite <- app_assoc.
Qed.

Lemma outcome_SS (pre : jsstring) (c c2 : N) (tl : jsstring) (r : option nat) :
  outcome (pre ++ [c; c2]) tl r = outcome pre (c :: c2 :: tl) (option_map (fun n => 2 + n)%nat r).
Proof.
  destruct r; simpl.
  - rewrite len_app. unfold len. simpl. lia.
  - now rewrite <- app_assoc.
Qed.

Lemma eqc_inj (c : N) (a b : ascii) :
  eqc c a = true -> eqc c b = true -> cu a = cu b.
Proof.
  unfold eqc. intros Ha Hb.
  apply N.eqb_eq in Ha. apply N.eqb_eq in Hb. congruence.
Qed.

Lemma loop_scan (n : nat) : forall rest : jsstring, (List.length rest <= n)%nat ->
  forall (pre : jsstring) (st : S.t) (d fuel : nat),
    (List.length rest <= fuel)%nat -> str_ok st pre rest ->
    for_loop fuel (pre ++ rest) st (Z.of_nat d + 1) (len pre) =
    Some (outcome pre rest (scan st d rest)).
Proof.
  induction n as [|n IH]; intros rest Hn pre st d fuel Hfuel Hok.
  - destruct rest; [|simpl in Hn; lia].
    rewrite for_loop_end by (rewrite app_nil_r; lia). reflexivity.
  - destruct rest as [|c tl].
    { rewrite for_loop_end by (rewrite app_nil_r; lia). reflexivity. }
    destruct fuel as [|f]; [simpl in Hfuel |- *; lia|].
    simpl in Hn, Hfuel.
    assert (Hlt : (len pre < len (pre ++ c :: tl))%Z)
      by (rewrite len_app, len_cons; pose proof (len_nonneg tl); lia).
    rewrite for_loop_step by exact Hlt.
    (* one character read *)
    assert (IH1 : forall m' d' f', (List.length tl <= f')%nat -> str_ok m' (pre ++ [c]) tl ->
      for_loop f' (pre ++ c :: tl) m' (Z.of_nat d' + 1) (len pre + 1) =
      Some (outcome pre (c :: tl) (option_map S (scan m' d' tl)))).
    { intros m' d' f' Hf' Hok'. rewrite <- outcome_S.
      specialize (IH tl ltac:(lia) (pre ++ [c]) m' d' f' Hf' Hok').
      rewrite <- app_assoc in IH. simpl in IH.
      rewrite len_app in IH. exact IH. }
    (* two characters read *)
    assert (IH2 : forall c2 tl2 m' d' f', tl = c2 :: tl2 -> (List.length tl2 <= f')%nat ->
      str_ok m' (pre ++ [c; c2]) tl2 ->
      for_loop f' (pre ++ c :: tl) m' (Z.of_nat d' + 1) (len pre + 1 + 1) =
      Some (outcome pre (c :: tl) (option_map (fun k => 2 + k)%nat (scan m' d' tl2)))).
    { intros c2 tl2 m' d' f' -> Hf' Hok'. rewrite <- outcome_SS.
      specialize (IH tl2 ltac:(simpl in Hn; lia) (pre ++ [c; c2]) m' d' f' Hf' Hok').
      rewrite <- app_assoc in IH. simpl in IH.
      rewrite len_app in IH. unfold len at 2 in IH. simpl in IH.
      replace (len pre + 1 + 1)%Z with (len pre + 2)%Z by lia. exact IH. }
    unfold for_body.
    rewrite js_index_here, js_index_next, js_index_prev, !is_ch_some.
    destruct st; cbv iota.
    + (* CODE *)
      simpl scan.
      destruct (eqc c "{") eqn:E1.
      { replace (Z.of_nat d + 1 + 1)%Z with (Z.of_nat (S d) + 1)%Z by lia.
        apply (IH1 S.CODE); [lia | exact I]. }
      destruct (eqc c "}") eqn:E2.
      { destruct d as [|d'].
        - simpl. f_equal. lia.
        - destruct (Z.eqb_spec (Z.of_nat (S d') + 1 - 1) 0); [lia|].
          replace (Z.of_nat (S d') + 1 - 1)%Z with (Z.of_nat d' + 1)%Z by lia.
          apply (IH1 S.CODE); [lia | exact I]. }
      destruct (eqc c "/") eqn:E3.
      { destruct tl as [|c2 tl2].
        - cbn [nth_error is_ch andb].
          destruct (eqc c DQUOTE), (eqc c "'");
            (rewrite for_loop_end; [reflexivity|];
             rewrite len_app, len_cons; unfold len; simpl; lia).
        - simpl nth_error. rewrite !is_ch_some. simpl andb.
          destruct (eqc c2 "/") eqn:E4.
          { eapply (IH2 _ _ S.LINE_COMMENT); [reflexivity | simpl in Hfuel |- *; lia | exact I]. }
          destruct (eqc c2 "*") eqn:E5.
          { eapply (IH2 _ _ S.BLOCK_COMMENT); [reflexivity | simpl in Hfuel |- *; lia | exact I]. }
          destruct (eqc c DQUOTE) eqn:E6.
          { pose proof (eqc_inj _ _ _ E3 E6) as X. vm_compute in X. discriminate. }
          destruct (eqc c "'") eqn:E7.
          { pose proof (eqc_inj _ _ _ E3 E7) as X. vm_compute in X. discriminate. }
          apply (IH1 S.CODE); [simpl in Hfuel |- *; lia | exact I]. }
      simpl andb.
      destruct (eqc c DQUOTE) eqn:E6.
      { apply (IH1 S.DQ_STRING); [lia|]. unfold str_ok. destruct tl; [exact I|].
        intros _. rewrite prev_snoc, is_ch_some.
        destruct (eqc c BACKSLASH) eqn:E8; [|reflexivity].
        pose proof (eqc_inj _ _ _ E6 E8) as X. vm_compute in X. discriminate. }
      destruct (eqc c "'") eqn:E7.
      { apply (IH1 S.SQ_STRING); [lia|]. unfold str_ok. destruct tl; [exact I|].
        intros _. rewrite prev_snoc, is_ch_some.
        destruct (eqc c BACKSLASH) eqn:E8; [|reflexivity].
        pose proof (eqc_inj _ _ _ E7 E8) as X. vm_compute in X. discriminate. }
      apply (IH1 S.CODE); [lia | exact I].
    + (* LineComment *)
      simpl scan.
      destruct (eqc c LF) eqn:E1; [apply (IH1 S.CODE) | apply (IH1 S.LINE_COMMENT)]; (lia || exact I).
    + (* BlockComment *)
      destruct tl as [|c2 tl2].
      * cbn [nth_error is_ch scan]. rewrite andb_false_r.
        rewrite for_loop_end; [reflexivity|].
        rewrite len_app, len_cons. unfold len. simpl. lia.
      * simpl nth_error. rewrite is_ch_some. simpl scan.
        destruct (eqc c "*" && eqc c2 "/") eqn:E1.
        { eapply (IH2 _ _ S.CODE); [reflexivity | simpl in Hfuel |- *; lia | exact I]. }
        apply (IH1 S.BLOCK_COMMENT); [simpl in Hfuel |- *; lia | exact I].
    + (* DqString *)
      simpl scan. simpl in Hok.
      destruct (eqc c DQUOTE) eqn:E1.
      { rewrite (Hok eq_refl). simpl. apply (IH1 S.CODE); [lia | exact I]. }
      simpl andb.
      destruct (eqc c BACKSLASH) eqn:E2.
      { destruct tl as [|c2 tl2].
        - rewrite for_loop_end; [reflexivity|].
          rewrite len_app, len_cons. unfold len. simpl. lia.
        - destruct (eqc c2 DQUOTE) eqn:E3.
          + (* the escaped quote takes a second run of the loop body *)
            destruct f as [|f']; [simpl in Hfuel |- *; lia|].
            rewrite for_loop_step
              by (rewrite len_app, !len_cons; pose proof (len_nonneg tl2); lia).
            unfold for_body.
            replace (len pre + 1 - 1)%Z with (len pre) by lia.
            rewrite js_index_here, js_index_next. simpl nth_error.
            rewrite !is_ch_some, E3, E2. simpl.
            eapply (IH2 _ _ S.DQ_STRING); [reflexivity | simpl in Hfuel |- *; lia|].
            unfold str_ok. destruct tl2; [exact I|]. intros _.
            replace (pre ++ [c; c2]) with ((pre ++ [c]) ++ [c2])
              by (now rewrite <- app_assoc).
            rewrite prev_snoc, is_ch_some.
            destruct (eqc c2 BACKSLASH) eqn:E8; [|reflexivity].
            pose proof (eqc_inj _ _ _ E3 E8) as X. vm_compute in X. discriminate.
          + apply (IH1 S.DQ_STRING); [simpl in Hfuel |- *; lia|].
            unfold str_ok. rewrite E3. discriminate. }
      apply (IH1 S.DQ_STRING); [lia|]. unfold str_ok. destruct tl; [exact I|].
      intros _. now rewrite prev_snoc, is_ch_some.
    + (* SqString *)
      simpl scan. simpl in Hok.
      destruct (eqc c "'") eqn:E1.
      { rewrite (Hok eq_refl). simpl. apply (IH1 S.CODE); [lia | exact I]. }
      simpl andb.
      destruct (eqc c BACKSLASH) eqn:E2.
      { destruct tl as [|c2 tl2].
        - rewrite for_loop_end; [reflexivity|].
          rewrite len_app, len_cons. unfold len. simpl. lia.
        - destruct (eqc c2 "'") eqn:E3.
          + destruct f as [|f']; [simpl in Hfuel |- *; lia|].
            rewrite for_loop_step
              by (rewrite len_app, !len_cons; pose proof (len_nonneg tl2); lia).
            unfold for_body.
            replace (len pre + 1 - 1)%Z with (len pre) by lia.
            rewrite js_index_here, js_index_next. simpl nth_error.
            rewrite !is_ch_some, E3, E2. simpl.
            eapply (IH2 _ _ S.SQ_STRING); [reflexivity | simpl in Hfuel |- *; lia|].
            unfold str_ok. destruct tl2; [exact I|]. intros _.
            replace (pre ++ [c; c2]) with ((pre ++ [c]) ++ [c2])
              by (now rewrite <- app_assoc).
            rewrite prev_snoc, is_ch_some.
            destruct (eqc c2 BACKSLASH) eqn:E8; [|reflexivity].
            pose proof (eqc_inj _ _ _ E3 E8) as X. vm_compute in X. discriminate.
          + apply (IH1 S.SQ_STRING); [simpl in Hfuel |- *; lia|].
            unfold str_ok. rewrite E3. discriminate. }
      apply (IH1 S.SQ_STRING); [lia|]. unfold str_ok. destruct tl; [exact I|].
      intros _. now rewrite prev_snoc, is_ch_some.
Qed.

Lemma for_body_advances (text : jsstring) (st : S.t) (depth i : Z) st' depth' i' :
  for_body text st depth i = Continue st' depth' i' -> (i <= i')%Z.
Proof.
  unfold for_body. intros H.
  destruct st;
    repeat match type of H with
           | (if ?b then _ else _) = _ => destruct b
           end; inversion H; lia.
Qed.

Lemma for_loop_total (fuel : nat) : forall (text : jsstring) (st : S.t) (depth i : Z),
  (Z.to_nat (len text - i) <= fuel)%nat ->
  exists r, for_loop fuel text st depth i = Some r.
Proof.
  induction fuel as [|fuel IH]; intros text st depth i Hf.
  - exists (len text - 1)%Z. apply for_loop_end. lia.
  - destruct (Z.lt_ge_cases i (len text)) as [Hlt|Hge].
    + rewrite for_loop_step by exact Hlt.
      destruct (for_body text st depth i) as [r|st' depth' i'] eqn:Hb.
      * now exists r.
      * apply for_body_advances in Hb. apply IH. lia.
    + exists (len text - 1)%Z. now apply for_loop_end.
Qed.

(** [findMatchingBrace] returns an index for every text and every start
    index: the loop never needs more runs than the fuel it is given. *)
Lemma findMatchingBrace_total (text : jsstring) (openIdx : Z) :
  exists r, findMatchingBrace text openIdx = Some r.
Proof. unfold findMatchingBrace. apply for_loop_total. lia. Qed.

Lemma firstn_skipn_len (text : jsstring) (n : nat) :
  (n <= List.length text)%nat -> len (firstn n text) = Z.of_nat n.
Proof. intros H. unfold len. rewrite length_firstn. lia. Qed.

(** The loop against [OnSuffix.scan], from the opening brace. *)
Lemma findMatchingBrace_scan (text : jsstring) (openIdx : nat) :
  (openIdx < List.length text)%nat ->
  findMatchingBrace text (Z.of_nat openIdx) =
  Some (match matching text openIdx with
        | Some j => Z.of_nat j
        | None => len text - 1
        end)%Z.
Proof.
  intros Hlt. unfold findMatchingBrace, matching.
  pose proof (firstn_skipn (openIdx + 1) text) as Hsplit.
  pose proof (@firstn_skipn_len text (openIdx + 1) ltac:(lia)) as Hlen.
  set (pre := firstn (openIdx + 1) text) in *.
  set (rest := skipn (openIdx + 1) text) in *.
  pose proof (@loop_scan (List.length rest) rest (le_n _) pre S.CODE 0
                (Z.to_nat (len text - (Z.of_nat openIdx + 1)))) as H.
  rewrite Hsplit in H. rewrite Hlen in H.
  replace (Z.of_nat (openIdx + 1)) with (Z.of_nat openIdx + 1)%Z in H by lia.
  change (Z.of_nat 0 + 1)%Z with 1%Z in H.
  rewrite H; [| | exact I].
  - f_equal. unfold outcome. destruct (scan S.CODE 0 rest); simpl.
    + rewrite Hlen. lia.
    + now rewrite Hsplit.
  - assert (Hl : len text = (len pre + len rest)%Z)
      by (rewrite <- Hsplit at 1; apply len_app).
    rewrite Hl, Hlen. unfold len. lia.
Qed.

(** The index found by [OnSuffix.scan] holds a closing brace. *)
Lemma scan_closing (n : nat) : forall (rest : jsstring) (st : S.t) (d k : nat),
  (List.length rest <= n)%nat -> scan st d rest = Some k ->
  nth_error rest k = Some (cu "}").
Proof.
  induction n as [|n IH]; intros rest st d k Hn Hs.
  - destruct rest; [discriminate | simpl in Hn; lia].
  - destruct rest as [|c tl]; [discriminate|]. simpl in Hn.
    assert (IH1 : forall m' d' k', option_map S (scan m' d' tl) = Some k' ->
                  nth_error (c :: tl) k' = Some (cu "}")).
    { intros m' d' k' H. destruct (scan m' d' tl) as [k0|] eqn:E; [|discriminate].
      inversion H; subst. simpl. eapply IH; [|exact E]. lia. }
    assert (IH2 : forall c2 tl2 m' d' k', tl = c2 :: tl2 ->
                  option_map (fun x => 2 + x)%nat (scan m' d' tl2) = Some k' ->
                  nth_error (c :: tl) k' = Some (cu "}")).
    { intros c2 tl2 m' d' k' -> H.
      destruct (scan m' d' tl2) as [k0|] eqn:E; [|discriminate].
      inversion H; subst. simpl. eapply IH; [|exact E]. simpl in Hn. lia. }
    destruct st; simpl in Hs.
    + destruct (eqc c "{"); [now apply IH1 in Hs|].
      destruct (eqc c "}") eqn:E2.
      { destruct d; [|now apply IH1 in Hs].
        inversion Hs; subst. simpl. f_equal. now apply N.eqb_eq in E2. }
      destruct (eqc c "/").
      { destruct tl as [|c2 tl2]; [discriminate|].
        destruct (eqc c2 "/"); [now apply (IH2 c2 tl2) in Hs|].
        destruct (eqc c2 "*"); [now apply (IH2 c2 tl2) in Hs|].
        now apply IH1 in Hs. }
      destruct (eqc c DQUOTE); [now apply IH1 in Hs|].
      destruct (eqc c "'"); now apply IH1 in Hs.
    + destruct (eqc c LF); now apply IH1 in Hs.
    + destruct tl as [|c2 tl2]; [discriminate|].
      destruct (eqc c "*" && eqc c2 "/"); [now apply (IH2 c2 tl2) in Hs|].
      now apply IH1 in Hs.
    + destruct (eqc c DQUOTE); [now apply IH1 in Hs|].
      destruct (eqc c BACKSLASH); [|now apply IH1 in Hs].
      destruct tl as [|c2 tl2]; [discriminate|].
      destruct (eqc c2 DQUOTE); [now apply (IH2 c2 tl2) in Hs|].
      now apply IH1 in Hs.
    + destruct (eqc c "'"); [now apply IH1 in Hs|].
      destruct (eqc c BACKSLASH); [|now apply IH1 in Hs].
      destruct tl as [|c2 tl2]; [discriminate|].
      destruct (eqc c2 "'"); [now apply (IH2 c2 tl2) in Hs|].
      now apply IH1 in Hs.
Qed.

Lemma matching_closing (text : jsstring) (openIdx j : nat) :
  matching text openIdx = Some j ->
  (openIdx < j)%nat /\ nth_error text j = Some (cu "}").
Proof.
  unfold matching. intros H.
  destruct (scan S.CODE 0 (skipn (openIdx + 1) text)) as [k|] eqn:E; [|discriminate].
  inversion H; subst. split; [lia|].
  apply (@scan_closing _ _ _ _ _ (le_n _)) in E.
  rewrite nth_error_skipn in E. exact E.
Qed.

Lemma no_backslash_pair_tl (c : N) (tl : jsstring) :
  no_backslash_pair (c :: tl) = true -> no_backslash_pair tl = true.
Proof. cbn [no_backslash_pair]. intros H. now apply andb_prop in H. Qed.

Lemma no_backslash_pair_skipn (n : nat) : forall text : jsstring,
  no_backslash_pair text = true -> no_backslash_pair (skipn n text) = true.
Proof.
  induction n as [|n IH]; intros text H; [exact H|].
  destruct text as [|c tl]; [exact H|].
  cbn [skipn]. apply IH. now apply no_backslash_pair_tl in H.
Qed.

Lemma option_map_twice (r : option nat) :
  option_map S (option_map S r) = option_map (fun n => 2 + n)%nat r.
Proof. now destruct r. Qed.

(** On a text in which no backslash follows a backslash, the loop reads a
    string as the specification does: the character before a quote is a
    backslash exactly when that backslash escapes the quote. *)
Lemma scan_agrees (n : nat) : forall (rest : jsstring) (m : BraceSpec.mode) (d : nat),
  (List.length rest <= n)%nat -> no_backslash_pair rest = true ->
  scan (st_of m) d rest = BraceSpec.scan m d rest.
Proof.
  induction n as [|n IH]; intros rest m d Hn Hp.
  - destruct rest; [now destruct m | simpl in Hn; lia].
  - destruct rest as [|c tl]; [now destruct m|]. simpl in Hn.
    pose proof (no_backslash_pair_tl _ _ Hp) as Hp1.
    assert (IH1 : forall m' d', scan (st_of m') d' tl = BraceSpec.scan m' d' tl)
      by (intros; apply IH; [lia | exact Hp1]).
    assert (IH2 : forall c2 tl2 m' d', tl = c2 :: tl2 ->
                  scan (st_of m') d' tl2 = BraceSpec.scan m' d' tl2).
    { intros c2 tl2 m' d' ->. apply IH; [simpl in Hn; lia|].
      now apply no_backslash_pair_tl in Hp1. }
    destruct m; cbn [st_of scan BraceSpec.scan].
    + rewrite <- (IH1 BraceSpec.Code), <- (IH1 BraceSpec.DqString),
        <- (IH1 BraceSpec.SqString), <- (IH1 BraceSpec.Code d).
      destruct d as [|d']; [|rewrite <- (IH1 BraceSpec.Code d')];
        (destruct tl as [|c2 tl2]; [reflexivity|];
         rewrite <- (IH2 c2 tl2 BraceSpec.LineComment), <- (IH2 c2 tl2 BraceSpec.BlockComment)
           by reflexivity; reflexivity).
    + now rewrite <- (IH1 BraceSpec.Code), <- (IH1 BraceSpec.LineComment).
    + rewrite <- (IH1 BraceSpec.BlockComment).
      destruct tl as [|c2 tl2]; [reflexivity|].
      now rewrite <- (IH2 c2 tl2 BraceSpec.Code) by reflexivity.
    + rewrite <- (IH1 BraceSpec.Code), <- (IH1 BraceSpec.DqString).
      destruct (eqc c DQUOTE) eqn:E1.
      { destruct (eqc c BACKSLASH) eqn:E2; [|reflexivity].
        pose proof (eqc_inj _ _ _ E1 E2) as X. vm_compute in X. discriminate. }
      destruct (eqc c BACKSLASH) eqn:E2; [|reflexivity].
      destruct tl as [|c2 tl2]; [reflexivity|].
      rewrite <- (IH2 c2 tl2 BraceSpec.DqString) by reflexivity.
      destruct (eqc c2 DQUOTE) eqn:E3; [reflexivity|].
      cbn [st_of scan]. rewrite E3.
      cbn [no_backslash_pair] in Hp. rewrite E2 in Hp. cbn [andb negb] in Hp.
      destruct (eqc c2 BACKSLASH); [discriminate Hp|].
      apply option_map_twice.
    + rewrite <- (IH1 BraceSpec.Code), <- (IH1 BraceSpec.SqString).
      destruct (eqc c "'") eqn:E1.
      { destruct (eqc c BACKSLASH) eqn:E2; [|reflexivity].
        pose proof (eqc_inj _ _ _ E1 E2) as X. vm_compute in X. discriminate. }
      destruct (eqc c BACKSLASH) eqn:E2; [|reflexivity].
      destruct tl as [|c2 tl2]; [reflexivity|].
      rewrite <- (IH2 c2 tl2 BraceSpec.SqString) by reflexivity.
      destruct (eqc c2 "'") eqn:E3; [reflexivity|].
      cbn [st_of scan]. rewrite E3.
      cbn [no_backslash_pair] in Hp. rewrite E2 in Hp. cbn [andb negb] in Hp.
      destruct (eqc c2 BACKSLASH); [discriminate Hp|].
      apply option_map_twice.
Qed.

(** The index at which the loop returns is the matching brace of the
    specification, on a text in which no backslash follows a backslash. *)
Lemma matching_agrees (text : jsstring) (openIdx : nat) :
  no_backslash_pair text = true ->
  matching text openIdx = BraceSpec.matching text openIdx.
Proof.
  intros Hp. unfold matching, BraceSpec.matching. f_equal.
  apply (@scan_agrees _ _ BraceSpec.Code 0 (le_n _)).
  now apply no_backslash_pair_skipn.
Qed.

(** C5.  The claim fails on the code.  In the text
    [{ Q backslash backslash Q Q } Q }], where Q is the double quote, the
    brace at index 0 is balanced and its matching closing brace is at index
    11: the first string holds an escaped backslash and ends at index 5, the
    second string goes from index 7 to index 9 and holds the brace at index
    8.  [findMatchingBrace]
    returns 8: it takes the quote at index 5 as escaped, because the
    character before it is a backslash, so it reads the quote at index 7 as
    the end of a string and counts the quoted brace.  On the example of the
    claim, [{ a "}" b }], it returns 10, the index of the last brace, as the
    specification does. *)
Theorem findMatchingBrace_counts_brace_after_escaped_backslash :
  BraceSpec.balanced escaped_backslash_text 0
  /\ BraceSpec.matching escaped_backslash_text 0 = Some 11%nat
  /\ findMatchingBrace escaped_backslash_text 0 = Some 8%Z
  /\ nth_error escaped_backslash_text 8 = Some (cu "}")
  /\ nth_error escaped_backslash_text 11 = Some (cu "}")
  /\ BraceSpec.matching quoted_brace_text 0 = Some 10%nat
  /\ findMatchingBrace quoted_brace_text 0 = Some 10%Z.
Proof.
  split; [split; [reflexivity | exists 11%nat; reflexivity]|].
  repeat split; vm_compute; reflexivity.
Qed.

(** C6.  The claim fails on the code, by the defect of C5.  In the text
    [{ Q backslash backslash Q Q } Q], where Q is the double quote, the
    brace at index 0 is never closed: the only closing brace, at index 8,
    lies inside a string.  The text has ten characters, so the claim asks
    for 9; [findMatchingBrace] returns 8, the index of the quoted brace.
    It does return, as it does for every input. *)
Theorem findMatchingBrace_unclosed_after_escaped_backslash :
  BraceSpec.unterminated unclosed_escaped_backslash_text 0
  /\ (len unclosed_escaped_backslash_text - 1 = 9)%Z
  /\ findMatchingBrace unclosed_escaped_backslash_text 0 = Some 8%Z
  /\ nth_error unclosed_escaped_backslash_text 8 = Some (cu "}").
Proof.
  split; [split; reflexivity|].
  repeat split; vm_compute; reflexivity.
Qed.

End BraceMatcher.

(* ================================================================== *)
(** * Properties of the predicate library *)
(* ================================================================== *)

Section Predicates.

Lemma jsstring_eqb_true (a b : jsstring) : jsstring_eqb a b = true <-> a = b.
Proof. unfold jsstring_eqb. destruct (jsstring_eq_dec a b); split; congruence. Qed.

Lemma jsstring_eqb_refl (a : jsstring) : jsstring_eqb a a = true.
Proof. now apply jsstring_eqb_true. Qed.

Lemma strict_neq_true (o : option jsstring) (k : jsstring) :
  strict_neq o k = true <-> o <> Some k.
Proof.
  unfold strict_neq. destruct o as [c|].
  - rewrite negb_true_iff. destruct (jsstring_eqb c k) eqn:E.
    + apply jsstring_eqb_true in E. subst. split; [discriminate | congruence].
    + split; [|reflexivity]. intros _ H. inversion H; subst.
      now rewrite jsstring_eqb_refl in E.
  - split; [discriminate | reflexivity].
Qed.

Lemma some_indexed_true {A : Type} (f : A -> nat -> bool) (l : list A) : forall i,
  some_indexed f i l = true <->
  exists j a, nth_error l j = Some a /\ f a (i + j)%nat = true.
Proof.
  induction l as [|x l IH]; intros i; simpl.
  - split; [discriminate|]. intros (j & a & H & _). now destruct j.
  - rewrite orb_true_iff, IH. split.
    + intros [H | (j & a & Hj & Hf)].
      * exists 0%nat, x. now rewrite Nat.add_0_r.
      * exists (S j), a. split; [exact Hj|]. now rewrite Nat.add_succ_r.
    + intros (j & a & Hj & Hf). destruct j as [|j].
      * left. simpl in Hj. inversion Hj; subst. now rewrite Nat.add_0_r in Hf.
      * right. exists j, a. split; [exact Hj|]. now rewrite Nat.add_succ_r in Hf.
Qed.

(** C9.  [keyOrderInvalid] is true exactly when, at some index of [key],
    the child name at the same index is not the key name (a child missing
    at that index also differs).  The comparison is by position: with key
    a, b the children a, c, b give true, and the children a, b, c give
    false. *)
Theorem keyOrderInvalid_positional (lst : ListNode.t) :
  (keyOrderInvalid lst = true <->
   exists i k, nth_error (ListNode.key lst) i = Some k /\
               nth_error (ListNode.children lst) i <> Some k)
  /\ (forall l r after,
        keyOrderInvalid {| ListNode.line := l; ListNode.range := r;
                           ListNode.key := [lit "a"; lit "b"];
                           ListNode.children := [lit "a"; lit "c"; lit "b"];
                           ListNode.afterLines := after |} = true)
  /\ (forall l r after,
        keyOrderInvalid {| ListNode.line := l; ListNode.range := r;
                           ListNode.key := [lit "a"; lit "b"];
                           ListNode.children := [lit "a"; lit "b"; lit "c"];
                           ListNode.afterLines := after |} = false).
Proof.
  split; [|split; intros; reflexivity].
  unfold keyOrderInvalid. rewrite some_indexed_true. simpl.
  split; intros (i & k & Hk & Hc); exists i, k; (split; [exact Hk|]);
    now apply strict_neq_true.
Qed.

End Predicates.

(* ================================================================== *)
(** * Properties of the rule engine *)
(* ================================================================== *)

Section RuleEngine.

Import OrderSpec.

Lemma forEach_candidates {A : Type} (c : Compiled) (env : A -> Env) (rng : A -> Range)
  (extra : A -> option Payload) (xs : list A) : forall out,
  forEach (fun n => eval_push c (env n) (rng n) (extra n)) xs out =
  eval_candidates c (map (fun n => (env n, rng n, extra n)) xs) out.
Proof.
  induction xs as [|x xs IH]; intros out; simpl; [reflexivity|].
  destruct (eval_push c (env x) (rng x) (extra x) out); simpl; [apply IH | reflexivity].
Qed.

(** The [switch] of [validate] evaluates the node collection of the
    rule's scope. *)
Lemma run_rule_candidates (ast : Ast) (c : Compiled) (out : list Diagnostic) :
  run_rule ast c out = eval_candidates c (scope_nodes ast c) out.
Proof.
  unfold run_rule, scope_nodes, is_scope.
  repeat match goal with
         | |- context [if ?b then _ else _] =>
             destruct b; [try apply forEach_candidates|]
         end; try reflexivity.
  destruct (moduleHeader ast); simpl; [|reflexivity].
  now destruct (eval_push _ _ _ _ _).
Qed.

Lemma push_diagnostic (c : Compiled) (cand : Candidate) (out : list Diagnostic) :
  push (rule c) (snd (fst cand)) (snd cand) out = out ++ [diagnostic_of c cand].
Proof. now destruct cand as [[env range] extra]. Qed.

Lemma eval_candidates_ok (c : Compiled) (cands : list Candidate) : forall out out',
  eval_candidates c cands out = Ok out' ->
  out' = out ++ map (diagnostic_of c) (filter (truthy c) cands)
  /\ forallb (fun cand => negb (throws c cand)) cands = true.
Proof.
  induction cands as [|[[env range] extra] cands IH]; intros out out' H; simpl in H.
  - inversion H. now rewrite app_nil_r.
  - unfold eval_push in H. simpl. unfold truthy, throws. simpl.
    destruct (expr c env) as [v|e]; simpl in H; [|discriminate].
    apply IH in H. destruct H as [-> Hall]. split; [|exact Hall].
    destruct v; simpl; [|reflexivity].
    unfold push. now rewrite <- app_assoc.
Qed.

Lemma eval_candidates_throw (c : Compiled) (cands : list Candidate) : forall out,
  forallb (fun cand => negb (throws c cand)) cands = true ->
  exists out', eval_candidates c cands out = Ok out'.
Proof.
  induction cands as [|[[env range] extra] cands IH]; intros out H; simpl in *.
  - now exists out.
  - apply andb_true_iff in H. destruct H as [H1 H2].
    unfold throws in H1. simpl in H1. unfold eval_push.
    destruct (expr c env) as [v|e]; [|discriminate]. simpl. now apply IH.
Qed.

Lemma run_rules_ok (ast : Ast) (cs : list Compiled) : forall out out',
  run_rules ast cs out = Ok out' ->
  out' = out ++ expected_diagnostics ast cs
  /\ forall c, In c cs -> forallb (fun cand => negb (throws c cand)) (scope_nodes ast c) = true.
Proof.
  induction cs as [|c cs IH]; intros out out' H; simpl in H.
  - inversion H. rewrite app_nil_r. split; [reflexivity | intros c []].
  - rewrite run_rule_candidates in H.
    destruct (eval_candidates c (scope_nodes ast c) out) as [o|e] eqn:E; [|discriminate].
    simpl in H. apply eval_candidates_ok in E. destruct E as [-> Hc].
    apply IH in H. destruct H as [-> Hcs]. split.
    + unfold expected_diagnostics, rule_diagnostics. simpl. now rewrite <- app_assoc.
    + intros c' [<- | Hin]; [exact Hc | now apply Hcs].
Qed.

Lemma run_rules_no_throw (ast : Ast) (cs : list Compiled) : forall out,
  (forall c, In c cs -> forallb (fun cand => negb (throws c cand)) (scope_nodes ast c) = true) ->
  exists out', run_rules ast cs out = Ok out'.
Proof.
  induction cs as [|c cs IH]; intros out H; simpl.
  - now exists out.
  - rewrite run_rule_candidates.
    destruct (eval_candidates_throw c (scope_nodes ast c) out (H c (or_introl eq_refl)))
      as [o ->].
    simpl. apply IH. intros c' Hin. apply H. now right.
Qed.

(** C7.  When [validate] returns, its diagnostics are those of the first
    rule, then those of the second rule, and so on; the diagnostics of one
    rule follow the order of the node collection of its scope.  They are
    not sorted by position: two rules R1 and R2 of scope import that both
    match the imports A and B give R1 on A, R1 on B, R2 on A, R2 on B. *)
Theorem validate_rule_order_then_node_order :
  (forall (compiled : list Compiled) (ast : Ast) (out : list Diagnostic),
      snd (validate compiled ast) = Ok out ->
      out = flat_map (fun c => map (diagnostic_of c) (filter (truthy c) (scope_nodes ast c)))
                     compiled)
  /\ (forall (R1 R2 : Compiled) (A B : ImportNode.t) (ast : Ast),
        scope (rule R1) = lit "import" -> scope (rule R2) = lit "import" ->
        imports ast = Some [A; B] ->
        expr R1 {| ctx := ast; binding := import_ A |} = Ok true ->
        expr R1 {| ctx := ast; binding := import_ B |} = Ok true ->
        expr R2 {| ctx := ast; binding := import_ A |} = Ok true ->
        expr R2 {| ctx := ast; binding := import_ B |} = Ok true ->
        snd (validate [R1; R2] ast) =
        Ok [import_diagnostic ast R1 A; import_diagnostic ast R1 B;
            import_diagnostic ast R2 A; import_diagnostic ast R2 B]).
Proof.
  split.
  - intros compiled ast out H. unfold validate in H. simpl in H.
    apply run_rules_ok in H. now destruct H as [-> _].
  - intros R1 R2 A B ast H1 H2 Hi HA1 HB1 HA2 HB2.
    assert (Hrule : forall R out, scope (rule R) = lit "import" ->
              expr R {| ctx := ast; binding := import_ A |} = Ok true ->
              expr R {| ctx := ast; binding := import_ B |} = Ok true ->
              run_rule ast R out =
              Ok (out ++ [import_diagnostic ast R A; import_diagnostic ast R B])).
    { intros R out HR HA HB. rewrite run_rule_candidates.
      unfold scope_nodes. rewrite HR, Hi.
      change (jsstring_eqb (lit "import") (lit "module-header")) with false.
      change (jsstring_eqb (lit "import") (lit "import")) with true.
      cbv iota. cbn [optional map eval_candidates].
      unfold eval_push. rewrite HA. cbn [rbind]. rewrite HB. cbn [rbind].
      unfold push, import_diagnostic, diagnostic_of.
      now rewrite <- app_assoc. }
    unfold validate. cbn [snd run_rules].
    rewrite (Hrule R1 [] H1 HA1 HB1). cbn [rbind].
    rewrite (Hrule R2 _ H2 HA2 HB2). reflexivity.
Qed.

Lemma validate_rule_order_then_node_order_witness :
  let A := import_at "a" 1 in
  let B := import_at "b" 2 in
  let R1 := import_rule "r1" (fun _ => Ok true) in
  let R2 := import_rule "r2" (fun _ => Ok true) in
  let ast := ast_of_imports [A; B] in
  snd (validate [R1; R2] ast) =
    Ok [import_diagnostic ast R1 A; import_diagnostic ast R1 B;
        import_diagnostic ast R2 A; import_diagnostic ast R2 B]
  /\ map (fun d => line (start (range d)))
         [import_diagnostic ast R1 A; import_diagnostic ast R1 B;
          import_diagnostic ast R2 A; import_diagnostic ast R2 B] = [1; 2; 1; 2]%Z.
Proof.
  intros A B R1 R2 ast. split; [|reflexivity].
  apply (proj2 validate_rule_order_then_node_order R1 R2 A B ast); reflexivity.
Defined.

(** C1 as stated fails: the predicate throws on the first import, and
    [validate] throws; the diagnostic of the second import, on which the
    predicate is truthy, is not returned. *)
Lemma validate_aborts_on_first_throw :
  truthy throwing_rule
    ({| ctx := two_imports; binding := import_ (import_at "b" 2) |},
     ImportNode.range (import_at "b" 2), None) = true
  /\ snd (validate [throwing_rule] two_imports) = Throw (lit "TypeError")
  /\ ~ (exists out, snd (validate [throwing_rule] two_imports) = Ok out).
Proof.
  split; [reflexivity|]. split; [reflexivity|].
  intros [out H]. discriminate H.
Qed.

(** C1, amended.  [validate] has no handler around the evaluation of a
    predicate: it throws exactly when the predicate of some rule throws on
    some node of its scope's collection, and then returns no diagnostic at
    all.  When no predicate throws, every (rule, node) pair is evaluated
    and every truthy pair contributes its diagnostic. *)
Theorem validate_throws_iff_some_predicate_throws (compiled : list Compiled) (ast : Ast) :
  ((exists e, snd (validate compiled ast) = Throw e) <->
   (exists c cand, In c compiled /\ In cand (scope_nodes ast c) /\ throws c cand = true))
  /\ ((forall c cand, In c compiled -> In cand (scope_nodes ast c) -> throws c cand = false) ->
      snd (validate compiled ast) = Ok (expected_diagnostics ast compiled)).
Proof.
  assert (Hno : (forall c cand, In c compiled -> In cand (scope_nodes ast c) ->
                                throws c cand = false) ->
                snd (validate compiled ast) = Ok (expected_diagnostics ast compiled)).
  { intros H. unfold validate. simpl.
    destruct (run_rules_no_throw ast compiled []) as [out Hout].
    - intros c Hc. apply forallb_forall. intros cand Hcand.
      now rewrite (H c cand Hc Hcand).
    - rewrite Hout. apply run_rules_ok in Hout. now destruct Hout as [-> _]. }
  split; [|exact Hno]. split.
  - intros [e He].
    destruct (existsb (fun c => existsb (throws c) (scope_nodes ast c)) compiled) eqn:E.
    + apply existsb_exists in E. destruct E as (c & Hc & E).
      apply existsb_exists in E. destruct E as (cand & Hcand & E).
      now exists c, cand.
    + rewrite Hno in He; [discriminate|].
      intros c cand Hc Hcand.
      destruct (throws c cand) eqn:T; [|reflexivity].
      assert (X : existsb (fun c => existsb (throws c) (scope_nodes ast c)) compiled = true).
      { apply existsb_exists. exists c. split; [exact Hc|].
        apply existsb_exists. now exists cand. }
      congruence.
  - intros (c & cand & Hc & Hcand & T).
    unfold validate. simpl.
    destruct (run_rules ast compiled []) as [out|e] eqn:E; [|now exists e].
    apply run_rules_ok in E. destruct E as [_ Hall].
    specialize (Hall c Hc). rewrite forallb_forall in Hall.
    specialize (Hall cand Hcand). now rewrite T in Hall.
Qed.

Lemma validate_throws_iff_some_predicate_throws_witness :
  snd (validate [import_rule "r1" (fun _ => Ok true)]
                (ast_of_imports [import_at "a" 1; import_at "b" 2])) =
  Ok (expected_diagnostics (ast_of_imports [import_at "a" 1; import_at "b" 2])
                           [import_rule "r1" (fun _ => Ok true)]).
Proof.
  apply (proj2 (validate_throws_iff_some_predicate_throws
                  [import_rule "r1" (fun _ => Ok true)]
                  (ast_of_imports [import_at "a" 1; import_at "b" 2]))).
  intros c cand [<- | []] Hcand.
  simpl in Hcand. destruct Hcand as [<- | [<- | []]]; reflexivity.
Defined.

End RuleEngine.

(* ================================================================== *)
(** * Properties of reload *)
(* ================================================================== *)

Section ReloadFacts.

Variables Json Yaml : Type.
Implicit Types (w : World Json Yaml) (e : Engine).

(** Every load attempt either succeeds or fails in one of the listed ways. *)
Lemma load_succeeds_or_fails w e :
  (exists cs, load_succeeds w e cs) \/ LoadFailure w e.
Proof.
  destruct (readFileSync w (schemaFile_of w e)) as [schemaText|err] eqn:E1;
    [|right; eapply schema_read_error; eassumption].
  destruct (JSON_parse w schemaText) as [schema|err] eqn:E2;
    [|right; eapply schema_parse_error; eassumption].
  destruct (ajv_compile w schema) as [validate|err] eqn:E3;
    [|right; eapply schema_compile_error; eassumption].
  destruct (readFileSync w (ruleFile_of w e)) as [ruleText|err] eqn:E4;
    [|right; eapply rules_read_error; eassumption].
  destruct (yaml_load w ruleText) as [ruleDoc|err] eqn:E5;
    [|right; eapply rules_parse_error; eassumption].
  destruct (validate ruleDoc) as [|messages] eqn:E6;
    [|right; eapply schema_violation; eassumption].
  destruct (rules_of w ruleDoc) as [rules|] eqn:E7;
    [|right; eapply rules_missing; eassumption].
  destruct (rmap (compile_rule w) rules) as [cs|err] eqn:E8;
    [|right; eapply expression_error; eassumption].
  left. exists cs, schemaText, schema, validate, ruleText, ruleDoc, rules.
  repeat split; assumption.
Qed.

Lemma reload_failure w e :
  LoadFailure w e ->
  exists msg, reload w e = set_compiled e [] (ErrorMessage msg).
Proof.
  intros F. unfold reload, reload_try.
  fold (schemaFile_of w e). fold (ruleFile_of w e). fold (compile_rule w).
  destruct F;
    repeat match goal with
           | H : _ = _ |- _ => rewrite H; clear H; cbn [rbind]
           end; eauto.
Qed.

(** With no compiled rule, [validate] returns the empty list. *)
Lemma validate_no_rule (ast : Ast) : snd (validate [] ast) = Ok [].
Proof. reflexivity. Qed.

(** C2.  When a load attempt fails, whatever rules the engine held before,
    [reload] shows one error message and leaves no compiled rule; a call
    of [validate] that follows returns the empty list for every Ast and
    does not throw. *)
Theorem reload_failure_leaves_no_rule w e :
  LoadFailure w e ->
  compiled (reload w e) = []
  /\ (exists msg, shown (reload w e) = shown e ++ [ErrorMessage msg])
  /\ forall ast, snd (validate (compiled (reload w e)) ast) = Ok [].
Proof.
  intros F. destruct (reload_failure F) as [msg ->]. simpl.
  split; [reflexivity|]. split; [now exists msg|]. intros ast. reflexivity.
Qed.

End ReloadFacts.

Lemma reload_failure_leaves_no_rule_witness :
  compiled (reload unreadable_world stale_engine) = []
  /\ (exists msg, shown (reload unreadable_world stale_engine)
                  = shown stale_engine ++ [ErrorMessage msg])
  /\ forall ast, snd (validate (compiled (reload unreadable_world stale_engine)) ast) = Ok [].
Proof.
  apply (@reload_failure_leaves_no_rule unit unit unreadable_world stale_engine).
  apply (@rules_read_error unit unit unreadable_world stale_engine
           (lit "{}") tt (fun _ => Valid) (lit "ENOENT")); reflexivity.
Defined.

(* ================================================================== *)
(** * The module header *)
(* ================================================================== *)

(** C4 as stated fails: on the one-line text [NS_RE] finds no namespace,
    since the word namespace does not start a line. *)
Lemma one_line_module_has_no_namespace :
  exec one_line_module NS_RE 0 = None
  /\ header_names one_line_module = Some (Some (Some (lit "foo"), None))
  /\ header_names one_line_module <> Some (Some (Some (lit "foo"), Some (lit "urn:x"))).
Proof. split; [|split]; vm_compute; (reflexivity || discriminate). Qed.

(** C4, amended.  For the one-line text the header has the module name
    foo and no namespace; with the namespace statement at the start of a
    line the header has the module name foo and the namespace urn:x. *)
Theorem module_header_of_foo :
  header_names one_line_module = Some (Some (Some (lit "foo"), None))
  /\ header_names three_line_module = Some (Some (Some (lit "foo"), Some (lit "urn:x"))).
Proof. split; vm_compute; reflexivity. Qed.

(* ================================================================== *)
(** * Properties of the quick fix *)
(* ================================================================== *)

Section QuickFix.

Lemma doc_le_lex (a b : Range) :
  doc_le a b <->
  (line (start a) < line (start b)
   \/ (line (start a) = line (start b) /\ character (start a) <= character (start b)))%Z.
Proof.
  unfold doc_le, compare_ranges.
  destruct (Z.eqb_spec (line (start a) - line (start b)) 0); lia.
Qed.

Lemma doc_le_trans (a b c : Range) : doc_le a b -> doc_le b c -> doc_le a c.
Proof. rewrite !doc_le_lex. lia. Qed.

Lemma doc_le_total (a b : Range) : ~ doc_le a b -> doc_le b a.
Proof. rewrite !doc_le_lex. lia. Qed.

Lemma sort_insert_perm (x : Range) (l : list Range) :
  Permutation (x :: l) (sort_insert compare_ranges x l).
Proof.
  induction l as [|y l IH]; simpl; [reflexivity|].
  destruct (compare_ranges x y <=? 0)%Z; [reflexivity|].
  rewrite perm_swap. now constructor.
Qed.

Lemma js_sort_perm (l : list Range) : Permutation l (js_sort compare_ranges l).
Proof.
  induction l as [|x l IH]; simpl; [constructor|].
  rewrite <- sort_insert_perm. now constructor.
Qed.

Lemma sort_insert_sorted (x : Range) (l : list Range) :
  StronglySorted doc_le l -> StronglySorted doc_le (sort_insert compare_ranges x l).
Proof.
  induction 1 as [|y l Hs IH Hall]; simpl.
  - repeat constructor.
  - destruct (Z.leb_spec (compare_ranges x y) 0) as [Hle|Hgt].
    + constructor; [now constructor|]. constructor; [exact Hle|].
      eapply Forall_impl; [|exact Hall]. intros z Hz. eapply doc_le_trans; eassumption.
    + constructor; [exact IH|].
      rewrite <- sort_insert_perm. constructor; [|exact Hall].
      apply doc_le_total. unfold doc_le. lia.
Qed.

Lemma js_sort_sorted (l : list Range) : StronglySorted doc_le (js_sort compare_ranges l).
Proof.
  induction l as [|x l IH]; simpl; [constructor|]. now apply sort_insert_sorted.
Qed.



Lemma offsetAt_loop_returns (lines : list jsstring) (count : nat) : forall i off,
  (i + count <= List.length lines)%nat ->
  exists off', offsetAt_loop lines count i off = Ok off'.
Proof.
  induction count as [|count IH]; intros i off H; simpl.
  - now exists off.
  - destruct (nth_error lines i) as [l|] eqn:E.
    + apply IH. lia.
    + apply nth_error_None in E. lia.
Qed.

Lemma offsetAt_returns (text : jsstring) (pos : Position) :
  (line pos <= Z.of_nat (List.length (split_lf text)))%Z ->
  exists off, offsetAt text pos = Ok off.
Proof.
  intros H. unfold offsetAt.
  destruct (@offsetAt_loop_returns (split_lf text) (Z.to_nat (line pos)) 0 0%Z) as [o ->];
    [lia|].
  simpl. eauto.
Qed.

Lemma body_of_returns (text innerIndent : jsstring) (r : Range) :
  within_text text r -> exists b, body_of text innerIndent r = Ok b.
Proof.
  intros [Hs He]. unfold body_of, textSlice.
  destruct (offsetAt_returns text (start r) Hs) as [a ->].
  destruct (offsetAt_returns text (end_ r) He) as [b ->].
  simpl. eauto.
Qed.

Lemma rmap_returns {A B : Type} (f : A -> result B) (l : list A) :
  (forall a, In a l -> exists b, f a = Ok b) ->
  exists bs, rmap f l = Ok bs /\ List.length bs = List.length l.
Proof.
  induction l as [|a l IH]; intros H; simpl.
  - now exists [].
  - destruct (H a (or_introl eq_refl)) as [b ->].
    destruct IH as (bs & -> & Hl); [intros; apply H; now right|].
    simpl. exists (b :: bs). simpl. now rewrite Hl.
Qed.




End QuickFix.

(* ================================================================== *)
(** * Properties of the pattern matcher *)
(* ================================================================== *)

Section Matcher.

Variable text : jsstring.

Lemma star_reaches (p : N -> bool) (k : cont) (rst : jsstring) :
  forall i cs res, star p k i rst cs = Some res ->
  reaches k {| pos := i; rest := rst; caps := cs |} 0 res.
Proof.
  induction rst as [|c tl IH]; intros i cs res H; simpl in H.
  - exists {| pos := i; rest := []; caps := cs |}. simpl. repeat split; (assumption || lia).
  - destruct (p c).
    + destruct (star p k (S i) tl cs) as [r|] eqn:E.
      * inversion H; subst. apply IH in E. destruct E as (s' & Hk & Hl & Hp).
        exists s'. simpl in *. repeat split; [exact Hk | lia | lia].
      * exists {| pos := i; rest := c :: tl; caps := cs |}. simpl. repeat split; (assumption || lia).
    + exists {| pos := i; rest := c :: tl; caps := cs |}. simpl. repeat split; (assumption || lia).
Qed.

Lemma rmatch_reaches (r : regex) : forall (k : cont) (s res : mstate),
  rmatch text r k s = Some res -> reaches k s (minlen r) res.
Proof.
  induction r as [|c|p|p|a IHa b IHb|a IHa b IHb|n a IHa|m|m]; intros k s res H; simpl in H.
  - exists s. simpl. repeat split; (assumption || lia).
  - destruct (rest s) as [|x tl] eqn:E; [discriminate|].
    destruct (N.eqb x (cu c)); [|discriminate].
    eexists. split; [exact H|]. simpl. rewrite E. simpl. lia.
  - destruct (rest s) as [|x tl] eqn:E; [discriminate|].
    destruct (p x); [|discriminate].
    eexists. split; [exact H|]. simpl. rewrite E. simpl. lia.
  - apply star_reaches in H. destruct s. exact H.
  - apply IHa in H. destruct H as (s1 & H1 & Hl1 & Hp1).
    apply IHb in H1. destruct H1 as (s2 & H2 & Hl2 & Hp2).
    exists s2. simpl. repeat split; [exact H2 | lia | lia].
  - destruct (rmatch text a k s) as [r1|] eqn:E.
    + inversion H; subst. apply IHa in E. destruct E as (s1 & H1 & Hl1 & Hp1).
      exists s1. simpl. repeat split; [exact H1 | lia | lia].
    + apply IHb in H. destruct H as (s1 & H1 & Hl1 & Hp1).
      exists s1. simpl. repeat split; [exact H1 | lia | lia].
  - apply IHa in H. destruct H as (s1 & H1 & Hl1 & Hp1).
    eexists. split; [exact H1|]. simpl. repeat split; (assumption || lia).
  - destruct (at_line_start m text (pos s)); [|discriminate].
    exists s. simpl. repeat split; (assumption || lia).
  - destruct (at_line_end m (rest s)); [|discriminate].
    exists s. simpl. repeat split; (assumption || lia).
Qed.

Lemma match_at_bounds (r : regex) (i : nat) (rst : jsstring) (m : rmatch_result) :
  match_at text r i rst = Some m ->
  index m = i /\ (i + minlen r <= end_index m <= i + List.length rst)%nat.
Proof.
  unfold match_at. intros H.
  destruct (rmatch text r (fun s => Some s) {| pos := i; rest := rst; caps := [] |})
    as [s|] eqn:E; [|discriminate].
  inversion H; subst. simpl. apply rmatch_reaches in E.
  destruct E as (s' & Hk & Hl & Hp). inversion Hk; subst. simpl in *. lia.
Qed.

Lemma search_bounds (r : regex) (rst : jsstring) : forall (i : nat) (m : rmatch_result),
  search text r i rst = Some m ->
  (i <= index m)%nat /\ (index m + minlen r <= end_index m <= i + List.length rst)%nat.
Proof.
  induction rst as [|c tl IH]; intros i m H; simpl in H.
  - destruct (match_at text r i []) as [m'|] eqn:E; [|discriminate].
    inversion H; subst. apply match_at_bounds in E. simpl in *. lia.
  - destruct (match_at text r i (c :: tl)) as [m'|] eqn:E.
    + inversion H; subst. apply match_at_bounds in E. simpl in *. lia.
    + apply IH in H. simpl. lia.
Qed.

Lemma exec_bounds (r : regex) (lastIndex : nat) (m : rmatch_result) :
  exec text r lastIndex = Some m ->
  (lastIndex <= index m)%nat
  /\ (index m + minlen r <= end_index m <= List.length text)%nat.
Proof.
  unfold exec. intros H.
  destruct (Nat.ltb_spec (List.length text) lastIndex); [discriminate|].
  apply search_bounds in H. rewrite length_skipn in H. lia.
Qed.

(** The loop [while ((m = re.exec(text)))] ends for a pattern that
    consumes a character: the fuel given by [exec_all] is enough. *)
Lemma exec_loop_returns (r : regex) : (1 <= minlen r)%nat ->
  forall (fuel lastIndex : nat),
    (lastIndex <= List.length text < lastIndex + fuel)%nat ->
  exists ms, exec_loop fuel text r lastIndex = Some ms /\ increasing_from text lastIndex ms.
Proof.
  intros Hmin. induction fuel as [|fuel IH]; intros lastIndex Hf.
  - lia.
  - simpl. destruct (exec text r lastIndex) as [m|] eqn:E.
    + apply exec_bounds in E.
      destruct (IH (end_index m)) as (ms & -> & Hs & Hall); [lia|].
      exists (m :: ms). split; [reflexivity|]. split.
      * simpl. constructor; [exact Hs|].
        rewrite Forall_map. eapply Forall_impl; [|exact Hall].
        intros m' Hm'. simpl in Hm'. lia.
      * constructor; [lia|]. eapply Forall_impl; [|exact Hall].
        intros m' Hm'. simpl in Hm'. lia.
    + exists []. repeat constructor.
Qed.

Lemma exec_all_returns (r : regex) : (1 <= minlen r)%nat ->
  exists ms, exec_all text r = Some ms /\ increasing_from text 0 ms.
Proof. intros H. apply exec_loop_returns; [exact H | lia]. Qed.

(** [matchAll] has fuel for every match: more fuel finds the same list. *)
Lemma matchAll_loop_fuel (r : regex) :
  forall (fuel lastIndex : nat), (List.length text + 1 < lastIndex + fuel)%nat ->
  matchAll_loop (S fuel) text r lastIndex = matchAll_loop fuel text r lastIndex.
Proof.
  induction fuel as [|fuel IH]; intros lastIndex Hf.
  - simpl. unfold exec. now destruct (Nat.ltb_spec (List.length text) lastIndex); [|lia].
  - cbn [matchAll_loop]. destruct (exec text r lastIndex) as [m|] eqn:E; [|reflexivity].
    apply exec_bounds in E. f_equal. apply IH.
    destruct (Nat.eqb_spec (end_index m) (index m)); lia.
Qed.

Lemma matchAll_loop_increasing (r : regex) : (1 <= minlen r)%nat ->
  forall (fuel lastIndex : nat), increasing_from text lastIndex (matchAll_loop fuel text r lastIndex).
Proof.
  intros Hmin. induction fuel as [|fuel IH]; intros lastIndex.
  - repeat constructor.
  - cbn [matchAll_loop]. destruct (exec text r lastIndex) as [m|] eqn:E;
      [|repeat constructor].
    apply exec_bounds in E.
    set (next := if (end_index m =? index m)%nat then S (end_index m) else end_index m).
    assert (Hnext : (index m < next)%nat).
    { unfold next. destruct (Nat.eqb_spec (end_index m) (index m)); lia. }
    destruct (IH next) as (Hs & Hall). split.
    + simpl. constructor; [exact Hs|].
      rewrite Forall_map. eapply Forall_impl; [|exact Hall].
      intros m' Hm'. simpl in Hm'. lia.
    + constructor; [lia|]. eapply Forall_impl; [|exact Hall].
      intros m' Hm'. simpl in Hm'. lia.
Qed.

(** The fuel of [matchAll] is enough: any larger fuel gives the same matches. *)
Lemma matchAll_fuel_enough (r : regex) (extra : nat) :
  matchAll_loop (extra + S (S (List.length text))) text r 0 = matchAll text r.
Proof.
  induction extra as [|extra IH]; [reflexivity|].
  cbn [Nat.add]. rewrite matchAll_loop_fuel by lia. exact IH.
Qed.

(** The fuel of [exec_all] is enough as well. *)
Lemma exec_all_fuel_enough (r : regex) (extra : nat) : (1 <= minlen r)%nat ->
  exec_loop (extra + S (List.length text)) text r 0 = exec_all text r.
Proof.
  intros Hmin. unfold exec_all.
  assert (H : forall fuel lastIndex ms, exec_loop fuel text r lastIndex = Some ms ->
                                        exec_loop (S fuel) text r lastIndex = Some ms).
  { induction fuel as [|fuel IH]; intros lastIndex ms H; [discriminate|].
    cbn [exec_loop] in *. destruct (exec text r lastIndex) as [m|]; [|exact H].
    destruct (exec_loop fuel text r (end_index m)) as [ms'|] eqn:E; [|discriminate].
    now rewrite (IH _ _ E). }
  destruct (@exec_loop_returns r Hmin (S (List.length text)) 0 ltac:(lia)) as (ms & Hms & _).
  rewrite Hms. induction extra as [|extra IH]; [exact Hms|].
  cbn [Nat.add]. now apply H.
Qed.

End Matcher.

(* ================================================================== *)
(** * Positions *)
(* ================================================================== *)

Section Positions.

Lemma split_lf_acc_nonempty (t cur : jsstring) : split_lf_acc cur t <> [].
Proof.
  revert cur. induction t as [|x tl IH]; intros cur; simpl; [discriminate|].
  destruct (N.eqb x (cu LF)); [discriminate | apply IH].
Qed.

Lemma last_cons_nonempty {A : Type} (a : A) (l : list A) (d : A) :
  l <> [] -> last (a :: l) d = last l d.
Proof. destruct l; [congruence | reflexivity]. Qed.

(** [split('\n')] against the scan of the line and the column. *)
Lemma split_lf_acc_scan (t : jsstring) : forall cur,
  List.length (split_lf_acc cur t) = S (fst (scan_pos t (List.length cur)))
  /\ List.length (last (split_lf_acc cur t) []) = snd (scan_pos t (List.length cur)).
Proof.
  induction t as [|x tl IH]; intros cur; cbn [split_lf_acc scan_pos].
  - simpl. now rewrite length_rev.
  - destruct (N.eqb x (cu LF)).
    + destruct (IH []) as [H1 H2]. cbn [List.length] in H1, H2.
      rewrite last_cons_nonempty by apply split_lf_acc_nonempty.
      destruct (scan_pos tl 0) as [l c]. cbn [fst snd List.length] in *.
      now rewrite H1, H2.
    + apply (IH (x :: cur)).
Qed.

Lemma idxToPos_scan (text : jsstring) (i : nat) :
  (i <= List.length text)%nat ->
  idxToPos text (Z.of_nat i) =
  {| line := Z.of_nat (fst (scan_pos (firstn i text) 0));
     character := Z.of_nat (snd (scan_pos (firstn i text) 0)) |}.
Proof.
  intros Hi. unfold idxToPos, js_slice, clamp, len.
  change (0 <? 0)%Z with false. cbv iota.
  destruct (Z.ltb_spec (Z.of_nat i) 0); [lia|].
  rewrite Z.min_l by lia. rewrite (Z.min_l 0) by lia.
  change (Z.to_nat 0) with 0%nat. rewrite skipn_O, Z.sub_0_r, Nat2Z.id.
  destruct (split_lf_acc_scan (firstn i text) []) as [H1 H2].
  unfold split_lf. rewrite H1, H2. simpl List.length. f_equal. lia.
Qed.

Lemma scan_pos_start (t : jsstring) : forall c0,
  (0, c0) = scan_pos t c0 \/ lex_lt (0%nat, c0) (scan_pos t c0).
Proof.
  induction t as [|x tl IH]; intros c0; simpl; [now left|].
  destruct (N.eqb x (cu LF)).
  - right. destruct (scan_pos tl 0). left. simpl. lia.
  - right. destruct (IH (S c0)) as [<- | [H | [H1 H2]]].
    + right. simpl. lia.
    + left. exact H.
    + right. simpl in *. lia.
Qed.

(** Reading more characters moves the position forward. *)
Lemma scan_pos_app (a d : jsstring) : d <> [] -> forall c0,
  lex_lt (scan_pos a c0) (scan_pos (a ++ d) c0).
Proof.
  intros Hd. induction a as [|x a IH]; intros c0; simpl.
  - destruct d as [|y d]; [congruence|]. simpl.
    destruct (N.eqb y (cu LF)).
    + destruct (scan_pos d 0). left. simpl. lia.
    + destruct (scan_pos_start d (S c0)) as [<- | [H | [H1 H2]]].
      * right. simpl. lia.
      * left. exact H.
      * right. simpl in *. lia.
  - destruct (N.eqb x (cu LF)).
    + specialize (IH 0%nat).
      destruct (scan_pos a 0) as [l c], (scan_pos (a ++ d) 0) as [l' c'].
      unfold lex_lt in *. simpl in *. lia.
    + apply IH.
Qed.

(** [idxToPos] is increasing on the indices of the text. *)
Lemma idxToPos_increasing (text : jsstring) (i j : nat) :
  (i < j <= List.length text)%nat ->
  pos_lt (idxToPos text (Z.of_nat i)) (idxToPos text (Z.of_nat j)).
Proof.
  intros H. rewrite !idxToPos_scan by lia.
  assert (Hsplit : firstn j text = firstn i text ++ firstn (j - i) (skipn i text)).
  { rewrite <- (firstn_skipn i text) at 1.
    replace j with (List.length (firstn i text) + (j - i))%nat at 1
      by (rewrite length_firstn; lia).
    apply firstn_app_2. }
  rewrite Hsplit.
  assert (Hd : firstn (j - i) (skipn i text) <> []).
  { intros E. apply (f_equal (@List.length N)) in E.
    rewrite length_firstn, length_skipn in E. simpl in E. lia. }
  pose proof (scan_pos_app (firstn i text) Hd 0) as L.
  unfold pos_lt, lex_lt in *. simpl. lia.
Qed.

Lemma pos_lt_irrefl (p : Position) : ~ pos_lt p p.
Proof. unfold pos_lt. lia. Qed.

Lemma pos_lt_trans (p q r : Position) : pos_lt p q -> pos_lt q r -> pos_lt p r.
Proof. unfold pos_lt. lia. Qed.

End Positions.

(* ================================================================== *)
(** * The deviation nodes *)
(* ================================================================== *)

Section Deviations.

Implicit Types (n : DeviationNode.t) (m : list (jsstring * list DeviationNode.t)).

Lemma existsb_eqb_In (t : jsstring) (seen : list jsstring) :
  existsb (jsstring_eqb t) seen = true <-> In t seen.
Proof.
  rewrite existsb_exists. split.
  - intros (x & Hx & E). apply jsstring_eqb_true in E. now subst.
  - intros H. exists t. split; [exact H | apply jsstring_eqb_refl].
Qed.

Lemma jsstring_eqb_false (a b : jsstring) : jsstring_eqb a b = false <-> a <> b.
Proof.
  unfold jsstring_eqb. destruct (jsstring_eq_dec a b); split; congruence.
Qed.

Lemma push_on_absent (t : jsstring) n m :
  ~ In t (map fst m) -> map (push_on t n) m = m.
Proof.
  induction m as [|[k v] m IH]; intros H; simpl; [reflexivity|].
  simpl in H. unfold push_on at 1. simpl.
  destruct (jsstring_eqb k t) eqn:E.
  - apply jsstring_eqb_true in E. tauto.
  - f_equal. apply IH. tauto.
Qed.

Lemma add_deviation_present n m :
  NoDup (map fst m) -> In (DeviationNode.target n) (map fst m) ->
  add_deviation m n = map (push_on (DeviationNode.target n) n) m.
Proof.
  unfold add_deviation. set (t := DeviationNode.target n).
  induction m as [|[k v] m IH]; intros Hnd Hin; simpl in *; [contradiction|].
  inversion Hnd as [|? ? Hk Hnd']; subst.
  unfold push_on at 1. simpl.
  destruct (jsstring_eqb k t) eqn:E.
  - apply jsstring_eqb_true in E. subst k.
    now rewrite push_on_absent.
  - f_equal. apply IH; [exact Hnd'|].
    destruct Hin as [-> | Hin]; [|exact Hin].
    now rewrite jsstring_eqb_refl in E.
Qed.

Lemma add_deviation_absent n m :
  ~ In (DeviationNode.target n) (map fst m) ->
  add_deviation m n = m ++ [(DeviationNode.target n, [n])].
Proof.
  unfold add_deviation. set (t := DeviationNode.target n).
  induction m as [|[k v] m IH]; intros Hin; simpl in *; [reflexivity|].
  destruct (jsstring_eqb k t) eqn:E.
  - apply jsstring_eqb_true in E. tauto.
  - f_equal. apply IH. tauto.
Qed.

Lemma first_targets_fresh (nodes : list DeviationNode.t) : forall seen t,
  In t (first_targets seen nodes) -> ~ In t seen.
Proof.
  induction nodes as [|n nodes IH]; intros seen t H; simpl in H; [contradiction|].
  destruct (existsb (jsstring_eqb (DeviationNode.target n)) seen) eqn:E.
  - now apply IH.
  - destruct H as [<- | H].
    + intros Hin. apply existsb_eqb_In in Hin. congruence.
    + apply IH in H. intros Hin. apply H. apply in_or_app. now left.
Qed.

Lemma first_targets_new (nodes : list DeviationNode.t) : forall seen t u,
  In t (first_targets (seen ++ [u]) nodes) -> t <> u.
Proof.
  intros seen t u H E. apply first_targets_fresh in H. apply H.
  apply in_or_app. right. now left.
Qed.

Lemma filter_skip (t : jsstring) n (nodes : list DeviationNode.t) :
  DeviationNode.target n <> t ->
  filter (has_target t) (n :: nodes) = filter (has_target t) nodes.
Proof.
  intros H. simpl. unfold has_target at 1.
  apply jsstring_eqb_false in H. now rewrite H.
Qed.

Lemma filter_take n (nodes : list DeviationNode.t) :
  filter (has_target (DeviationNode.target n)) (n :: nodes) =
  n :: filter (has_target (DeviationNode.target n)) nodes.
Proof. simpl. unfold has_target at 1. now rewrite jsstring_eqb_refl. Qed.

(** The map after the deviation loop: the entries it had, each with the
    nodes of its target pushed in order, then one entry for each new
    target, in the order of first occurrence. *)
Lemma fold_add_deviation (nodes : list DeviationNode.t) : forall m,
  NoDup (map fst m) ->
  fold_left add_deviation nodes m =
  map (fun kv => (fst kv, snd kv ++ filter (has_target (fst kv)) nodes)) m
  ++ map (fun t => (t, filter (has_target t) nodes)) (first_targets (map fst m) nodes).
Proof.
  induction nodes as [|n nodes IH]; intros m Hnd.
  - simpl. rewrite app_nil_r. rewrite <- (map_id m) at 1.
    apply map_ext. intros [k v]. simpl. now rewrite app_nil_r.
  - cbn [fold_left first_targets].
    destruct (existsb (jsstring_eqb (DeviationNode.target n)) (map fst m)) eqn:E.
    + apply existsb_eqb_In in E.
      rewrite add_deviation_present by assumption.
      assert (Hkeys : map fst (map (push_on (DeviationNode.target n) n) m) = map fst m).
      { rewrite map_map. apply map_ext. intros [k v]. unfold push_on. simpl.
        now destruct (jsstring_eqb k (DeviationNode.target n)). }
      rewrite IH by (now rewrite Hkeys). rewrite Hkeys. f_equal.
      * rewrite map_map. apply map_ext. intros [k v]. unfold push_on. cbn [fst snd].
        destruct (jsstring_eqb k (DeviationNode.target n)) eqn:Ek; cbn [fst snd].
        -- apply jsstring_eqb_true in Ek. subst k.
           now rewrite filter_take, <- app_assoc.
        -- apply jsstring_eqb_false in Ek.
           rewrite filter_skip by congruence. reflexivity.
      * apply map_ext_in. intros t Ht. apply first_targets_fresh in Ht.
        rewrite filter_skip; [reflexivity|]. congruence.
    + assert (Hnew : ~ In (DeviationNode.target n) (map fst m)).
      { intros Hin. apply existsb_eqb_In in Hin. congruence. }
      rewrite add_deviation_absent by assumption.
      assert (Hkeys : map fst (m ++ [(DeviationNode.target n, [n])])
                      = map fst m ++ [DeviationNode.target n]).
      { now rewrite map_app. }
      rewrite IH.
      2:{ rewrite Hkeys. apply NoDup_app; [exact Hnd | repeat constructor; auto |].
          intros x Hx [<- | []]. contradiction. }
      rewrite Hkeys, map_app, <- app_assoc. f_equal.
      * apply map_ext_in. intros [k v] Hkv. cbn [fst snd].
        rewrite filter_skip; [reflexivity|].
        intros Ek. apply Hnew. subst k. now apply (in_map fst) in Hkv.
      * cbn [map app fst snd]. rewrite filter_take. f_equal.
        apply map_ext_in. intros t Ht. apply first_targets_new in Ht.
        rewrite filter_skip; [reflexivity|]. congruence.
Qed.

(** The collection is the sequence of the groups: for each target, in the
    order of first occurrence, its nodes in the order of the loop. *)
Lemma group_deviations_groups (nodes : list DeviationNode.t) :
  group_deviations nodes =
  flat_map (fun t => mark_duplicates (filter (has_target t) nodes)) (first_targets [] nodes).
Proof.
  unfold group_deviations, map_values.
  rewrite fold_add_deviation by constructor. simpl.
  rewrite flat_map_concat_map, !map_map. reflexivity.
Qed.

Lemma mark_duplicates_cons n (l : list DeviationNode.t) :
  mark_duplicates (n :: l) = n :: map set_duplicate l.
Proof. unfold mark_duplicates. destruct l; reflexivity. Qed.

Lemma StronglySorted_filter {A : Type} (R : A -> A -> Prop) (f : A -> bool) (l : list A) :
  StronglySorted R l -> StronglySorted R (filter f l).
Proof.
  induction 1 as [|a l Hs IH Hall]; simpl; [constructor|].
  destruct (f a); [|exact IH]. constructor; [exact IH|].
  rewrite Forall_forall in *. intros x Hx. apply filter_In in Hx. now apply Hall.
Qed.

Lemma in_mark_duplicates n (l : list DeviationNode.t) :
  In n (mark_duplicates l) ->
  exists a tl, l = a :: tl /\ (n = a \/ exists b, In b tl /\ n = set_duplicate b).
Proof.
  destruct l as [|a tl]; [intros []|].
  rewrite mark_duplicates_cons. intros [-> | H].
  - exists n, tl. auto.
  - apply in_map_iff in H. destruct H as (b & <- & Hb).
    exists a, tl. split; [reflexivity|]. right. now exists b.
Qed.

Lemma in_group_deviations n (nodes : list DeviationNode.t) :
  In n (group_deviations nodes) <->
  exists t, In t (first_targets [] nodes)
            /\ In n (mark_duplicates (filter (has_target t) nodes)).
Proof. rewrite group_deviations_groups. apply in_flat_map. Qed.

Lemma first_targets_complete (nodes : list DeviationNode.t) : forall seen n,
  In n nodes -> ~ In (DeviationNode.target n) seen ->
  In (DeviationNode.target n) (first_targets seen nodes).
Proof.
  induction nodes as [|x nodes IH]; intros seen n Hin Hs; [contradiction|].
  simpl. destruct (existsb (jsstring_eqb (DeviationNode.target x)) seen) eqn:E.
  - destruct Hin as [-> | Hin]; [|now apply IH].
    apply existsb_eqb_In in E. contradiction.
  - destruct Hin as [-> | Hin]; [now left|].
    destruct (jsstring_eq_dec (DeviationNode.target x) (DeviationNode.target n)) as [Heq|Hne].
    + left. exact Heq.
    + right. apply IH; [exact Hin|]. intros H. apply in_app_or in H.
      destruct H as [H | [H | []]]; [contradiction | congruence].
Qed.

(** C3 and C10 on a list of nodes: the nodes are in document order and
    none is flagged yet, as the deviation loop leaves them. *)
Section Flags.

Variable nodes : list DeviationNode.t.
Hypothesis unflagged : Forall (fun n => DeviationNode.duplicate n = false) nodes.
Hypothesis in_order : StronglySorted starts_before nodes.

Lemma group_shape (t : jsstring) n :
  In n (mark_duplicates (filter (has_target t) nodes)) ->
  DeviationNode.target n = t
  /\ exists a tl, filter (has_target t) nodes = a :: tl
       /\ DeviationNode.target a = t
       /\ DeviationNode.duplicate a = false
       /\ Forall (starts_before a) tl
       /\ ((n = a)
           \/ (DeviationNode.duplicate n = true /\ starts_before a n)).
Proof.
  intros H. apply in_mark_duplicates in H.
  destruct H as (a & tl & Hl & Hn).
  assert (Ha : In a (filter (has_target t) nodes)) by (rewrite Hl; now left).
  apply filter_In in Ha. destruct Ha as [Ha_in Ha_t].
  apply jsstring_eqb_true in Ha_t.
  pose proof (StronglySorted_filter (has_target t) in_order) as Hs.
  rewrite Hl in Hs. apply StronglySorted_inv in Hs. destruct Hs as [_ Hall].
  pose proof (proj1 (Forall_forall _ _) unflagged) as Hunflagged.
  assert (Hshape : DeviationNode.target n = t
                   /\ (n = a \/ (DeviationNode.duplicate n = true /\ starts_before a n))).
  { destruct Hn as [-> | (b & Hb & ->)]; [now split; [|left]|].
    assert (Hb' : In b (filter (has_target t) nodes)) by (rewrite Hl; now right).
    apply filter_In in Hb'. destruct Hb' as [_ Hb_t]. apply jsstring_eqb_true in Hb_t.
    split; [exact Hb_t|]. right. split; [reflexivity|].
    rewrite Forall_forall in Hall. apply (Hall b Hb). }
  destruct Hshape as [Ht Hcase]. split; [exact Ht|].
  exists a, tl. repeat split; auto.
Qed.

Lemma duplicate_iff_later n :
  In n (group_deviations nodes) ->
  (DeviationNode.duplicate n = true <->
   exists n', In n' (group_deviations nodes)
              /\ DeviationNode.target n' = DeviationNode.target n
              /\ starts_before n' n).
Proof.
  intros Hin. apply in_group_deviations in Hin. destruct Hin as (t & Ht & Hn).
  pose proof (group_shape t n Hn) as (Htn & a & tl & Hl & Hat & Had & Hall & Hcase).
  split.
  - intros Hdup. destruct Hcase as [-> | [_ Hlt]]; [congruence|].
    exists a. split; [|split; [congruence | exact Hlt]].
    apply in_group_deviations. exists t. split; [exact Ht|].
    rewrite Hl, mark_duplicates_cons. now left.
  - intros (n' & Hin' & Ht' & Hlt).
    destruct Hcase as [-> | [Hdup _]]; [|exact Hdup].
    exfalso. apply in_group_deviations in Hin'. destruct Hin' as (t' & _ & Hn').
    pose proof (group_shape t' n' Hn') as (Htn' & a' & tl' & Hl' & _ & _ & _ & Hcase').
    assert (E : t' = t) by congruence. rewrite E in Hl'.
    rewrite Hl in Hl'. inversion Hl'; subst a' tl'.
    unfold starts_before in *.
    destruct Hcase' as [-> | [_ Hlt']].
    + now apply pos_lt_irrefl in Hlt.
    + apply (@pos_lt_irrefl (dev_start a)). eapply pos_lt_trans; eassumption.
Qed.

End Flags.

(** ** The loops of [parseYang] end *)

Lemma omap_Forall2 {A B : Type} (f : A -> option B) (P : A -> B -> Prop) (l : list A) :
  (forall a, In a l -> exists b, f a = Some b /\ P a b) ->
  exists bs, omap f l = Some bs /\ Forall2 P l bs.
Proof.
  induction l as [|a l IH]; intros H; simpl.
  - exists []. now split.
  - destruct (H a (or_introl eq_refl)) as (b & -> & Hb).
    destruct IH as (bs & -> & Hbs); [intros; apply H; now right|].
    simpl. exists (b :: bs). split; [reflexivity | now constructor].
Qed.

Lemma omap_total {A B : Type} (f : A -> option B) (l : list A) :
  (forall a, exists b, f a = Some b) -> exists bs, omap f l = Some bs.
Proof.
  intros H. destruct (@omap_Forall2 _ _ f (fun _ _ => True) l) as (bs & Hbs & _).
  - intros a _. destruct (H a) as [b Hb]. eauto.
  - eauto.
Qed.

Lemma braces_total (text : jsstring) (m : rmatch_result) :
  exists open close, braces text m = Some (open, close).
Proof.
  unfold braces.
  destruct (findMatchingBrace_total text (js_indexOf text "{" (index m))) as [close ->].
  simpl. eauto.
Qed.

Lemma parse_typedefs_total (text : jsstring) : exists l, parse_typedefs text = Some l.
Proof.
  unfold parse_typedefs.
  destruct (@exec_all_returns text TYPEDEF_START_RE) as (ms & -> & _); [simpl; lia|].
  simpl. apply omap_total.
  intros tm. destruct (braces_total text tm) as (open & close & ->). simpl. eauto.
Qed.

Lemma parse_lists_total (text : jsstring) : exists l, parse_lists text = Some l.
Proof.
  unfold parse_lists.
  destruct (@exec_all_returns text LIST_START_RE) as (ms & -> & _); [simpl; lia|].
  simpl. apply omap_total.
  intros lm. destruct (braces_total text lm) as (open & close & ->). simpl. eauto.
Qed.

Lemma parse_blocks_total (text : jsstring) : exists l, parse_blocks text = Some l.
Proof.
  unfold parse_blocks.
  destruct (@exec_all_returns text DESC_BLOCK_RE) as (ms & -> & _); [simpl; lia|].
  simpl. apply omap_total.
  intros bm. destruct (braces_total text bm) as (open & close & ->). simpl. eauto.
Qed.

Lemma parse_constraintNodes_total (text : jsstring) :
  exists l, parse_constraintNodes text = Some l.
Proof.
  unfold parse_constraintNodes.
  destruct (@exec_all_returns text CONSTRAINT_START_RE) as (ms & -> & _); [simpl; lia|].
  simpl. apply omap_total.
  intros cm. destruct (braces_total text cm) as (open & close & ->). simpl. eauto.
Qed.

(** The deviation loop ends, and leaves its nodes unflagged and in
    document order. *)
Lemma deviation_nodes_in_order (text : jsstring) :
  exists nodes, deviation_nodes text = Some nodes
    /\ Forall (fun n => DeviationNode.duplicate n = false) nodes
    /\ StronglySorted starts_before nodes.
Proof.
  unfold deviation_nodes.
  destruct (@exec_all_returns text DEVIATION_START_RE) as (ms & -> & Hs & Hb);
    [simpl; lia|].
  cbn [obind].
  destruct (@omap_Forall2 _ _
              (fun dm => oc <- braces text dm ;;
                         let '(_, close) := oc in
                         Some {| DeviationNode.target := group1 text dm 1;
                                 DeviationNode.range := block_range text dm close;
                                 DeviationNode.duplicate := false |})
              (fun dm n => DeviationNode.duplicate n = false
                           /\ dev_start n = idxToPos text (Z.of_nat (index dm))) ms)
    as (nodes & -> & HF).
  { intros dm _. destruct (braces_total text dm) as (open & close & ->). simpl. eauto. }
  exists nodes. split; [reflexivity|].
  clear -Hs Hb HF. induction HF as [|dm n ms nodes [Hd Hp] HF IH].
  - split; constructor.
  - simpl in Hs. inversion Hs as [|? ? Hs' Hlt]; subst.
    inversion Hb as [|? ? Hdm Hb']; subst.
    destruct (IH Hs' Hb') as [IH1 IH2]. split; [now constructor|].
    constructor; [exact IH2|].
    clear -Hlt Hb' HF Hp Hdm. rewrite Forall_map in Hlt.
    induction HF as [|dm' n' ms nodes [_ Hp'] HF IH]; constructor.
    + inversion Hlt; subst. inversion Hb'; subst.
      unfold starts_before. rewrite Hp, Hp'. apply idxToPos_increasing. lia.
    + inversion Hlt; subst. inversion Hb'; subst. now apply IH.
Qed.

(** The imports are in document order. *)
Lemma parse_imports_in_order (text : jsstring) :
  StronglySorted (fun a b => pos_lt (import_start a) (import_start b)) (parse_imports text).
Proof.
  unfold parse_imports, matchAll.
  destruct (@matchAll_loop_increasing text IMPORT_RE ltac:(simpl; lia)
              (S (S (List.length text))) 0) as [Hs Hb].
  induction (matchAll_loop (S (S (List.length text))) text IMPORT_RE 0) as [|m ms IH];
    simpl; [constructor|].
  simpl in Hs. inversion Hs as [|? ? Hs' Hlt]; subst.
  inversion Hb as [|? ? Hm Hb']; subst.
  constructor; [now apply IH|].
  rewrite Forall_map. rewrite Forall_map in Hlt.
  rewrite Forall_forall in *. intros m' Hm'.
  unfold import_start. simpl. apply idxToPos_increasing.
  specialize (Hlt m' Hm'). specialize (Hb' m' Hm'). simpl in *. lia.
Qed.

Lemma optional_nonempty {A : Type} (l : list A) : optional (nonempty l) = l.
Proof. now destruct l. Qed.

(** [parseYang] returns an Ast for every text; its imports and its
    deviations are those of the two loops. *)
Lemma parseYang_total (text : jsstring) :
  exists ast nodes,
    parseYang text = Some ast
    /\ deviation_nodes text = Some nodes
    /\ moduleHeader ast = parse_moduleHeader text
    /\ optional (imports ast) = parse_imports text
    /\ optional (deviations ast) = group_deviations nodes.
Proof.
  unfold parseYang, parse_deviations.
  destruct (parse_typedefs_total text) as [ts ->].
  destruct (parse_lists_total text) as [ls ->].
  destruct (deviation_nodes_in_order text) as (nodes & Hn & _).
  rewrite Hn.
  destruct (parse_blocks_total text) as [bs ->].
  destruct (parse_constraintNodes_total text) as [cs ->].
  cbn [obind]. eexists. exists nodes. split; [reflexivity|].
  cbn [moduleHeader imports deviations]. rewrite !optional_nonempty. auto.
Qed.

End Deviations.

(* ================================================================== *)
(** * The deviations of the Ast *)
(* ================================================================== *)

(** C3.  [parseYang] returns an Ast for every text, and in it a deviation
    node is flagged as duplicate exactly when another deviation node of the
    Ast has the same target and starts before it in the document, that is
    when it is not the first node of its target in document order.  Three
    blocks of one target have the flags false, true, true. *)
Theorem duplicate_iff_not_first_of_target :
  (forall text : jsstring,
      exists ast, parseYang text = Some ast
        /\ forall n, In n (optional (deviations ast)) ->
             (DeviationNode.duplicate n = true <->
              exists n', In n' (optional (deviations ast))
                         /\ DeviationNode.target n' = DeviationNode.target n
                         /\ pos_lt (dev_start n') (dev_start n)))
  /\ of_deviations DeviationNode.duplicate three_same_target = Some [false; true; true]
  /\ of_deviations (fun n => line (dev_start n)) three_same_target = Some [0; 1; 2]%Z.
Proof.
  split; [|split; vm_compute; reflexivity].
  intros text.
  destruct (parseYang_total text) as (ast & nodes & Hp & Hn & _ & _ & Hd).
  destruct (deviation_nodes_in_order text) as (nodes' & Hn' & Hun & Hs).
  assert (nodes' = nodes) by congruence. subst nodes'.
  exists ast. split; [exact Hp|]. rewrite Hd.
  intros n Hin. now apply duplicate_iff_later.
Qed.

(** C10.  The deviations of the Ast are grouped by target: the collection
    is, for each target in the order of its first occurrence, the nodes of
    that target in document order, the groups one after the other.  The
    imports are in document order.  With interleaved targets the deviations
    are therefore not in document order: the blocks of /a, /b, /a on lines
    1, 3, 4 come out on lines 1, 4, 3, while the imports stay on lines
    0, 2. *)
Theorem deviations_grouped_by_target :
  (forall text : jsstring,
      exists ast nodes,
        parseYang text = Some ast
        /\ deviation_nodes text = Some nodes
        /\ StronglySorted (fun a b => pos_lt (dev_start a) (dev_start b)) nodes
        /\ optional (deviations ast) =
           flat_map (fun t => mark_duplicates (filter (has_target t) nodes))
                    (first_targets [] nodes)
        /\ StronglySorted (fun a b => pos_lt (start (ImportNode.range a))
                                             (start (ImportNode.range b)))
                          (optional (imports ast)))
  /\ of_deviations DeviationNode.target interleaved_targets
     = Some [lit "/a"; lit "/a"; lit "/b"]
  /\ of_deviations (fun n => line (dev_start n)) interleaved_targets = Some [1; 4; 3]%Z
  /\ of_imports (fun n => line (start (ImportNode.range n))) interleaved_targets
     = Some [0; 2]%Z.
Proof.
  split; [|split; [|split]; vm_compute; reflexivity].
  intros text.
  destruct (parseYang_total text) as (ast & nodes & Hp & Hn & _ & Hi & Hd).
  destruct (deviation_nodes_in_order text) as (nodes' & Hn' & _ & Hs).
  assert (nodes' = nodes) by congruence. subst nodes'.
  exists ast, nodes. split; [exact Hp|]. split; [exact Hn|]. split; [exact Hs|].
  split.
  - rewrite Hd. apply group_deviations_groups.
  - rewrite Hi. apply parse_imports_in_order.
Qed.

(* ================================================================== *)
(** * Further properties of the brace matcher *)
(* ================================================================== *)

Section BraceMatcherMore.

Import OnSuffix.

Lemma for_body_return (text : jsstring) (st : S.t) (depth i r : Z) :
  for_body text st depth i = Return r ->
  r = i /\ is_ch (js_index text i) "}" = true.
Proof.
  unfold for_body. intros H.
  destruct st;
    repeat match type of H with
           | (if ?b then _ else _) = _ => destruct b eqn:?
           end; try discriminate.
  inversion H. auto.
Qed.

Lemma for_loop_result (fuel : nat) : forall (text : jsstring) (st : S.t) (depth i r : Z),
  for_loop fuel text st depth i = Some r ->
  r = (len text - 1)%Z
  \/ ((i <= r < len text)%Z /\ is_ch (js_index text r) "}" = true).
Proof.
  induction fuel as [|fuel IH]; intros text st depth i r H.
  - simpl in H. destruct (Z.ltb_spec i (len text)); [discriminate|].
    left. now inversion H.
  - destruct (Z.lt_ge_cases i (len text)) as [Hlt|Hge].
    + rewrite for_loop_step in H by exact Hlt.
      destruct (for_body text st depth i) as [r'|st' depth' i'] eqn:Hb.
      * inversion H; subst r'. apply for_body_return in Hb. destruct Hb as [-> Hc].
        right. split; [lia | exact Hc].
      * apply for_body_advances in Hb. apply IH in H.
        destruct H as [H | [H1 H2]]; [now left|]. right. split; [lia | exact H2].
    + rewrite for_loop_end in H by exact Hge. left. now inversion H.
Qed.

(** X1.  For every text and every start index, [findMatchingBrace] returns
    either the last index of the text or an index after [openIdx] that
    holds a closing brace; the index it returns is never past the end of
    the text. *)
Theorem findMatchingBrace_in_bounds (text : jsstring) (openIdx : Z) :
  exists r, findMatchingBrace text openIdx = Some r
    /\ (r <= len text - 1)%Z
    /\ (r = (len text - 1)%Z
        \/ ((openIdx < r)%Z /\ js_index text r = Some (cu "}"))).
Proof.
  destruct (findMatchingBrace_total text openIdx) as [r Hr].
  exists r. split; [exact Hr|].
  unfold findMatchingBrace in Hr. apply for_loop_result in Hr.
  destruct Hr as [-> | [Hb Hc]].
  - split; [lia | now left].
  - split; [lia|]. right. split; [lia|].
    destruct (js_index text r) as [c|]; [|discriminate].
    simpl in Hc. apply N.eqb_eq in Hc. now subst.
Qed.

(** An index at which the loop returns stays the same when the text goes on. *)
Lemma scan_extend (n : nat) : forall (rest extra : jsstring) (st : S.t) (d k : nat),
  (List.length rest <= n)%nat -> scan st d rest = Some k ->
  scan st d (rest ++ extra) = Some k.
Proof.
  induction n as [|n IH]; intros rest extra st d k Hn Hs.
  - destruct rest; [discriminate | simpl in Hn; lia].
  - destruct rest as [|c tl]; [discriminate|]. simpl in Hn.
    assert (IH1 : forall m' d' k', option_map S (scan m' d' tl) = Some k' ->
                  option_map S (scan m' d' (tl ++ extra)) = Some k').
    { intros m' d' k' H. destruct (scan m' d' tl) as [k0|] eqn:E; [|discriminate].
      now rewrite (IH tl extra m' d' k0 ltac:(lia) E). }
    assert (IH2 : forall c2 tl2 m' d' k', tl = c2 :: tl2 ->
                  option_map (fun x => 2 + x)%nat (scan m' d' tl2) = Some k' ->
                  option_map (fun x => 2 + x)%nat (scan m' d' (tl2 ++ extra)) = Some k').
    { intros c2 tl2 m' d' k' -> H.
      destruct (scan m' d' tl2) as [k0|] eqn:E; [|discriminate].
      now rewrite (IH tl2 extra m' d' k0 ltac:(simpl in Hn; lia) E). }
    destruct st; simpl in Hs |- *.
    + destruct (eqc c "{"); [now apply IH1|].
      destruct (eqc c "}"); [destruct d; [exact Hs | now apply IH1]|].
      destruct (eqc c "/").
      { destruct tl as [|c2 tl2]; [discriminate|]. cbn [app].
        destruct (eqc c2 "/"); [now apply (IH2 c2 tl2)|].
        destruct (eqc c2 "*"); [now apply (IH2 c2 tl2)|].
        now apply (IH1 S.CODE). }
      destruct (eqc c DQUOTE); [now apply IH1|].
      destruct (eqc c "'"); now apply IH1.
    + destruct (eqc c LF); now apply IH1.
    + destruct tl as [|c2 tl2]; [discriminate|]. cbn [app].
      destruct (eqc c "*" && eqc c2 "/"); [now apply (IH2 c2 tl2)|].
      now apply (IH1 S.BLOCK_COMMENT).
    + destruct (eqc c DQUOTE); [now apply IH1|].
      destruct (eqc c BACKSLASH); [|now apply IH1].
      destruct tl as [|c2 tl2]; [discriminate|]. cbn [app].
      destruct (eqc c2 DQUOTE); [now apply (IH2 c2 tl2)|].
      now apply (IH1 S.DQ_STRING).
    + destruct (eqc c "'"); [now apply IH1|].
      destruct (eqc c BACKSLASH); [|now apply IH1].
      destruct tl as [|c2 tl2]; [discriminate|]. cbn [app].
      destruct (eqc c2 "'"); [now apply (IH2 c2 tl2)|].
      now apply (IH1 S.SQ_STRING).
Qed.

(** X2.  A closing brace found before the last index of the text does not
    depend on what follows it: with any text appended, [findMatchingBrace]
    returns the same index. *)
Theorem findMatchingBrace_stable_under_append
  (text extra : jsstring) (openIdx : nat) (r : Z) :
  (openIdx < List.length text)%nat ->
  findMatchingBrace text (Z.of_nat openIdx) = Some r ->
  (r < len text - 1)%Z ->
  findMatchingBrace (text ++ extra) (Z.of_nat openIdx) = Some r.
Proof.
  intros Hopen Hr Hlast.
  rewrite findMatchingBrace_scan in Hr by exact Hopen.
  rewrite findMatchingBrace_scan by (rewrite length_app; lia).
  unfold matching in *.
  rewrite skipn_app.
  replace (openIdx + 1 - List.length text)%nat with 0%nat by lia.
  rewrite skipn_O.
  destruct (scan S.CODE 0 (skipn (openIdx + 1) text)) as [k|] eqn:E.
  - now rewrite (@scan_extend _ _ extra _ _ _ (le_n _) E).
  - simpl in Hr. inversion Hr. lia.
Qed.

Lemma findMatchingBrace_stable_under_append_witness :
  findMatchingBrace (lit "a { b } c" ++ lit " } more") 2 = Some 6%Z.
Proof.
  apply (@findMatchingBrace_stable_under_append (lit "a { b } c") (lit " } more") 2 6);
    vm_compute; (reflexivity || lia).
Defined.

(** X17.  On a text in which no backslash follows a backslash,
    [findMatchingBrace] does what the specification asks: when the brace at
    [openIdx] has a matching closing brace, with braces in comments and in
    strings not counted and an escaped quote not ending its string, it
    returns the index of that brace; when the brace is never closed, it
    returns the last index of the text. *)
Theorem findMatchingBrace_meets_spec_without_backslash_pair
  (text : jsstring) (openIdx : nat) :
  (openIdx < List.length text)%nat ->
  no_backslash_pair text = true ->
  findMatchingBrace text (Z.of_nat openIdx)
  = Some (match BraceSpec.matching text openIdx with
          | Some j => Z.of_nat j
          | None => len text - 1
          end)%Z
  /\ (forall j, BraceSpec.matching text openIdx = Some j ->
        (openIdx < j)%nat /\ nth_error text j = Some (cu "}")).
Proof.
  intros Hopen Hp. split.
  - rewrite findMatchingBrace_scan by exact Hopen.
    now rewrite matching_agrees by exact Hp.
  - intros j Hj. rewrite <- matching_agrees in Hj by exact Hp.
    now apply matching_closing in Hj.
Qed.

Lemma findMatchingBrace_meets_spec_without_backslash_pair_witness :
  findMatchingBrace escaped_quote_text 0
  = Some (match BraceSpec.matching escaped_quote_text 0 with
          | Some j => Z.of_nat j
          | None => len escaped_quote_text - 1
          end)%Z
  /\ (forall j, BraceSpec.matching escaped_quote_text 0 = Some j ->
        (0 < j)%nat /\ nth_error escaped_quote_text j = Some (cu "}")).
Proof.
  apply (@findMatchingBrace_meets_spec_without_backslash_pair escaped_quote_text 0);
    vm_compute; (reflexivity || lia).
Defined.

End BraceMatcherMore.

(* ================================================================== *)
(** * Further properties of the predicate library *)
(* ================================================================== *)

Lemma skipn_nth_error {A : Type} (l : list A) : forall i,
  skipn i l = match nth_error l i with
              | Some c => c :: skipn (S i) l
              | None => []
              end.
Proof.
  induction l as [|x l IH]; intros [|i]; simpl; try reflexivity.
  rewrite IH. now destruct (nth_error l i).
Qed.

Lemma key_prefix_from (children : list jsstring) (key : list jsstring) : forall i,
  some_indexed (fun k i => strict_neq (nth_error children i) k) i key = false <->
  firstn (List.length key) (skipn i children) = key.
Proof.
  induction key as [|k ks IH]; intros i; cbn [some_indexed List.length firstn]; [tauto|].
  rewrite orb_false_iff, IH, (skipn_nth_error children i).
  destruct (nth_error children i) as [c|]; cbn [firstn strict_neq].
  - rewrite negb_false_iff, jsstring_eqb_true. split.
    + intros [-> ->]. reflexivity.
    + intros H. inversion H. subst. rewrite H2. auto.
  - split; [intros [H _]; discriminate | discriminate].
Qed.

(** X3.  [keyOrderInvalid] is false exactly when the key names are the
    first child names, in the same order; with no key name it is false for
    every list of children. *)
Theorem keyOrderInvalid_false_iff_prefix (lst : ListNode.t) :
  (keyOrderInvalid lst = false <->
   firstn (List.length (ListNode.key lst)) (ListNode.children lst) = ListNode.key lst)
  /\ (ListNode.key lst = [] -> keyOrderInvalid lst = false).
Proof.
  unfold keyOrderInvalid. split.
  - now rewrite key_prefix_from.
  - intros ->. reflexivity.
Qed.

(* ================================================================== *)
(** * Positions and offsets *)
(* ================================================================== *)

Section Offsets.

(** X4.  [idxToPos] is strictly increasing on the indices of a text, in
    the order line first, character second: two different indices never
    get the same position. *)
Theorem idxToPos_strictly_monotone (text : jsstring) (a b : Z) :
  (0 <= a < b)%Z -> (b <= len text)%Z ->
  pos_lt (idxToPos text a) (idxToPos text b)
  /\ idxToPos text a <> idxToPos text b.
Proof.
  intros Hab Hb.
  assert (H : pos_lt (idxToPos text a) (idxToPos text b)).
  { rewrite <- (Z2Nat.id a), <- (Z2Nat.id b) by lia.
    apply idxToPos_increasing. unfold len in Hb. lia. }
  split; [exact H|]. intros E. rewrite E in H. now apply pos_lt_irrefl in H.
Qed.

Lemma idxToPos_strictly_monotone_witness :
  pos_lt (idxToPos (lit "ab" ++ [cu LF] ++ lit "cd") 1)
         (idxToPos (lit "ab" ++ [cu LF] ++ lit "cd") 4)
  /\ idxToPos (lit "ab" ++ [cu LF] ++ lit "cd") 1
     <> idxToPos (lit "ab" ++ [cu LF] ++ lit "cd") 4.
Proof.
  apply (@idxToPos_strictly_monotone (lit "ab" ++ [cu LF] ++ lit "cd") 1 4);
    vm_compute; intuition discriminate.
Defined.

Lemma offsetAt_loop_shift (a : jsstring) (lines : list jsstring) (count : nat) :
  forall i off,
  offsetAt_loop (a :: lines) count (S i) off = offsetAt_loop lines count i off.
Proof.
  induction count as [|count IH]; intros i off; simpl; [reflexivity|].
  destruct (nth_error lines i); [apply IH | reflexivity].
Qed.

(** The loop of [offsetAt] on the lines of a text, run for the line of a
    prefix of the text, adds up to the start of that line. *)
Lemma offsetAt_loop_split (t : jsstring) : forall (cur : jsstring) (i : nat) (off : Z),
  (i <= List.length t)%nat ->
  offsetAt_loop (split_lf_acc cur t)
                (fst (scan_pos (firstn i t) (List.length cur))) 0 off
  = Ok (off + len cur + Z.of_nat i
        - Z.of_nat (snd (scan_pos (firstn i t) (List.length cur))))%Z.
Proof.
  induction t as [|x tl IH]; intros cur i off Hi.
  - destruct i; [|simpl in Hi; lia]. simpl. f_equal. unfold len. lia.
  - destruct i as [|i].
    + simpl. f_equal. unfold len. lia.
    + cbn [firstn scan_pos split_lf_acc]. simpl in Hi.
      destruct (N.eqb x (cu LF)).
      * specialize (IH [] i (off + (len (rev cur) + 1))%Z ltac:(lia)).
        cbn [List.length] in IH.
        destruct (scan_pos (firstn i tl) 0) as [l c]. cbn [fst snd] in *.
        cbn [offsetAt_loop nth_error]. rewrite offsetAt_loop_shift, IH.
        f_equal. unfold len. rewrite length_rev. simpl. lia.
      * pose proof (IH (x :: cur) i off ltac:(lia)) as IH'.
        cbn [List.length] in IH'. rewrite IH'. f_equal.
        unfold len. simpl List.length. lia.
Qed.

(** X5.  [offsetAt] undoes [idxToPos]: the position the parser computes
    for an index of the text is turned back into that index by the quick
    fix, so [textSlice] on a range made of two such positions returns the
    characters between the two indices. *)
Theorem offsetAt_idxToPos (text : jsstring) (a b : Z) :
  (0 <= a <= len text)%Z -> (0 <= b <= len text)%Z ->
  offsetAt text (idxToPos text a) = Ok a
  /\ textSlice text {| start := idxToPos text a; end_ := idxToPos text b |}
     = Ok (js_slice text a b).
Proof.
  assert (H : forall z, (0 <= z <= len text)%Z -> offsetAt text (idxToPos text z) = Ok z).
  { intros z Hz. rewrite <- (Z2Nat.id z) by lia.
    rewrite idxToPos_scan by (unfold len in Hz; lia).
    unfold offsetAt. cbn [line character]. rewrite Nat2Z.id.
    pose proof (@offsetAt_loop_split text [] (Z.to_nat z) 0%Z) as L.
    cbn [List.length] in L. unfold split_lf. rewrite L by (unfold len in Hz; lia).
    cbn [rbind]. f_equal. unfold len. simpl. lia. }
  intros Ha Hb. split; [now apply H|].
  unfold textSlice. cbn [start end_]. rewrite (H a Ha). cbn [rbind].
  rewrite (H b Hb). reflexivity.
Qed.

Lemma offsetAt_idxToPos_witness :
  offsetAt (lit "ab" ++ [cu LF] ++ lit "cd") (idxToPos (lit "ab" ++ [cu LF] ++ lit "cd") 4)
  = Ok 4%Z
  /\ textSlice (lit "ab" ++ [cu LF] ++ lit "cd")
       {| start := idxToPos (lit "ab" ++ [cu LF] ++ lit "cd") 4;
          end_ := idxToPos (lit "ab" ++ [cu LF] ++ lit "cd") 5 |}
     = Ok (js_slice (lit "ab" ++ [cu LF] ++ lit "cd") 4 5).
Proof.
  apply (@offsetAt_idxToPos (lit "ab" ++ [cu LF] ++ lit "cd") 4 5); vm_compute;
    intuition discriminate.
Defined.

End Offsets.

(* ================================================================== *)
(** * The grouping of the deviations loses no node *)
(* ================================================================== *)

Section Grouping.

Lemma add_deviation_perm (m : list (jsstring * list DeviationNode.t)) (n : DeviationNode.t) :
  Permutation (List.concat (map snd (add_deviation m n)))
              (List.concat (map snd m) ++ [n]).
Proof.
  unfold add_deviation. set (t := DeviationNode.target n).
  induction m as [|[k v] m IH]; cbn [map_get map_set].
  - simpl. reflexivity.
  - destruct (jsstring_eqb k t); cbn [map snd List.concat].
    + rewrite <- !app_assoc. apply Permutation_app_head. apply Permutation_app_comm.
    + rewrite <- app_assoc. apply Permutation_app_head. exact IH.
Qed.

Lemma fold_add_deviation_perm (nodes : list DeviationNode.t) :
  forall m : list (jsstring * list DeviationNode.t),
  Permutation (List.concat (map snd (fold_left add_deviation nodes m)))
              (List.concat (map snd m) ++ nodes).
Proof.
  induction nodes as [|n nodes IH]; intros m; cbn [fold_left].
  - now rewrite app_nil_r.
  - rewrite IH, add_deviation_perm, <- app_assoc. reflexivity.
Qed.

Lemma mark_duplicates_occurrence (l : list DeviationNode.t) :
  map occurrence (mark_duplicates l) = map occurrence l.
Proof.
  destruct l as [|a l]; [reflexivity|]. rewrite mark_duplicates_cons.
  cbn [map]. f_equal. rewrite map_map. reflexivity.
Qed.

Lemma marked_groups_occurrence (groups : list (list DeviationNode.t)) :
  map occurrence (List.concat (map mark_duplicates groups))
  = map occurrence (List.concat groups).
Proof.
  induction groups as [|g groups IH]; [reflexivity|].
  cbn [map List.concat]. now rewrite !map_app, mark_duplicates_occurrence, IH.
Qed.

Lemma group_deviations_perm (nodes : list DeviationNode.t) :
  Permutation (map occurrence (group_deviations nodes)) (map occurrence nodes).
Proof.
  unfold group_deviations, map_values. rewrite marked_groups_occurrence.
  apply Permutation_map. apply (fold_add_deviation_perm nodes []).
Qed.

(** X6.  The grouping pass of [parseYang] neither drops nor repeats a
    deviation block: the targets and ranges of the deviations of the Ast
    are, up to their order, those of the blocks the loop found. *)
Theorem deviations_keep_every_block (text : jsstring) :
  exists ast nodes,
    parseYang text = Some ast
    /\ deviation_nodes text = Some nodes
    /\ Permutation (map occurrence (optional (deviations ast))) (map occurrence nodes)
    /\ List.length (optional (deviations ast)) = List.length nodes.
Proof.
  destruct (parseYang_total text) as (ast & nodes & Hp & Hn & _ & _ & Hd).
  exists ast, nodes. split; [exact Hp|]. split; [exact Hn|]. rewrite Hd.
  pose proof (group_deviations_perm nodes) as P. split; [exact P|].
  apply Permutation_length in P. now rewrite !length_map in P.
Qed.

End Grouping.

(* ================================================================== *)
(** * The index of [validate] and the quick fix on the same document *)
(* ================================================================== *)

Section IndexAndFix.

Lemma map_get_ranges (m : list (jsstring * list DeviationNode.t)) (k : jsstring) :
  map_get (map ranges_of m) k = option_map (map DeviationNode.range) (map_get m k).
Proof.
  induction m as [|[k' v] m IH]; [reflexivity|]. cbn [map ranges_of map_get fst snd].
  destruct (jsstring_eqb k' k); [reflexivity | exact IH].
Qed.

Lemma map_set_ranges (m : list (jsstring * list DeviationNode.t)) (k : jsstring)
  (v : list DeviationNode.t) :
  map_set (map ranges_of m) k (map DeviationNode.range v) = map ranges_of (map_set m k v).
Proof.
  induction m as [|[k' v'] m IH]; [reflexivity|]. cbn [map ranges_of map_set fst snd].
  destruct (jsstring_eqb k' k); cbn [map ranges_of fst snd]; [reflexivity|].
  f_equal. exact IH.
Qed.

Lemma index_deviation_ranges (m : list (jsstring * list DeviationNode.t))
  (d : DeviationNode.t) :
  index_deviation (map ranges_of m) d = map ranges_of (add_deviation m d).
Proof.
  unfold index_deviation, add_deviation. rewrite map_get_ranges, <- map_set_ranges.
  f_equal. destruct (map_get m (DeviationNode.target d)); cbn [option_map].
  - now rewrite map_app.
  - reflexivity.
Qed.

Lemma fold_index_deviation (ds : list DeviationNode.t) :
  forall m : list (jsstring * list DeviationNode.t),
  fold_left index_deviation ds (map ranges_of m)
  = map ranges_of (fold_left add_deviation ds m).
Proof.
  induction ds as [|d ds IH]; intros m; cbn [fold_left]; [reflexivity|].
  now rewrite index_deviation_ranges, IH.
Qed.

Lemma map_get_keyed {V : Type} (f : jsstring -> V) (ts : list jsstring) (k : jsstring) :
  map_get (map (fun t => (t, f t)) ts) k
  = if existsb (jsstring_eqb k) ts then Some (f k) else None.
Proof.
  induction ts as [|t ts IH]; [reflexivity|]. cbn [map map_get existsb].
  destruct (jsstring_eqb t k) eqn:E.
  - apply jsstring_eqb_true in E. subst t. now rewrite jsstring_eqb_refl.
  - assert (E' : jsstring_eqb k t = false).
    { apply jsstring_eqb_false. apply jsstring_eqb_false in E. congruence. }
    rewrite E'. exact IH.
Qed.

Lemma first_targets_sound (nodes : list DeviationNode.t) : forall seen t,
  In t (first_targets seen nodes) ->
  exists n, In n nodes /\ DeviationNode.target n = t.
Proof.
  induction nodes as [|x nodes IH]; intros seen t H; simpl in H; [contradiction|].
  destruct (existsb (jsstring_eqb (DeviationNode.target x)) seen).
  - destruct (IH _ _ H) as (n & Hn & Ht). exists n. split; [now right | exact Ht].
  - destruct H as [<- | H]; [exists x; split; [now left | reflexivity]|].
    destruct (IH _ _ H) as (n & Hn & Ht). exists n. split; [now right | exact Ht].
Qed.

(** The group of a target in the index that [validate] builds: the ranges
    of the deviations of that target, in the order of the collection; no
    group when no deviation has the target. *)
Lemma index_group (ds : list DeviationNode.t) (t : jsstring) :
  map_get (fold_left index_deviation ds []) t
  = match filter (has_target t) ds with
    | [] => None
    | g => Some (map DeviationNode.range g)
    end.
Proof.
  change (@nil (jsstring * list Range)) with (map ranges_of []).
  rewrite fold_index_deviation, (@fold_add_deviation ds []) by constructor.
  cbn [map app]. rewrite map_map. cbn [ranges_of fst snd].
  rewrite (map_get_keyed (fun t => map DeviationNode.range (filter (has_target t) ds))).
  destruct (existsb (jsstring_eqb t) (first_targets [] ds)) eqn:E.
  - apply existsb_eqb_In in E. apply first_targets_sound in E.
    destruct E as (n & Hn & Ht).
    assert (Hin : In n (filter (has_target t) ds)).
    { apply filter_In. split; [exact Hn|]. now apply jsstring_eqb_true. }
    destruct (filter (has_target t) ds); [contradiction | reflexivity].
  - destruct (filter (has_target t) ds) as [|n g] eqn:F; [reflexivity|].
    assert (Hin : In n (filter (has_target t) ds)) by (rewrite F; now left).
    apply filter_In in Hin. destruct Hin as [Hn Ht].
    apply jsstring_eqb_true in Ht.
    pose proof (@first_targets_complete ds [] n Hn (fun H => H)) as C.
    rewrite Ht in C. apply existsb_eqb_In in C. congruence.
Qed.

Lemma Permutation_filter_length {A : Type} (f : A -> bool) (l l' : list A) :
  Permutation l l' -> List.length (filter f l) = List.length (filter f l').
Proof.
  induction 1 as [|x l l' _ IH|x y l|l l' l'' _ IH1 _ IH2]; simpl.
  - reflexivity.
  - destruct (f x); simpl; now rewrite IH.
  - destruct (f x), (f y); reflexivity.
  - now rewrite IH1.
Qed.

Lemma filter_target_occurrence (t : jsstring) (l : list DeviationNode.t) :
  filter (fun o => jsstring_eqb (fst o) t) (map occurrence l)
  = map occurrence (filter (has_target t) l).
Proof.
  induction l as [|n l IH]; [reflexivity|]. cbn [map filter occurrence fst].
  unfold has_target at 1. destruct (jsstring_eqb (DeviationNode.target n) t);
    cbn [map]; now rewrite IH.
Qed.

Lemma group_size (nodes : list DeviationNode.t) (t : jsstring) :
  List.length (filter (has_target t) (group_deviations nodes))
  = List.length (filter (has_target t) nodes).
Proof.
  pose proof (Permutation_filter_length (fun o => jsstring_eqb (fst o) t)
                (group_deviations_perm nodes)) as H.
  now rewrite !filter_target_occurrence, !length_map in H.
Qed.

(** A target has a flagged node exactly when it has two nodes or more. *)
Lemma flagged_iff_two (nodes : list DeviationNode.t) (t : jsstring) :
  Forall (fun n => DeviationNode.duplicate n = false) nodes ->
  ((exists n, In n (group_deviations nodes)
              /\ DeviationNode.target n = t /\ DeviationNode.duplicate n = true)
   <-> (2 <= List.length (filter (has_target t) nodes))%nat).
Proof.
  intros Hun. rewrite Forall_forall in Hun. split.
  - intros (n & Hin & Ht & Hd).
    apply in_group_deviations in Hin. destruct Hin as (t' & _ & Hn).
    apply in_mark_duplicates in Hn. destruct Hn as (a & tl & Hl & Hcase).
    assert (Ha : In a (filter (has_target t') nodes)) by (rewrite Hl; now left).
    apply filter_In in Ha. destruct Ha as [Ha Hat]. apply jsstring_eqb_true in Hat.
    destruct Hcase as [-> | (b & Hb & ->)].
    + rewrite (Hun a Ha) in Hd. discriminate.
    + assert (Hb' : In b (filter (has_target t') nodes)) by (rewrite Hl; now right).
      apply filter_In in Hb'. destruct Hb' as [_ Hbt]. apply jsstring_eqb_true in Hbt.
      cbn [set_duplicate DeviationNode.target] in Ht.
      assert (E : t' = t) by congruence. rewrite <- E, Hl.
      destruct tl; [contradiction | simpl; lia].
  - intros Hlen.
    destruct (filter (has_target t) nodes) as [|a [|b tl]] eqn:F;
      [simpl in Hlen; lia | simpl in Hlen; lia |].
    assert (Ha : In a (filter (has_target t) nodes)) by (rewrite F; now left).
    assert (Hb : In b (filter (has_target t) nodes)) by (rewrite F; right; now left).
    apply filter_In in Ha. destruct Ha as [Ha Hat]. apply jsstring_eqb_true in Hat.
    apply filter_In in Hb. destruct Hb as [Hb Hbt]. apply jsstring_eqb_true in Hbt.
    exists (set_duplicate b). split; [|split; [exact Hbt | reflexivity]].
    apply in_group_deviations. exists t. split.
    + rewrite <- Hat. now apply first_targets_complete.
    + rewrite F, mark_duplicates_cons. right. left. reflexivity.
Qed.

(** The line of a position of [idxToPos] is a line of the text. *)
Lemma scan_pos_prefix (t : jsstring) : forall (k c0 : nat),
  (fst (scan_pos (firstn k t) c0) <= fst (scan_pos t c0))%nat.
Proof.
  induction t as [|x tl IH]; intros k c0.
  - now rewrite firstn_nil.
  - destruct k as [|k]; [simpl; lia|]. cbn [firstn scan_pos].
    destruct (N.eqb x (cu LF)).
    + specialize (IH k 0%nat).
      destruct (scan_pos (firstn k tl) 0), (scan_pos tl 0). simpl in *. lia.
    + apply IH.
Qed.

Lemma idxToPos_line_bound (text : jsstring) (z : Z) :
  (0 <= line (idxToPos text z) < Z.of_nat (List.length (split_lf text)))%Z.
Proof.
  unfold idxToPos, js_slice. cbn [line].
  set (k := Z.to_nat (clamp (len text) z - clamp (len text) 0)).
  replace (Z.to_nat (clamp (len text) 0)) with 0%nat
    by (unfold clamp; simpl; pose proof (len_nonneg text); lia).
  rewrite skipn_O.
  destruct (split_lf_acc_scan (firstn k text) []) as [H1 _].
  destruct (split_lf_acc_scan text []) as [H2 _].
  unfold split_lf. rewrite H1, H2. cbn [List.length].
  pose proof (scan_pos_prefix text k 0). lia.
Qed.

Lemma block_range_within_text (text : jsstring) (m : rmatch_result) (close : Z) :
  within_text text (block_range text m close).
Proof.
  unfold within_text, block_range. cbn [start end_].
  pose proof (idxToPos_line_bound text (Z.of_nat (index m))).
  pose proof (idxToPos_line_bound text (close + 1)). lia.
Qed.

Lemma omap_Forall {A B : Type} (f : A -> option B) (P : B -> Prop) (l : list A) :
  (forall a b, f a = Some b -> P b) ->
  forall bs, omap f l = Some bs -> Forall P bs.
Proof.
  intros H. induction l as [|a l IH]; intros bs Hbs; simpl in Hbs.
  - inversion Hbs. constructor.
  - destruct (f a) as [b|] eqn:E; [|discriminate]. simpl in Hbs.
    destruct (omap f l) as [bs'|]; [|discriminate]. simpl in Hbs.
    inversion Hbs; subst. constructor; [now apply (H a) | now apply IH].
Qed.

Lemma deviation_nodes_within_text (text : jsstring) (nodes : list DeviationNode.t) :
  deviation_nodes text = Some nodes ->
  Forall (fun n => within_text text (DeviationNode.range n)) nodes.
Proof.
  unfold deviation_nodes. intros H.
  destruct (exec_all text DEVIATION_START_RE) as [ms|]; [|discriminate].
  cbn [obind] in H. revert nodes H. apply omap_Forall.
  intros dm n Hn. destruct (braces text dm) as [[open close]|]; [|discriminate].
  simpl in Hn. inversion Hn; subst. cbn [DeviationNode.range].
  apply block_range_within_text.
Qed.

(** With a group of two ranges or more whose lines are in the text,
    [buildDeviationFix] returns an action. *)
Lemma buildDeviationFix_returns (deviationMap : DeviationIndex) (diag : Diagnostic)
  (payload : Payload) (uri text : jsstring) (ranges : list Range) :
  data diag = Some payload ->
  map_get deviationMap (groupId payload) = Some ranges ->
  (2 <= List.length ranges)%nat ->
  Forall (within_text text) ranges ->
  exists action, buildDeviationFix deviationMap diag uri text = Ok (Some action).
Proof.
  intros Hdata Hget Hlen Hin. unfold buildDeviationFix. rewrite Hdata, Hget.
  destruct (Nat.ltb_spec (List.length ranges) 2); [lia|].
  pose proof (js_sort_perm ranges) as Hperm.
  destruct (js_sort compare_ranges ranges) as [|first others] eqn:Hs.
  { apply Permutation_length in Hperm. simpl in Hperm. lia. }
  rewrite Forall_forall in Hin.
  assert (Hsorted : forall r, In r (first :: others) -> within_text text r).
  { intros r Hr. apply Hin. now apply (Permutation_in _ (Permutation_sym Hperm)). }
  destruct (@offsetAt_returns text {| line := line (start first); character := 0 |})
    as [lineStartOff ->]; [apply (Hsorted first); now left|].
  cbn [rbind].
  match goal with
  | |- context [rmap ?f (first :: others)] =>
      destruct (@rmap_returns _ _ f (first :: others)) as (bodies & -> & _);
        [intros r Hr; apply body_of_returns; now apply Hsorted|]
  end.
  cbn [rbind]. eauto.
Qed.

(** The quick fix with the index left by the validation of the text. *)
Lemma quick_fix_after_validation
  (compiled : list Compiled) (text uri : jsstring) (ast : Ast)
  (diag : Diagnostic) (payload : Payload) :
  parseYang text = Some ast ->
  data diag = Some payload ->
  exists fixed,
    validateDocument compiled text
    = Some (fst (validate compiled ast), snd (validate compiled ast))
    /\ buildDeviationFix (fst (validate compiled ast)) diag uri text = Ok fixed
    /\ (fixed <> None <->
        exists n, In n (optional (deviations ast))
                  /\ DeviationNode.target n = groupId payload
                  /\ DeviationNode.duplicate n = true).
Proof.
  intros Hp Hdata.
  destruct (parseYang_total text) as (ast' & nodes & Hp' & Hn & _ & _ & Hd).
  assert (ast' = ast) by congruence. subst ast'. clear Hp'.
  destruct (deviation_nodes_in_order text) as (nodes' & Hn' & Hun & _).
  assert (nodes' = nodes) by congruence. subst nodes'.
  pose proof (deviation_nodes_within_text text Hn) as Hwt.
  set (t := groupId payload).
  assert (Hidx : map_get (fst (validate compiled ast)) t
                 = match filter (has_target t) (group_deviations nodes) with
                   | [] => None
                   | g => Some (map DeviationNode.range g)
                   end).
  { unfold validate. cbn [fst]. rewrite Hd. apply index_group. }
  assert (Hflag : (exists n, In n (optional (deviations ast))
                             /\ DeviationNode.target n = t
                             /\ DeviationNode.duplicate n = true)
                  <-> (2 <= List.length (filter (has_target t) (group_deviations nodes)))%nat).
  { rewrite Hd, (flagged_iff_two t Hun), <- (group_size nodes t). reflexivity. }
  assert (Hdoc : validateDocument compiled text
                 = Some (fst (validate compiled ast), snd (validate compiled ast))).
  { unfold validateDocument. rewrite Hp. cbn [obind]. now destruct (validate compiled ast). }
  destruct (filter (has_target t) (group_deviations nodes)) as [|a [|b g]] eqn:F.
  - exists None. split; [exact Hdoc|]. split.
    + unfold buildDeviationFix. rewrite Hdata. fold t. now rewrite Hidx.
    + rewrite Hflag. simpl. split; [congruence | lia].
  - exists None. split; [exact Hdoc|]. split.
    + unfold buildDeviationFix. rewrite Hdata. fold t. rewrite Hidx. reflexivity.
    + rewrite Hflag. simpl. split; [congruence | lia].
  - destruct (@buildDeviationFix_returns (fst (validate compiled ast)) diag payload
                uri text (map DeviationNode.range (a :: b :: g)) Hdata Hidx)
      as [action Ha].
    + simpl. lia.
    + rewrite Forall_map. rewrite Forall_forall. intros n Hin.
      assert (Hin' : In n (group_deviations nodes)).
      { assert (X : In n (filter (has_target t) (group_deviations nodes)))
          by (rewrite F; exact Hin).
        now apply filter_In in X. }
      assert (Ho : In (occurrence n) (map occurrence nodes)).
      { apply (Permutation_in _ (group_deviations_perm nodes)). now apply in_map. }
      apply in_map_iff in Ho. destruct Ho as (n0 & Ho & Hn0).
      rewrite Forall_forall in Hwt. specialize (Hwt n0 Hn0).
      unfold occurrence in Ho. injection Ho as _ Hr. now rewrite <- Hr.
    + exists (Some action). split; [exact Hdoc|].
      split; [exact Ha|]. rewrite Hflag. simpl. split; [lia | congruence].
Qed.


(** X7.  On the document that was validated last, the quick fix never
    throws: for a diagnostic that carries a groupId, [buildDeviationFix]
    called with the index left by the validation of a text, and with that
    same text, returns a code action when some deviation of the Ast with
    that target is flagged as duplicate, and null otherwise.  This holds
    for every rule set, also when the validation itself threw. *)
Theorem quick_fix_on_validated_document
  (compiled : list Compiled) (text uri : jsstring) (diag : Diagnostic) (payload : Payload) :
  data diag = Some payload ->
  exists ast index res fixed,
    parseYang text = Some ast
    /\ validateDocument compiled text = Some (index, res)
    /\ buildDeviationFix index diag uri text = Ok fixed
    /\ (fixed <> None <->
        exists n, In n (optional (deviations ast))
                  /\ DeviationNode.target n = groupId payload
                  /\ DeviationNode.duplicate n = true).
Proof.
  intros Hdata.
  destruct (parseYang_total text) as (ast & nodes & Hp & _).
  destruct (@quick_fix_after_validation compiled text uri ast diag payload Hp Hdata)
    as (fixed & Hdoc & Hfix & Hiff).
  exists ast, (fst (validate compiled ast)), (snd (validate compiled ast)), fixed.
  auto.
Qed.

Lemma quick_fix_on_validated_document_witness :
  exists ast index res fixed,
    parseYang short_document = Some ast
    /\ validateDocument [duplicate_rule] short_document = Some (index, res)
    /\ buildDeviationFix index short_diagnostic short_uri short_document = Ok fixed
    /\ (fixed <> None <->
        exists n, In n (optional (deviations ast))
                  /\ DeviationNode.target n = groupId {| groupId := lit "/x" |}
                  /\ DeviationNode.duplicate n = true).
Proof.
  apply (@quick_fix_on_validated_document [duplicate_rule] short_document short_uri
           short_diagnostic {| groupId := lit "/x" |}).
  reflexivity.
Defined.

End IndexAndFix.

(* ================================================================== *)
(** * What a match consumes *)
(* ================================================================== *)

Section Consumed.

Variable text : jsstring.

Lemma star_consumes (P : N -> Prop) (p : N -> bool) (k : cont) (rst : jsstring) :
  (forall x, p x = true -> P x) ->
  forall i cs res, star p k i rst cs = Some res ->
  consumes P k {| pos := i; rest := rst; caps := cs |} res.
Proof.
  intros Hp. induction rst as [|c tl IH]; intros i cs res H; simpl in H.
  - exists [], {| pos := i; rest := []; caps := cs |}. simpl.
    repeat split; auto; simpl; lia.
  - assert (Hstop : k {| pos := i; rest := c :: tl; caps := cs |} = Some res ->
                    consumes P k {| pos := i; rest := c :: tl; caps := cs |} res).
    { intros Hk. exists [], {| pos := i; rest := c :: tl; caps := cs |}. simpl.
      repeat split; auto; simpl; lia. }
    destruct (p c) eqn:Ec; [|now apply Hstop].
    destruct (star p k (S i) tl cs) as [r|] eqn:E; [|now apply Hstop].
    inversion H; subst. apply IH in E. destruct E as (consumed & s' & Hk & Hr & Hpos & Hall).
    exists (c :: consumed), s'. simpl in *. repeat split.
    + exact Hk.
    + now rewrite Hr.
    + lia.
    + constructor; [now apply Hp | exact Hall].
Qed.

Lemma rmatch_consumes (P : N -> Prop) (r : regex) : chars_in P r ->
  forall (k : cont) (s res : mstate),
  rmatch text r k s = Some res -> consumes P k s res.
Proof.
  induction r as [|c|p|p|a IHa b IHb|a IHa b IHb|n a IHa|m|m];
    intros Hc k s res H; simpl in H, Hc.
  - exists [], s. repeat split; auto; simpl; lia.
  - destruct (rest s) as [|x tl] eqn:E; [discriminate|].
    destruct (N.eqb_spec x (cu c)); [|discriminate]. subst x.
    eexists [cu c], _. split; [exact H|]. simpl. repeat split; auto; simpl; lia.
  - destruct (rest s) as [|x tl] eqn:E; [discriminate|].
    destruct (p x) eqn:Ep; [|discriminate].
    eexists [x], _. split; [exact H|]. simpl. repeat split; auto; simpl; lia.
  - destruct s as [i rst cs]. simpl in H. now apply (@star_consumes P p k rst Hc i cs res).
  - destruct Hc as [Ha Hb].
    apply (IHa Ha) in H. destruct H as (c1 & s1 & H1 & Hr1 & Hp1 & Hall1).
    apply (IHb Hb) in H1. destruct H1 as (c2 & s2 & H2 & Hr2 & Hp2 & Hall2).
    exists (c1 ++ c2), s2. repeat split.
    + exact H2.
    + now rewrite Hr1, Hr2, app_assoc.
    + rewrite length_app. lia.
    + now apply Forall_app.
  - destruct Hc as [Ha Hb].
    destruct (rmatch text a k s) as [r1|] eqn:E.
    + inversion H; subst. now apply (IHa Ha) in E.
    + now apply (IHb Hb) in H.
  - apply (IHa Hc) in H. destruct H as (c1 & s1 & H1 & Hr1 & Hp1 & Hall1).
    eexists c1, _. split; [exact H1|]. simpl. repeat split; auto.
  - destruct (at_line_start m text (pos s)); [|discriminate].
    exists [], s. repeat split; auto; simpl; lia.
  - destruct (at_line_end m (rest s)); [|discriminate].
    exists [], s. repeat split; auto; simpl; lia.
Qed.

Lemma chars_in_any (r : regex) : chars_in (fun _ => True) r.
Proof. induction r; simpl; auto. Qed.

(** A pattern that ends with a literal character consumes it last. *)
Lemma rmatch_last_char (c : ascii) (rs : list regex) :
  forall (k : cont) (s res : mstate),
  rmatch text (cat (rs ++ [Chr c])) k s = Some res ->
  exists consumed s', k s' = Some res
    /\ rest s = consumed ++ cu c :: rest s'
    /\ pos s' = S (pos s + List.length consumed).
Proof.
  induction rs as [|r rs IH]; intros k s res H.
  - cbn [app cat fold_right rmatch] in H.
    destruct (rest s) as [|x tl] eqn:E; [discriminate|].
    destruct (N.eqb_spec x (cu c)); [|discriminate]. subst x.
    eexists [], _. split; [exact H|]. simpl. split; [reflexivity | lia].
  - change (cat ((r :: rs) ++ [Chr c])) with (Seq r (cat (rs ++ [Chr c]))) in H.
    cbn [rmatch] in H.
    apply (@rmatch_consumes (fun _ => True) r (chars_in_any r)) in H.
    destruct H as (c1 & s1 & H1 & Hr1 & Hp1 & _).
    apply IH in H1. destruct H1 as (c2 & s2 & H2 & Hr2 & Hp2).
    exists (c1 ++ c2), s2. split; [exact H2|]. split.
    + now rewrite Hr1, Hr2, app_assoc.
    + rewrite length_app. lia.
Qed.

(** What holds of every result of [exec] holds of every match of a loop. *)
Lemma exec_loop_all (P : rmatch_result -> Prop) (r : regex) :
  (forall lastIndex m, exec text r lastIndex = Some m -> P m) ->
  forall fuel lastIndex ms, exec_loop fuel text r lastIndex = Some ms -> Forall P ms.
Proof.
  intros HP. induction fuel as [|fuel IH]; intros lastIndex ms H; [discriminate|].
  cbn [exec_loop] in H. destruct (exec text r lastIndex) as [m|] eqn:E.
  - destruct (exec_loop fuel text r (end_index m)) as [ms'|] eqn:E'; [|discriminate].
    inversion H; subst. constructor; [now apply (HP lastIndex) | now apply (IH _ _ E')].
  - inversion H. constructor.
Qed.

Lemma matchAll_loop_all (P : rmatch_result -> Prop) (r : regex) :
  (forall lastIndex m, exec text r lastIndex = Some m -> P m) ->
  forall fuel lastIndex, Forall P (matchAll_loop fuel text r lastIndex).
Proof.
  intros HP. induction fuel as [|fuel IH]; intros lastIndex; [constructor|].
  cbn [matchAll_loop]. destruct (exec text r lastIndex) as [m|] eqn:E; [|constructor].
  constructor; [now apply (HP lastIndex) | apply IH].
Qed.

Lemma skipn_tail {A : Type} (l : list A) (i : nat) (x : A) (tl : list A) :
  skipn i l = x :: tl -> skipn (S i) l = tl.
Proof.
  revert i. induction l as [|y l IH]; intros [|i] H; simpl in *; try discriminate.
  - now inversion H.
  - now apply IH.
Qed.

Lemma search_consumed (P : N -> Prop) (r : regex) : chars_in P r ->
  forall (rst : jsstring) (i : nat) (m : rmatch_result),
  skipn i text = rst -> (i <= List.length text)%nat ->
  search text r i rst = Some m -> match_of text P m.
Proof.
  intros Hc. induction rst as [|c tl IH]; intros i m Hrst Hi H; simpl in H.
  - unfold match_at in H.
    destruct (rmatch text r (fun s => Some s) {| pos := i; rest := []; caps := [] |})
      as [s|] eqn:E; [|discriminate].
    inversion H; subst m. apply (@rmatch_consumes P r Hc) in E.
    destruct E as (consumed & s' & Hk & Hr & Hp & Hall). inversion Hk; subst s'.
    simpl in Hr, Hp. destruct consumed; [|discriminate].
    unfold match_of, matched. simpl. rewrite Hp, Nat.add_0_r, Nat.sub_diag.
    split; [lia | constructor].
  - destruct (match_at text r i (c :: tl)) as [m'|] eqn:E.
    + inversion H; subst m'. unfold match_at in E.
      destruct (rmatch text r (fun s => Some s) {| pos := i; rest := c :: tl; caps := [] |})
        as [s|] eqn:E'; [|discriminate].
      inversion E; subst m. apply (@rmatch_consumes P r Hc) in E'.
      destruct E' as (consumed & s' & Hk & Hr & Hp & Hall). inversion Hk; subst s'.
      simpl in Hr, Hp. unfold match_of, matched. simpl.
      assert (Hlen : (i + List.length (c :: tl) = List.length text)%nat).
      { rewrite <- Hrst, length_skipn. lia. }
      rewrite Hr, length_app in Hlen. split; [lia|].
      rewrite Hrst, Hr, Hp. replace (i + List.length consumed - i)%nat
        with (List.length consumed + 0)%nat by lia.
      rewrite firstn_app_2. simpl. now rewrite app_nil_r.
    + apply (IH (S i)); [now apply (@skipn_tail _ text i _ _ Hrst) | | exact H].
      assert (Hlen : (List.length (skipn i text) = S (List.length tl))%nat)
        by (now rewrite Hrst).
      rewrite length_skipn in Hlen. lia.
Qed.

Lemma exec_consumed (P : N -> Prop) (r : regex) (lastIndex : nat) (m : rmatch_result) :
  chars_in P r -> exec text r lastIndex = Some m -> match_of text P m.
Proof.
  intros Hc. unfold exec.
  destruct (Nat.ltb_spec (List.length text) lastIndex); [discriminate|].
  now apply (@search_consumed P r Hc (skipn lastIndex text) lastIndex m).
Qed.

Lemma search_last_char (c : ascii) (rs : list regex) :
  forall (rst : jsstring) (i : nat) (m : rmatch_result),
  skipn i text = rst ->
  search text (cat (rs ++ [Chr c])) i rst = Some m ->
  (index m < end_index m)%nat /\ nth_error text (end_index m - 1) = Some (cu c).
Proof.
  induction rst as [|x tl IH]; intros i m Hrst H; simpl in H.
  - unfold match_at in H.
    destruct (rmatch text _ (fun s => Some s) {| pos := i; rest := []; caps := [] |})
      as [s|] eqn:E; [|discriminate].
    apply rmatch_last_char in E. destruct E as (consumed & s' & _ & Hr & _).
    simpl in Hr. now destruct consumed.
  - destruct (match_at text _ i (x :: tl)) as [m'|] eqn:E.
    + inversion H; subst m'. unfold match_at in E.
      destruct (rmatch text _ (fun s => Some s) {| pos := i; rest := x :: tl; caps := [] |})
        as [s|] eqn:E'; [|discriminate].
      inversion E; subst m. apply rmatch_last_char in E'.
      destruct E' as (consumed & s' & Hk & Hr & Hp). inversion Hk; subst s'.
      simpl in Hr, Hp |- *. split; [lia|].
      rewrite Hp. replace (S (i + List.length consumed) - 1)%nat
        with (i + List.length consumed)%nat by lia.
      rewrite <- nth_error_skipn, Hrst, Hr.
      rewrite nth_error_app2 by lia. now rewrite Nat.sub_diag.
    + apply (IH (S i)); [now apply (@skipn_tail _ text i _ _ Hrst) | exact H].
Qed.

Lemma exec_last_char (c : ascii) (rs : list regex) (lastIndex : nat) (m : rmatch_result) :
  exec text (cat (rs ++ [Chr c])) lastIndex = Some m ->
  (index m < end_index m)%nat /\ nth_error text (end_index m - 1) = Some (cu c).
Proof.
  unfold exec. destruct (Nat.ltb_spec (List.length text) lastIndex); [discriminate|].
  now apply search_last_char.
Qed.

End Consumed.

(* ================================================================== *)
(** * The ranges of the Ast *)
(* ================================================================== *)

Section Ranges.

Variable text : jsstring.

Lemma indexOf_from_finds (c : N) (rst : jsstring) : forall (i j : nat),
  nth_error rst j = Some c ->
  exists z, indexOf_from c i rst = Z.of_nat z /\ (i <= z <= i + j)%nat.
Proof.
  induction rst as [|x tl IH]; intros i j H; [now destruct j|].
  cbn [indexOf_from]. destruct (N.eqb_spec x c).
  - exists i. split; [reflexivity | lia].
  - destruct j as [|j]; [simpl in H; congruence|]. simpl in H.
    destruct (IH (S i) j H) as (z & Hz & Hb). exists z. split; [exact Hz | lia].
Qed.

Lemma js_indexOf_finds (c : ascii) (from j : nat) :
  (from <= j)%nat -> nth_error text j = Some (cu c) ->
  exists z, js_indexOf text c from = Z.of_nat z /\ (from <= z <= j)%nat.
Proof.
  intros Hj H. unfold js_indexOf.
  destruct (@indexOf_from_finds (cu c) (skipn from text) from (j - from)) as (z & Hz & Hb).
  - rewrite nth_error_skipn. now replace (from + (j - from))%nat with j by lia.
  - exists z. split; [exact Hz | lia].
Qed.

Lemma exec_opens_block (rs : list regex) (lastIndex : nat) (m : rmatch_result) :
  exec text (cat (rs ++ [Chr "{"])) lastIndex = Some m -> (opens_block text) m.
Proof.
  intros H. pose proof (exec_bounds _ _ _ H) as B.
  apply exec_last_char in H. unfold opens_block. intuition lia.
Qed.

Lemma exec_in_text (r : regex) (lastIndex : nat) (m : rmatch_result) :
  (1 <= minlen r)%nat -> exec text r lastIndex = Some m -> (in_text text) m.
Proof. intros Hmin H. apply exec_bounds in H. unfold in_text. lia. Qed.

Lemma block_range_proper (m : rmatch_result) (open close : Z) :
  (opens_block text) m -> braces text m = Some (open, close) ->
  proper (block_range text m close).
Proof.
  intros [Hb Hc] H. unfold braces in H.
  destruct (@js_indexOf_finds "{" (index m) (end_index m - 1) ltac:(lia) Hc)
    as (z & Hz & Hzb).
  rewrite Hz in H.
  destruct (findMatchingBrace text (Z.of_nat z)) as [r|] eqn:E; [|discriminate].
  cbn [obind] in H. inversion H; subst open close.
  unfold findMatchingBrace in E. apply for_loop_result in E.
  assert (Hr : (Z.of_nat (index m) < r + 1 <= len text)%Z).
  { unfold len in *. destruct E as [-> | [E _]]; lia. }
  unfold proper, block_range. cbn [start end_].
  rewrite <- (Z2Nat.id (r + 1)) by lia.
  apply idxToPos_increasing. unfold len in Hr. lia.
Qed.

Lemma matched_length (m : rmatch_result) :
  (in_text text) m -> List.length (matched text m) = (end_index m - index m)%nat.
Proof.
  unfold in_text, matched. intros H. rewrite length_firstn, length_skipn. lia.
Qed.

Lemma line_range_proper (m : rmatch_result) :
  (in_text text) m -> proper (line_range text m).
Proof.
  intros H. unfold proper, line_range. cbn [start end_].
  unfold len. rewrite (matched_length H).
  replace (Z.of_nat (index m) + Z.of_nat (end_index m - index m))%Z
    with (Z.of_nat (end_index m)) by (unfold in_text in H; lia).
  apply idxToPos_increasing. exact H.
Qed.

Lemma omap_Forall_in {A B : Type} (f : A -> option B) (P : A -> Prop) (Q : B -> Prop)
  (l : list A) :
  (forall a b, P a -> f a = Some b -> Q b) ->
  Forall P l -> forall bs, omap f l = Some bs -> Forall Q bs.
Proof.
  intros H HP. induction HP as [|a l Ha _ IH]; intros bs Hbs; simpl in Hbs.
  - inversion Hbs. constructor.
  - destruct (f a) as [b|] eqn:E; [|discriminate]. simpl in Hbs.
    destruct (omap f l) as [bs'|]; [|discriminate]. simpl in Hbs.
    inversion Hbs; subst. constructor; [now apply (H a) | now apply IH].
Qed.

Lemma exec_all_opens_block (rs : list regex) (ms : list rmatch_result) :
  exec_all text (cat (rs ++ [Chr "{"])) = Some ms -> Forall (opens_block text) ms.
Proof.
  unfold exec_all. apply exec_loop_all. intros li m. apply exec_opens_block.
Qed.

Lemma parse_typedefs_proper (l : list TypedefNode.t) :
  parse_typedefs text = Some l -> Forall (fun n => proper (TypedefNode.range n)) l.
Proof.
  unfold parse_typedefs. intros H.
  destruct (exec_all text TYPEDEF_START_RE) as [ms|] eqn:E; [|discriminate].
  cbn [obind] in H.
  eapply (@omap_Forall_in _ _ _ (opens_block text) _ ms); [ | | exact H].
  - intros tm n Htm Hn. cbv beta in Hn.
    destruct (braces text tm) as [[open close]|] eqn:Eb; [|simpl in Hn; discriminate Hn].
    simpl in Hn. inversion Hn; subst. cbn [TypedefNode.range].
    eapply block_range_proper; eassumption.
  - apply (exec_all_opens_block
             [Bol true; Star blank; Lit "typedef"; Plus blank; Group 1 (Plus ident_char);
              Star blank]). exact E.
Qed.

Lemma parse_lists_proper (l : list ListNode.t) :
  parse_lists text = Some l -> Forall (fun n => proper (ListNode.range n)) l.
Proof.
  unfold parse_lists. intros H.
  destruct (exec_all text LIST_START_RE) as [ms|] eqn:E; [|discriminate].
  cbn [obind] in H.
  eapply (@omap_Forall_in _ _ _ (opens_block text) _ ms); [ | | exact H].
  - intros lm n Hlm Hn. cbv beta in Hn.
    destruct (braces text lm) as [[open close]|] eqn:Eb; [|simpl in Hn; discriminate Hn].
    simpl in Hn. inversion Hn; subst. cbn [ListNode.range].
    eapply block_range_proper; eassumption.
  - apply (exec_all_opens_block
             [Bol true; Star blank; Lit "list"; Plus blank; Group 1 (Plus word_char);
              Star blank]). exact E.
Qed.

Lemma deviation_nodes_proper (l : list DeviationNode.t) :
  deviation_nodes text = Some l -> Forall (fun n => proper (DeviationNode.range n)) l.
Proof.
  unfold deviation_nodes. intros H.
  destruct (exec_all text DEVIATION_START_RE) as [ms|] eqn:E; [|discriminate].
  cbn [obind] in H.
  eapply (@omap_Forall_in _ _ _ (opens_block text) _ ms); [ | | exact H].
  - intros dm n Hdm Hn. cbv beta in Hn.
    destruct (braces text dm) as [[open close]|] eqn:Eb; [|simpl in Hn; discriminate Hn].
    simpl in Hn. inversion Hn; subst. cbn [DeviationNode.range].
    eapply block_range_proper; eassumption.
  - apply (exec_all_opens_block
             [Bol true; Star blank; Lit "deviation"; Plus blank;
              Group 1 (Plus not_blank_brace); Star blank]). exact E.
Qed.

Lemma parse_blocks_proper (l : list BlockNode.t) :
  parse_blocks text = Some l -> Forall (fun n => proper (BlockNode.range n)) l.
Proof.
  unfold parse_blocks. intros H.
  destruct (exec_all text DESC_BLOCK_RE) as [ms|] eqn:E; [|discriminate].
  cbn [obind] in H.
  eapply (@omap_Forall_in _ _ _ (opens_block text) _ ms); [ | | exact H].
  - intros bm n Hbm Hn. cbv beta in Hn.
    destruct (braces text bm) as [[open close]|] eqn:Eb; [|simpl in Hn; discriminate Hn].
    simpl in Hn. inversion Hn; subst. cbn [BlockNode.range].
    eapply block_range_proper; eassumption.
  - apply (exec_all_opens_block
             [Bol true; Star blank;
              Group 1 (words ["anyxml"; "augment"; "choice"; "container"; "extension";
                              "feature"; "notification"; "rpc"]%string);
              Plus blank; Group 2 (Plus word_char); Star not_lf]). exact E.
Qed.

Lemma parse_constraintNodes_proper (l : list ConstraintNode.t) :
  parse_constraintNodes text = Some l ->
  Forall (fun n => proper (ConstraintNode.range n)) l.
Proof.
  unfold parse_constraintNodes. intros H.
  destruct (exec_all text CONSTRAINT_START_RE) as [ms|] eqn:E; [|discriminate].
  cbn [obind] in H.
  eapply (@omap_Forall_in _ _ _ (opens_block text) _ ms); [ | | exact H].
  - intros cm n Hcm Hn. cbv beta in Hn.
    destruct (braces text cm) as [[open close]|] eqn:Eb; [|simpl in Hn; discriminate Hn].
    simpl in Hn. inversion Hn; subst. cbn [ConstraintNode.range].
    eapply block_range_proper; eassumption.
  - apply (exec_all_opens_block
             [Bol true; Star blank;
              Group 1 (words ["container"; "list"; "leaf-list"; "leaf"; "choice"; "case";
                              "anyxml"; "anydata"; "grouping"; "uses"; "typedef";
                              "augment"]%string);
              Plus blank; Group 2 (Plus word_char); Star not_lf]). exact E.
Qed.

Lemma matchAll_in_text (r : regex) : (1 <= minlen r)%nat ->
  Forall (in_text text) (matchAll text r).
Proof.
  intros Hmin. unfold matchAll. apply matchAll_loop_all.
  intros li m. now apply exec_in_text.
Qed.

Lemma parse_imports_proper :
  Forall (fun n => proper (ImportNode.range n)) (parse_imports text).
Proof.
  unfold parse_imports. rewrite Forall_map. cbn [ImportNode.range].
  eapply Forall_impl; [|apply (@matchAll_in_text IMPORT_RE); simpl; lia].
  intros m. apply line_range_proper.
Qed.

Lemma parse_statuses_proper :
  Forall (fun n => proper (StatusNode.range n)) (parse_statuses text).
Proof.
  unfold parse_statuses. rewrite Forall_map. cbn [StatusNode.range].
  eapply Forall_impl; [|apply (@matchAll_in_text STATUS_RE); simpl; lia].
  intros m. apply line_range_proper.
Qed.

Lemma parse_moduleHeader_proper (h : ModuleHeader.t) :
  parse_moduleHeader text = Some h -> proper (ModuleHeader.range h).
Proof.
  unfold parse_moduleHeader. intros H.
  destruct (exec text MODULE_RE 0) as [mh|] eqn:E; [|discriminate].
  inversion H; subst. cbn [ModuleHeader.range].
  apply line_range_proper. apply (exec_in_text MODULE_RE 0); [simpl; lia | exact E].
Qed.

Lemma group_deviations_ranges (Q : Range -> Prop) (nodes : list DeviationNode.t) :
  Forall (fun n => Q (DeviationNode.range n)) nodes ->
  Forall (fun n => Q (DeviationNode.range n)) (group_deviations nodes).
Proof.
  rewrite !Forall_forall. intros H n Hin.
  assert (Ho : In (occurrence n) (map occurrence nodes)).
  { apply (Permutation_in _ (group_deviations_perm nodes)). now apply in_map. }
  apply in_map_iff in Ho. destruct Ho as (n0 & Ho & Hn0).
  unfold occurrence in Ho. injection Ho as _ Hr. rewrite <- Hr. now apply H.
Qed.

End Ranges.

(** X8.  [parseYang] returns an Ast for every text, and every range of
    that Ast ends after it starts, in the order line first, character
    second: the range of the module header and of every import, typedef,
    status, list, block, deviation and constraint node. *)
Theorem ranges_end_after_start (text : jsstring) :
  exists ast, parseYang text = Some ast
    /\ (forall h, moduleHeader ast = Some h -> proper (ModuleHeader.range h))
    /\ Forall (fun n => proper (ImportNode.range n)) (optional (imports ast))
    /\ Forall (fun n => proper (TypedefNode.range n)) (optional (typedefs ast))
    /\ Forall (fun n => proper (StatusNode.range n)) (optional (statuses ast))
    /\ Forall (fun n => proper (ListNode.range n)) (optional (lists ast))
    /\ Forall (fun n => proper (BlockNode.range n)) (optional (blocks ast))
    /\ Forall (fun n => proper (DeviationNode.range n)) (optional (deviations ast))
    /\ Forall (fun n => proper (ConstraintNode.range n)) (optional (constraintNodes ast)).
Proof.
  unfold parseYang, parse_deviations.
  destruct (parse_typedefs_total text) as [ts Hts].
  destruct (parse_lists_total text) as [ls Hls].
  destruct (deviation_nodes_in_order text) as (nodes & Hn & _).
  destruct (parse_blocks_total text) as [bs Hbs].
  destruct (parse_constraintNodes_total text) as [cs Hcs].
  rewrite Hts, Hls, Hn, Hbs, Hcs. cbn [obind].
  eexists. split; [reflexivity|].
  cbn [moduleHeader imports typedefs statuses lists blocks deviations constraintNodes].
  rewrite !optional_nonempty.
  split; [exact (@parse_moduleHeader_proper text)|].
  split; [apply parse_imports_proper|].
  split; [now apply (@parse_typedefs_proper text)|].
  split; [apply parse_statuses_proper|].
  split; [now apply (@parse_lists_proper text)|].
  split; [now apply (@parse_blocks_proper text)|].
  split; [|now apply (@parse_constraintNodes_proper text)].
  apply group_deviations_ranges. now apply (@deviation_nodes_proper text).
Qed.

(* ================================================================== *)
(** * The one-line statements *)
(* ================================================================== *)

Section OneLine.

Variable text : jsstring.

Lemma scan_pos_no_lf (d : jsstring) : Forall no_lf d -> forall c0,
  scan_pos d c0 = (0%nat, (c0 + List.length d)%nat).
Proof.
  induction 1 as [|x d Hx _ IH]; intros c0; cbn [scan_pos List.length].
  - f_equal. lia.
  - destruct (N.eqb_spec x (cu LF)); [contradiction|]. rewrite IH. f_equal. lia.
Qed.

Lemma scan_pos_app_no_lf (a d : jsstring) : Forall no_lf d -> forall c0,
  scan_pos (a ++ d) c0
  = (fst (scan_pos a c0), (snd (scan_pos a c0) + List.length d)%nat).
Proof.
  intros Hd. induction a as [|x a IH]; intros c0; cbn [app scan_pos].
  - now rewrite scan_pos_no_lf.
  - destruct (N.eqb x (cu LF)).
    + rewrite (IH 0%nat). now destruct (scan_pos a 0).
    + apply IH.
Qed.

(** The range of a match without a line feed lies on one line. *)
Lemma line_range_on_one_line (m : rmatch_result) :
  match_of text no_lf m -> on_one_line (line_range text m) (matched text m).
Proof.
  intros [Hb Hall]. unfold on_one_line, line_range. cbn [start end_].
  assert (Hlen : List.length (matched text m) = (end_index m - index m)%nat).
  { unfold matched. rewrite length_firstn, length_skipn. lia. }
  unfold len. rewrite Hlen.
  replace (Z.of_nat (index m) + Z.of_nat (end_index m - index m))%Z
    with (Z.of_nat (end_index m)) by lia.
  rewrite !idxToPos_scan by lia. cbn [line character].
  assert (Hsplit : firstn (end_index m) text = firstn (index m) text ++ matched text m).
  { unfold matched. rewrite <- (firstn_skipn (index m) text) at 1.
    replace (end_index m)
      with (List.length (firstn (index m) text) + (end_index m - index m))%nat at 1
      by (rewrite length_firstn; lia).
    apply firstn_app_2. }
  rewrite Hsplit, (scan_pos_app_no_lf _ Hall). cbn [fst snd]. rewrite Hlen. lia.
Qed.

Ltac no_lf_chars :=
  cbn; repeat split;
  try exact I;
  try (intros x H E; subst x; vm_compute in H; discriminate H);
  try (intros E; vm_compute in E; discriminate E).

Lemma IMPORT_RE_no_lf : chars_in no_lf IMPORT_RE.
Proof. no_lf_chars. Qed.

Lemma STATUS_RE_no_lf : chars_in no_lf STATUS_RE.
Proof. no_lf_chars. Qed.

Lemma MODULE_RE_no_lf : chars_in no_lf MODULE_RE.
Proof. no_lf_chars. Qed.

Lemma matchAll_match_of (P : N -> Prop) (r : regex) : chars_in P r ->
  Forall (match_of text P) (matchAll text r).
Proof.
  intros Hc. unfold matchAll. apply matchAll_loop_all.
  intros li m. now apply exec_consumed.
Qed.

End OneLine.

(** X9.  The module header, every import and every status of the Ast
    lie on one line: the range ends on the line where it starts, as many
    characters further as [rawLine] is long, and [rawLine] holds no line
    feed. *)
Theorem one_line_statements (text : jsstring) :
  exists ast, parseYang text = Some ast
    /\ (forall h, moduleHeader ast = Some h ->
          on_one_line (ModuleHeader.range h) (ModuleHeader.rawLine h)
          /\ Forall no_lf (ModuleHeader.rawLine h))
    /\ Forall (fun n => on_one_line (ImportNode.range n) (ImportNode.rawLine n)
                        /\ Forall no_lf (ImportNode.rawLine n))
              (optional (imports ast))
    /\ Forall (fun n => on_one_line (StatusNode.range n) (StatusNode.rawLine n)
                        /\ Forall no_lf (StatusNode.rawLine n))
              (optional (statuses ast)).
Proof.
  unfold parseYang, parse_deviations.
  destruct (parse_typedefs_total text) as [ts Hts].
  destruct (parse_lists_total text) as [ls Hls].
  destruct (deviation_nodes_in_order text) as (nodes & Hn & _).
  destruct (parse_blocks_total text) as [bs Hbs].
  destruct (parse_constraintNodes_total text) as [cs Hcs].
  rewrite Hts, Hls, Hn, Hbs, Hcs. cbn [obind].
  eexists. split; [reflexivity|].
  cbn [moduleHeader imports statuses]. rewrite !optional_nonempty.
  split; [|split].
  - intros h H. unfold parse_moduleHeader in H.
    destruct (exec text MODULE_RE 0) as [mh|] eqn:E; [|discriminate].
    inversion H; subst. cbn [ModuleHeader.range ModuleHeader.rawLine].
    pose proof (@exec_consumed text no_lf MODULE_RE 0 mh MODULE_RE_no_lf E) as M.
    split; [now apply line_range_on_one_line | apply M].
  - unfold parse_imports. rewrite Forall_map. cbn [ImportNode.range ImportNode.rawLine].
    eapply Forall_impl; [|apply (@matchAll_match_of text no_lf IMPORT_RE IMPORT_RE_no_lf)].
    intros m M. split; [now apply line_range_on_one_line | apply M].
  - unfold parse_statuses. rewrite Forall_map. cbn [StatusNode.range StatusNode.rawLine].
    eapply Forall_impl; [|apply (@matchAll_match_of text no_lf STATUS_RE STATUS_RE_no_lf)].
    intros m M. split; [now apply line_range_on_one_line | apply M].
Qed.

(* ================================================================== *)
(** * Further properties of the rule engine *)
(* ================================================================== *)

Section RuleEngineMore.

Import OrderSpec.

(** X10.  After [validate], [deviationMap] holds for a target the ranges
    of the deviations of the Ast with that target, in the order of the
    collection, and nothing for a target no deviation has; this does not
    depend on the rules, nor on whether a predicate throws. *)
Theorem validate_index_lookup (compiled : list Compiled) (ast : Ast) (t : jsstring) :
  map_get (fst (validate compiled ast)) t
  = match filter (has_target t) (optional (deviations ast)) with
    | [] => None
    | g => Some (map DeviationNode.range g)
    end.
Proof. unfold validate. cbn [fst]. apply index_group. Qed.

Lemma rmap_compile {Json Yaml : Type} (w : World Json Yaml) (rules : list RuleYaml) :
  forall cs, rmap (compile_rule w) rules = Ok cs ->
  map rule cs = rules
  /\ Forall (fun c => jexl_compile w (when_ (rule c)) = Ok (expr c)) cs.
Proof.
  induction rules as [|r rules IH]; intros cs H; simpl in H.
  - inversion H. split; [reflexivity | constructor].
  - unfold compile_rule at 1 in H.
    destruct (jexl_compile w (when_ r)) as [x|] eqn:E; [|discriminate].
    cbn [rbind] in H.
    destruct (rmap (compile_rule w) rules) as [cs'|]; [|discriminate].
    cbn [rbind] in H. inversion H; subst.
    destruct (IH cs' eq_refl) as [Hm Hf]. split.
    + simpl. now rewrite Hm.
    + constructor; [exact E | exact Hf].
Qed.

(** X11.  When every step of a load succeeds, [reload] replaces the
    compiled rules by the rules of the document, one compiled rule for each
    rule and in the same order, each with the compilation of its own
    expression, and shows one information message with their number. *)
Theorem reload_success {Json Yaml : Type} (w : World Json Yaml) (e : Engine)
  (cs : list Compiled) :
  load_succeeds w e cs ->
  compiled (reload w e) = cs
  /\ (exists ruleText ruleDoc,
        readFileSync w (ruleFile_of w e) = Ok ruleText
        /\ yaml_load w ruleText = Ok ruleDoc
        /\ rules_of w ruleDoc = Some (map rule cs))
  /\ Forall (fun c => jexl_compile w (when_ (rule c)) = Ok (expr c)) cs
  /\ shown (reload w e)
     = shown e ++ [InformationMessage
                     (lit "Loaded " ++ decimal (List.length cs)
                      ++ lit " rules from create.yaml")].
Proof.
  intros (schemaText & schema & validate & ruleText & ruleDoc & rules
          & H1 & H2 & H3 & H4 & H5 & H6 & H7 & H8).
  destruct (rmap_compile w rules H8) as [Hm Hf].
  unfold reload, reload_try.
  fold (schemaFile_of w e). fold (ruleFile_of w e). fold (compile_rule w).
  rewrite H1. cbn [rbind]. rewrite H2. cbn [rbind]. rewrite H3. cbn [rbind].
  rewrite H4. cbn [rbind]. rewrite H5. cbn [rbind]. rewrite H6, H7. cbn [rbind].
  rewrite H8. cbn [rbind set_compiled compiled shown].
  split; [reflexivity|]. split.
  - exists ruleText, ruleDoc. now rewrite Hm.
  - split; [exact Hf|]. rewrite <- Hm, length_map. reflexivity.
Qed.

Lemma reload_success_witness :
  compiled (reload loading_world stale_engine) = [one_compiled]
  /\ (exists ruleText ruleDoc,
        readFileSync loading_world (ruleFile_of loading_world stale_engine) = Ok ruleText
        /\ yaml_load loading_world ruleText = Ok ruleDoc
        /\ rules_of loading_world ruleDoc = Some (map rule [one_compiled]))
  /\ Forall (fun c => jexl_compile loading_world (when_ (rule c)) = Ok (expr c))
            [one_compiled]
  /\ shown (reload loading_world stale_engine)
     = shown stale_engine
       ++ [InformationMessage
             (lit "Loaded " ++ decimal (List.length [one_compiled])
              ++ lit " rules from create.yaml")].
Proof.
  apply (@reload_success unit unit loading_world stale_engine [one_compiled]).
  exists (lit "{}"), tt, (fun _ => Valid), (lit "{}"), tt, [one_rule].
  repeat split; reflexivity.
Defined.

(** The payload of a candidate: only a candidate of the deviation scope
    has one, with the target of its node. *)
Lemma scope_nodes_payload (ast : Ast) (c : Compiled) (cand : Candidate) :
  In cand (scope_nodes ast c) ->
  match snd cand with
  | Some p => scope (rule c) = lit "deviation"
              /\ exists n, In n (optional (deviations ast))
                           /\ groupId p = DeviationNode.target n
                           /\ snd (fst cand) = DeviationNode.range n
  | None => scope (rule c) <> lit "deviation"
  end.
Proof.
  unfold scope_nodes.
  destruct (jsstring_eqb (scope (rule c)) (lit "module-header")) eqn:E1.
  { apply jsstring_eqb_true in E1. rewrite E1.
    destruct (moduleHeader ast); [|intros []].
    intros [<- | []]. simpl. intros X. vm_compute in X. discriminate X. }
  destruct (jsstring_eqb (scope (rule c)) (lit "import")) eqn:E2.
  { apply jsstring_eqb_true in E2. rewrite E2. intros H.
    apply in_map_iff in H. destruct H as (n & <- & _).
    simpl. intros X. vm_compute in X. discriminate X. }
  destruct (jsstring_eqb (scope (rule c)) (lit "typedef")) eqn:E3.
  { apply jsstring_eqb_true in E3. rewrite E3. intros H.
    apply in_map_iff in H. destruct H as (n & <- & _).
    simpl. intros X. vm_compute in X. discriminate X. }
  destruct (jsstring_eqb (scope (rule c)) (lit "status")) eqn:E4.
  { apply jsstring_eqb_true in E4. rewrite E4. intros H.
    apply in_map_iff in H. destruct H as (n & <- & _).
    simpl. intros X. vm_compute in X. discriminate X. }
  destruct (jsstring_eqb (scope (rule c)) (lit "list")) eqn:E5.
  { apply jsstring_eqb_true in E5. rewrite E5. intros H.
    apply in_map_iff in H. destruct H as (n & <- & _).
    simpl. intros X. vm_compute in X. discriminate X. }
  destruct (jsstring_eqb (scope (rule c)) (lit "constraint-node")) eqn:E6.
  { apply jsstring_eqb_true in E6. rewrite E6. intros H.
    apply in_map_iff in H. destruct H as (n & <- & _).
    simpl. intros X. vm_compute in X. discriminate X. }
  destruct (jsstring_eqb (scope (rule c)) (lit "deviation")) eqn:E7.
  { apply jsstring_eqb_true in E7. intros H.
    apply in_map_iff in H. destruct H as (n & <- & Hn).
    simpl. split; [exact E7|]. now exists n. }
  apply jsstring_eqb_false in E7.
  destruct (existsb (jsstring_eqb (scope (rule c))) GENERIC_SCOPES).
  - intros H. apply in_map_iff in H. destruct H as (n & <- & _). exact E7.
  - intros [].
Qed.

(** X12.  Every diagnostic [validate] returns comes from a rule of the
    rule set: its source is yang-lint: followed by the id of the rule and
    its message is the description of the rule.  It carries a payload
    exactly when the scope of the rule is deviation, and then the groupId
    is the target of a deviation of the Ast and the range is the range of
    that deviation. *)
Theorem diagnostics_come_from_rules
  (compiled : list Compiled) (ast : Ast) (out : list Diagnostic) :
  snd (validate compiled ast) = Ok out ->
  Forall (fun d =>
            exists c, In c compiled
              /\ source d = lit "yang-lint:" ++ id (rule c)
              /\ message d = description (rule c)
              /\ match data d with
                 | Some p => scope (rule c) = lit "deviation"
                             /\ exists n, In n (optional (deviations ast))
                                          /\ groupId p = DeviationNode.target n
                                          /\ range d = DeviationNode.range n
                 | None => scope (rule c) <> lit "deviation"
                 end) out.
Proof.
  intros H. unfold validate in H. cbn [snd] in H.
  apply run_rules_ok in H. destruct H as [-> _]. cbn [app].
  apply Forall_forall. intros d Hd.
  unfold expected_diagnostics in Hd. apply in_flat_map in Hd.
  destruct Hd as (c & Hc & Hd). unfold rule_diagnostics in Hd.
  apply in_map_iff in Hd. destruct Hd as (cand & <- & Hcand).
  apply filter_In in Hcand. destruct Hcand as [Hcand _].
  apply scope_nodes_payload in Hcand.
  exists c. destruct cand as [[env rng] extra]. cbn in *. auto.
Qed.

Lemma diagnostics_come_from_rules_witness :
  Forall (fun d =>
            exists c, In c [import_rule "r1" (fun _ => Ok true)]
              /\ source d = lit "yang-lint:" ++ id (rule c)
              /\ message d = description (rule c)
              /\ match data d with
                 | Some p => scope (rule c) = lit "deviation"
                             /\ exists n, In n (optional (deviations
                                                 (ast_of_imports [import_at "a" 1])))
                                          /\ groupId p = DeviationNode.target n
                                          /\ range d = DeviationNode.range n
                 | None => scope (rule c) <> lit "deviation"
                 end)
         [import_diagnostic (ast_of_imports [import_at "a" 1])
                            (import_rule "r1" (fun _ => Ok true)) (import_at "a" 1)].
Proof.
  apply (@diagnostics_come_from_rules [import_rule "r1" (fun _ => Ok true)]
           (ast_of_imports [import_at "a" 1])).
  reflexivity.
Defined.

(** X13.  A rule whose scope is none of the fifteen scopes [validate]
    knows is skipped: its expression is not evaluated, so it adds no
    diagnostic and cannot make [validate] throw.  The same holds for a rule
    of scope module-header on an Ast without module header. *)
Theorem rule_without_node_is_skipped (c : Compiled) (compiled : list Compiled) (ast : Ast) :
  (~ In (scope (rule c)) KNOWN_SCOPES ->
   snd (validate (c :: compiled) ast) = snd (validate compiled ast))
  /\ (scope (rule c) = lit "module-header" -> moduleHeader ast = None ->
      snd (validate (c :: compiled) ast) = snd (validate compiled ast)).
Proof.
  assert (Hskip : scope_nodes ast c = [] ->
                  snd (validate (c :: compiled) ast) = snd (validate compiled ast)).
  { intros Hn. unfold validate. cbn [snd run_rules].
    rewrite run_rule_candidates, Hn. reflexivity. }
  split.
  - intros Hun. apply Hskip. unfold scope_nodes.
    assert (Hne : forall s, In s KNOWN_SCOPES -> jsstring_eqb (scope (rule c)) s = false).
    { intros s Hs. apply jsstring_eqb_false. intros E. apply Hun. now rewrite E. }
    rewrite !Hne by (unfold KNOWN_SCOPES; simpl; tauto).
    assert (Hg : existsb (jsstring_eqb (scope (rule c))) GENERIC_SCOPES = false).
    { destruct (existsb (jsstring_eqb (scope (rule c))) GENERIC_SCOPES) eqn:E;
        [|reflexivity].
      apply existsb_eqb_In in E. exfalso. apply Hun.
      unfold KNOWN_SCOPES. apply in_or_app. now right. }
    now rewrite Hg.
  - intros Hs Hm. apply Hskip. unfold scope_nodes. rewrite Hs, Hm. reflexivity.
Qed.

End RuleEngineMore.

(* ================================================================== *)
(** * The code-action handler *)
(* ================================================================== *)

Section Handler.

Lemma buildDeviationFix_action (deviationMap : DeviationIndex) (diag : Diagnostic)
  (uri text : jsstring) (a : CodeAction) :
  buildDeviationFix deviationMap diag uri text = Ok (Some a) ->
  diagnostics a = [diag] /\ map fst (changes a) = [uri].
Proof.
  unfold buildDeviationFix. intros H.
  destruct (data diag) as [payload|]; [|discriminate].
  destruct (map_get deviationMap (groupId payload)) as [ranges|]; [|discriminate].
  destruct (List.length ranges <? 2)%nat; [discriminate|].
  destruct (js_sort compare_ranges ranges) as [|first others]; [discriminate|].
  destruct (offsetAt text _) as [off|]; [|discriminate]. cbn [rbind] in H.
  destruct (rmap _ (first :: others)) as [bodies|]; [|discriminate]. cbn [rbind] in H.
  inversion H. auto.
Qed.

Lemma flagged_target_true (ast : Ast) (t : jsstring) :
  flagged_target ast t = true <->
  exists n, In n (optional (deviations ast))
            /\ DeviationNode.target n = t /\ DeviationNode.duplicate n = true.
Proof.
  unfold flagged_target. rewrite existsb_exists. split.
  - intros (n & Hn & H). apply andb_true_iff in H. destruct H as [H1 H2].
    apply jsstring_eqb_true in H1. now exists n.
  - intros (n & Hn & H1 & H2). exists n. split; [exact Hn|].
    apply andb_true_iff. split; [now apply jsstring_eqb_true | exact H2].
Qed.

Lemma codeAction_loop_fixes (compiled : list Compiled) (text uri : jsstring) (ast : Ast) :
  parseYang text = Some ast ->
  forall (diags : list Diagnostic) (fixes : list CodeAction),
  exists fixes',
    codeAction_loop (fst (validate compiled ast)) uri text diags fixes = Ok fixes'
    /\ map diagnostics fixes'
       = map diagnostics fixes ++ map (fun d => [d]) (filter (fixable ast) diags).
Proof.
  intros Hp. induction diags as [|diag diags IH]; intros fixes.
  - exists fixes. split; [reflexivity|]. simpl. now rewrite app_nil_r.
  - cbn [codeAction_loop filter]. unfold fixable at 1.
    destruct (jsstring_eqb (source diag) DUPLICATE_SOURCE && has_groupId diag) eqn:E.
    + apply andb_true_iff in E. destruct E as [_ Hg]. unfold has_groupId in Hg.
      destruct (data diag) as [payload|] eqn:Hdata; [|discriminate].
      destruct (@quick_fix_after_validation compiled text uri ast diag payload Hp Hdata)
        as (fixed & _ & Hfix & Hiff).
      rewrite Hfix. cbn [rbind andb]. rewrite <- flagged_target_true in Hiff.
      destruct fixed as [a|].
      * assert (Hf : flagged_target ast (groupId payload) = true)
          by (apply Hiff; discriminate).
        rewrite Hf. destruct (IH (fixes ++ [a])) as (fixes' & -> & Hm).
        exists fixes'. split; [reflexivity|]. rewrite Hm, map_app. cbn [map].
        apply buildDeviationFix_action in Hfix. destruct Hfix as [-> _].
        now rewrite <- app_assoc.
      * assert (Hf : flagged_target ast (groupId payload) = false).
        { destruct (flagged_target ast (groupId payload)); [|reflexivity].
          exfalso. now apply (proj2 Hiff). }
        rewrite Hf. apply IH.
    + cbn [andb]. apply IH.
Qed.

(** X14.  For a document whose text was validated last, the code-action
    handler never throws: it returns one action for each diagnostic of the
    rule deviation-unique-target that carries a groupId which is the target
    of a deviation flagged as duplicate, in the order of the diagnostics,
    and none for any other diagnostic.  For a uri with no open document it
    returns no action, whatever the index and the diagnostics are. *)
Theorem onCodeAction_on_validated_document
  (compiled : list Compiled) (documents : list (jsstring * jsstring))
  (uri text : jsstring) (diags : list Diagnostic) :
  (map_get documents uri = Some text ->
   exists ast fixes,
     parseYang text = Some ast
     /\ onCodeAction documents (fst (validate compiled ast)) uri diags = Ok fixes
     /\ map diagnostics fixes = map (fun d => [d]) (filter (fixable ast) diags))
  /\ (map_get documents uri = None ->
      forall index, onCodeAction documents index uri diags = Ok []).
Proof.
  split.
  - intros Hdoc. destruct (parseYang_total text) as (ast & nodes & Hp & _).
    destruct (@codeAction_loop_fixes compiled text uri ast Hp diags []) as (fixes & Hl & Hm).
    exists ast, fixes. split; [exact Hp|]. unfold onCodeAction. rewrite Hdoc. auto.
  - intros Hdoc index. unfold onCodeAction. now rewrite Hdoc.
Qed.

(** X15.  The array sorted by [buildDeviationFix] holds the ranges of the
    group, each as often as the group does, in document order: line first,
    character second. *)
Theorem sorted_ranges_in_document_order (ranges : list Range) :
  Permutation ranges (js_sort compare_ranges ranges)
  /\ StronglySorted
       (fun a b => (line (start a) < line (start b)
                    \/ (line (start a) = line (start b)
                        /\ character (start a) <= character (start b)))%Z)
       (js_sort compare_ranges ranges).
Proof.
  split; [apply js_sort_perm|].
  pose proof (js_sort_sorted ranges) as S.
  induction S as [|a l _ IH Hall]; constructor; [exact IH|].
  eapply Forall_impl; [|exact Hall]. intros b Hb. now apply doc_le_lex.
Qed.

End Handler.

(* ================================================================== *)
(** * Lines: split and join *)
(* ================================================================== *)

Section Lines.

Lemma join_cons_nonempty (sep a : jsstring) (l : list jsstring) :
  l <> [] -> join sep (a :: l) = a ++ sep ++ join sep l.
Proof. destruct l; [congruence | reflexivity]. Qed.

Lemma join_split_lf_acc (t : jsstring) : forall cur,
  join [cu LF] (split_lf_acc cur t) = rev cur ++ t.
Proof.
  induction t as [|x tl IH]; intros cur; cbn [split_lf_acc].
  - simpl. now rewrite app_nil_r.
  - destruct (N.eqb_spec x (cu LF)).
    + subst x. rewrite join_cons_nonempty by apply split_lf_acc_nonempty.
      now rewrite IH.
    + rewrite IH. cbn [rev]. now rewrite <- app_assoc.
Qed.

Lemma split_lf_acc_no_lf (t : jsstring) : forall cur,
  Forall no_lf cur -> Forall (Forall no_lf) (split_lf_acc cur t).
Proof.
  induction t as [|x tl IH]; intros cur Hcur; cbn [split_lf_acc].
  - constructor; [|constructor]. now apply Forall_rev.
  - destruct (N.eqb_spec x (cu LF)).
    + constructor; [now apply Forall_rev | apply IH; constructor].
    + apply IH. constructor; assumption.
Qed.

(** The first lines of a text, joined again, are a prefix of the text. *)
Lemma join_firstn_prefix (k : nat) (t : jsstring) : forall cur,
  exists rst, rev cur ++ t = join [cu LF] (firstn (S k) (split_lf_acc cur t)) ++ rst.
Proof.
  revert t. induction k as [|k IHk]; intros t; induction t as [|x tl IH]; intros cur;
    cbn [split_lf_acc].
  - exists []. simpl. reflexivity.
  - destruct (N.eqb x (cu LF)).
    + exists (x :: tl). reflexivity.
    + destruct (IH (x :: cur)) as [rst Hr]. exists rst.
      rewrite <- Hr. cbn [rev]. now rewrite <- app_assoc.
  - exists []. simpl. reflexivity.
  - destruct (N.eqb_spec x (cu LF)).
    + subst x. destruct (IHk tl []) as [rst Hr]. exists rst.
      change (firstn (S (S k)) (rev cur :: split_lf_acc [] tl))
        with (rev cur :: firstn (S k) (split_lf_acc [] tl)).
      rewrite join_cons_nonempty.
      2:{ destruct (split_lf_acc [] tl) eqn:E; [|discriminate].
          now apply split_lf_acc_nonempty in E. }
      cbn [rev app] in Hr. rewrite <- !app_assoc. cbn [app]. now rewrite <- Hr.
    + destruct (IH (x :: cur)) as [rst Hr]. exists rst.
      rewrite <- Hr. cbn [rev]. now rewrite <- app_assoc.
Qed.

(** X16.  Splitting a text at its line feeds and joining the parts with
    a line feed gives the text back, and no part holds a line feed.  The
    preview [afterLines], the first ten parts joined again, is a prefix of
    the body it is taken from. *)
Theorem split_join_lines (body : jsstring) :
  join [cu LF] (split_lf body) = body
  /\ Forall (Forall no_lf) (split_lf body)
  /\ split_lf body <> []
  /\ exists rst, body = first10 body ++ rst.
Proof.
  unfold split_lf, first10. split; [apply (join_split_lf_acc body [])|].
  split; [apply split_lf_acc_no_lf; constructor|].
  split; [apply split_lf_acc_nonempty|].
  apply (join_firstn_prefix 9 body []).
Qed.

End Lines.
